(** * Rhinoceros: the per-tick simulation of [GameRunner] (main.go)

    A shallow embedding of the game loop of tsujio/game-rhinoceros:
    the gauge / rush logic, enemy and background-object spawning, the
    collision and scoring loop, pruning, the depth sort and the order of
    the draw pass.

    Go's [float64] is IEEE 754 binary64 and is embedded as Rocq's primitive
    [float], each operation rounded on its own (Go may fuse [x*y + z] on
    some targets; main.go has that shape only where it scales a random
    number: the depth of a new object, the impulse of a hit enemy and the
    position of a gain effect).
    Go's [int] and [uint64] are embedded as [Z] with their wrap-around
    written out (64-bit [int], as on amd64, arm64 and wasm).
    Code of the packages the file imports (math/rand/v2, sort, mathutil,
    touchutil, effectutil, the audio sink) is not part of main.go: it is
    either an operation of the class [Env] below, so that every theorem
    holds for all implementations, or a model with its own doc comment. *)

From Stdlib Require Import ZArith List Bool String Lia Floats.
From Stdlib Require Import Permutation Sorted.
Import ListNotations.

Local Open Scope Z_scope.

(** ** Machine integers *)

Module GoInt.

(** [int]: 64-bit two's complement. *)
Definition min_int : Z := - 2 ^ 63.
Definition max_int : Z := 2 ^ 63 - 1.
Definition wrap (z : Z) : Z := (z + 2 ^ 63) mod 2 ^ 64 - 2 ^ 63.

Definition add (a b : Z) : Z := wrap (a + b).
Definition sub (a b : Z) : Z := wrap (a - b).
Definition mul (a b : Z) : Z := wrap (a * b).

(** [uint64] *)
Definition wrapU (z : Z) : Z := z mod 2 ^ 64.
Definition addU (a b : Z) : Z := wrapU (a + b).

Definition in_range (z : Z) : Prop := min_int <= z <= max_int.

End GoInt.

(** ** Vectors (package mathutil) *)

Module Vector2D.

Record t : Set := New { X : float; Y : float }.

(** Modelled from the spec: [Add] and [Sub] of mathutil.Vector2D
    (package game-util/mathutil is imported, not part of main.go); the
    spec gives them as pure component-wise arithmetic returning a new
    vector. *)
Definition Add (a b : t) : t := New (X a + X b)%float (Y a + Y b)%float.
Definition Sub (a b : t) : t := New (X a - X b)%float (Y a - Y b)%float.

End Vector2D.

Module Vector3D.

Record t : Set := New { X : float; Y : float; Z : float }.

(** Modelled from the spec: [Add] of mathutil.Vector3D, component-wise as
    for [Vector2D]. *)
Definition Add (a b : t) : t :=
  New (X a + X b)%float (Y a + Y b)%float (Z a + Z b)%float.

End Vector3D.

(** ** Constants of main.go (lines 31-44)

    The untyped constants are used as [float64] everywhere in the simulation
    except [gageMax], which bounds the [int] gauge. *)

Definition screenWidth : float := 640.
Definition screenHeight : float := 480.
Definition rhinoX : float := 170.
Definition rhinoY : float := 370.
Definition rhinoR : float := 10.
Definition rhinoSpeed : float := 2.5.
Definition rhinoRushSpeed : float := 6.
Definition enemyR : float := 8.
Definition gageMax : Z := 300.
Definition cameraY : float := (-100).
Definition screenZ : float := 50.

(** ** The collaborators of the game loop *)

Inductive Color : Set :=
| White
| RGBA (r g b a : Z).

Inductive FontFace : Set := fontFaceL | fontFaceM | fontFaceS.

Inductive AudioData : Set :=
| gameStartAudioData | gameOverAudioData | hitAudioData
| runAudioData | chargeAudioData.

(** effectutil.SplashEffectOptions without its [Random] field: the random
    source is the one of the [World], threaded through every call. *)
Record SplashEffectOptions : Set := {
  Count : Z;
  SplashColor : Color;
  Size : float;
  AngularVelocity : float;
  AngleMin : float;
  AngleMax : float;
  Speed : float;
  Ay : float
}.

Record GainEffectOptions : Set := {
  Gain : Z;
  Face : FontFace
}.

(** What main.go imports and calls.  The random source ([*rand.Rand], owned
    by [Game] and shared with the runner and with every splash effect) is a
    state [Rand] passed through each call that may draw from it. *)
Class Env : Type := {
  (* math/rand/v2 *)
  Rand : Type;
  rand_Int : Rand -> Z * Rand;
  rand_Float64 : Rand -> float * Rand;
  (* touchutil *)
  Touch : Type;
  AnyTouchesJustTouched : list Touch -> bool;
  AnyTouchesActive : list Touch -> bool;
  AllTouchesJustReleased : list Touch -> bool;
  (* mathutil *)
  CapsulesCollide :
    Vector2D.t -> Vector2D.t -> float ->
    Vector2D.t -> Vector2D.t -> float -> bool;
  ConvertCoordinateWorldToScreen :
    Vector3D.t -> float -> float -> float -> float -> Vector2D.t;
  ConvertCoordinateScreenToWorld :
    Vector2D.t -> Vector3D.t -> float -> float -> float -> float -> Vector3D.t;
  (* effectutil *)
  Effect : Type;
  NewSplashEffect :
    float -> float -> Z -> SplashEffectOptions -> Rand -> Effect * Rand;
  NewGainEffect : float -> float -> Z -> GainEffectOptions -> Effect;
  Effect_Update : Effect -> Rand -> Effect * Rand;
  Effect_Finished : Effect -> bool
}.

(** ** Entities *)

(** [Enemy] (lines 87-93).  [hitV] is a nil pointer until the enemy is hit;
    the back-reference [runner] is only read for [runner.rush], which
    [Enemy_update] takes as an argument. *)
Record Enemy : Set := {
  e_ticks : Z;
  pos : Vector2D.t;
  prevPos : Vector2D.t;
  hitV : option Vector2D.t;
  hit : bool
}.

(** [BackgroundObject] (lines 128-132). *)
Record BackgroundObject : Set := {
  typ : string;
  o_pos : Vector3D.t
}.

Section State.

Context {E : Env}.

(** The state outside the runner that [update] reads and writes: the random
    source and the audio sink (a log of what was played, at which volume). *)
Record World : Type := {
  random : Rand;
  played : list (AudioData * float)
}.

(** [GameRunner] (lines 173-186), without the pointer to [Game]. *)
Record GameRunner : Type := {
  ticks : Z;
  mute : bool;
  gameOver : bool;
  gage : Z;
  rush : bool;
  hitCountInRush : Z;
  ticksAtHit : Z;
  enemies : list Enemy;
  objects : list BackgroundObject;
  effects : list Effect;
  score : Z
}.

Definition set_ticks v r :=
  {| ticks := v; mute := mute r; gameOver := gameOver r; gage := gage r;
     rush := rush r; hitCountInRush := hitCountInRush r;
     ticksAtHit := ticksAtHit r; enemies := enemies r; objects := objects r;
     effects := effects r; score := score r |}.
Definition set_gameOver v r :=
  {| ticks := ticks r; mute := mute r; gameOver := v; gage := gage r;
     rush := rush r; hitCountInRush := hitCountInRush r;
     ticksAtHit := ticksAtHit r; enemies := enemies r; objects := objects r;
     effects := effects r; score := score r |}.
Definition set_gage v r :=
  {| ticks := ticks r; mute := mute r; gameOver := gameOver r; gage := v;
     rush := rush r; hitCountInRush := hitCountInRush r;
     ticksAtHit := ticksAtHit r; enemies := enemies r; objects := objects r;
     effects := effects r; score := score r |}.
Definition set_rush v r :=
  {| ticks := ticks r; mute := mute r; gameOver := gameOver r; gage := gage r;
     rush := v; hitCountInRush := hitCountInRush r;
     ticksAtHit := ticksAtHit r; enemies := enemies r; objects := objects r;
     effects := effects r; score := score r |}.
Definition set_hitCountInRush v r :=
  {| ticks := ticks r; mute := mute r; gameOver := gameOver r; gage := gage r;
     rush := rush r; hitCountInRush := v;
     ticksAtHit := ticksAtHit r; enemies := enemies r; objects := objects r;
     effects := effects r; score := score r |}.
Definition set_ticksAtHit v r :=
  {| ticks := ticks r; mute := mute r; gameOver := gameOver r; gage := gage r;
     rush := rush r; hitCountInRush := hitCountInRush r;
     ticksAtHit := v; enemies := enemies r; objects := objects r;
     effects := effects r; score := score r |}.
Definition set_enemies v r :=
  {| ticks := ticks r; mute := mute r; gameOver := gameOver r; gage := gage r;
     rush := rush r; hitCountInRush := hitCountInRush r;
     ticksAtHit := ticksAtHit r; enemies := v; objects := objects r;
     effects := effects r; score := score r |}.
Definition set_objects v r :=
  {| ticks := ticks r; mute := mute r; gameOver := gameOver r; gage := gage r;
     rush := rush r; hitCountInRush := hitCountInRush r;
     ticksAtHit := ticksAtHit r; enemies := enemies r; objects := v;
     effects := effects r; score := score r |}.
Definition set_effects v r :=
  {| ticks := ticks r; mute := mute r; gameOver := gameOver r; gage := gage r;
     rush := rush r; hitCountInRush := hitCountInRush r;
     ticksAtHit := ticksAtHit r; enemies := enemies r; objects := objects r;
     effects := v; score := score r |}.
Definition set_score v r :=
  {| ticks := ticks r; mute := mute r; gameOver := gameOver r; gage := gage r;
     rush := rush r; hitCountInRush := hitCountInRush r;
     ticksAtHit := ticksAtHit r; enemies := enemies r; objects := objects r;
     effects := effects r; score := v |}.

(** ** The monad of the game loop

    A computation reads and writes the [World]; [None] is a Go run-time
    panic (the only one the loop can raise is a nil dereference of
    [Enemy.hitV]). *)
Definition M (A : Type) : Type := World -> option (A * World).

Definition ret {A} (a : A) : M A := fun w => Some (a, w).
Definition bind {A B} (m : M A) (f : A -> M B) : M B :=
  fun w => match m w with
           | Some (a, w') => f a w'
           | None => None
           end.
Definition panic {A} : M A := fun _ => None.

Definition when (b : bool) (m : M unit) : M unit := if b then m else ret tt.

(** [r.game.random.Int()] and [r.game.random.Float64()] *)
Definition randInt : M Z :=
  fun w => let (n, g) := rand_Int (random w) in
           Some (n, {| random := g; played := played w |}).
Definition randFloat64 : M float :=
  fun w => let (x, g) := rand_Float64 (random w) in
           Some (x, {| random := g; played := played w |}).

(** Calls that are handed the shared random source. *)
Definition withRandom {A} (f : Rand -> A * Rand) : M A :=
  fun w => let (a, g) := f (random w) in
           Some (a, {| random := g; played := played w |}).

(** [audioContext.NewPlayerFromBytes(data)], [SetVolume], [Play()] *)
Definition play (data : AudioData) (volume : float) : M unit :=
  fun w => Some (tt, {| random := random w;
                        played := played w ++ [(data, volume)] |}).

End State.

Notation "x <- m ;; k" := (bind m (fun x => k))
  (at level 61, m at next level, right associativity).
Notation "' pat <- m ;; k" :=
  (bind m (fun x => match x with pat => k end))
  (at level 61, pat pattern, m at next level, right associativity).
Notation "m ;;; k" := (bind m (fun _ => k))
  (at level 61, right associativity).

(** ** Entity updates *)

Section Runner.

Context {E : Env}.

(** [Enemy.update] (lines 95-112).  [runner_rush] is [e.runner.rush].  The
    addition [e.pos.Add(e.hitV)] dereferences [hitV]: on an enemy marked hit
    whose [hitV] is nil the call panics. *)
Definition Enemy_update (runner_rush : bool) (e : Enemy) : option Enemy :=
  let ticks' := GoInt.addU (e_ticks e) 1 in
  if negb (hit e) then
    let speed := 1.5%float in
    let speed :=
      if runner_rush then (speed + rhinoRushSpeed)%float
      else (speed + rhinoSpeed)%float in
    Some {| e_ticks := ticks';
            pos := Vector2D.Add (pos e) (Vector2D.New (- speed)%float 0);
            prevPos := pos e;
            hitV := hitV e;
            hit := hit e |}
  else
    match hitV e with
    | Some v =>
        Some {| e_ticks := ticks';
                pos := Vector2D.Add (pos e) v;
                prevPos := prevPos e;
                hitV := Some (Vector2D.Add v (Vector2D.New 0 1));
                hit := hit e |}
    | None => None
    end.

(** [BackgroundObject.update] (lines 134-143) *)
Definition BackgroundObject_update (runner_rush : bool) (o : BackgroundObject)
  : BackgroundObject :=
  let speed := if runner_rush then rhinoRushSpeed else rhinoSpeed in
  let v := Vector3D.New (- speed)%float 0 0 in
  {| typ := typ o; o_pos := Vector3D.Add (o_pos o) v |}.

(** [rhinoZ] (lines 46-53): the player's depth, from its screen position. *)
Definition rhinoZ : float :=
  Vector3D.Z
    (ConvertCoordinateScreenToWorld
       (Vector2D.New rhinoX rhinoY)
       (Vector3D.New nan 0 nan)
       cameraY screenZ screenWidth screenHeight).

(** [GameRunner.createBackgroundObject] (lines 188-216) *)
Definition createBackgroundObject (typ : string) (screenX : float)
  : M BackgroundObject :=
  let '(y, zOffset, zRange) :=
    if (typ =? "tree")%string || (typ =? "weed")%string then
      (0, 20, 700)%float
    else if (typ =? "cloud")%string then
      ((-50000), 9999, 99999)%float
    else (0, 0, 0)%float in
  u <- randFloat64 ;;
  let wPos := Vector3D.New 0 y (zOffset + u * zRange)%float in
  let sPos :=
    ConvertCoordinateWorldToScreen wPos cameraY screenZ screenWidth screenHeight in
  let sPos := Vector2D.New screenX (Vector2D.Y sPos) in
  let pos :=
    ConvertCoordinateScreenToWorld
      sPos (Vector3D.New nan nan (Vector3D.Z wPos))
      cameraY screenZ screenWidth screenHeight in
  ret {| typ := typ; o_pos := pos |}.

(** ** [GameRunner.update] (lines 218-403), block by block *)

(** Lines 225-280: the gauge and the rush flag. *)
Definition updateGage (touches : list Touch) (r : GameRunner) : M GameRunner :=
  if negb (rush r) then
    r <- (if AnyTouchesJustTouched touches
             || ((0 <? gage r) && AnyTouchesActive touches) then
            when (negb (mute r) && (gage r =? 0)) (play chargeAudioData 1) ;;;
            let r := set_gage (GoInt.add (gage r) 1) r in
            ret (if gageMax <? gage r then set_gage gageMax r else r)
          else ret r) ;;
    let r :=
      if (0 <? gage r) && AllTouchesJustReleased touches
      then set_rush true r else r in
    when (negb (mute r) && (Z.rem (ticks r) 20 =? 0))
         (play runAudioData 0x1.999999999999ap-4) ;;;
    ret r
  else
    let r := set_gage (GoInt.sub (gage r) 1) r in
    r <- (if (0 <? gage r) && (Z.rem (gage r) 10 =? 0) then
            ef <- withRandom
                    (NewSplashEffect (rhinoX - 20)%float rhinoY 15
                       {| Count := 3;
                          SplashColor := White;
                          Size := 10;
                          AngularVelocity := 0x1.41b2f769cf0e0p-3;
                          AngleMin := 0x1.921fb54442d18p+1;
                          AngleMax := 0x1.0c152382d7366p+2;
                          Speed := 8;
                          Ay := 0x1.3333333333333p-2 |}) ;;
            ret (set_effects (effects r ++ [ef]) r)
          else ret r) ;;
    let r :=
      if gage r <=? 0
      then set_hitCountInRush 0 (set_gage 0 (set_rush false r)) else r in
    when (negb (mute r) && (Z.rem (ticks r) 10 =? 0))
         (play runAudioData 0x1.999999999999ap-4) ;;;
    ret r.

(** Lines 282-290: an enemy enters at the right edge, at the player's height. *)
Definition spawnEnemy (r : GameRunner) : M GameRunner :=
  if 120 <? ticks r then
    n <- randInt ;;
    if Z.rem n 60 =? 0 then
      let pos := Vector2D.New (screenWidth + 50)%float rhinoY in
      let e := {| e_ticks := 0; pos := pos; prevPos := pos;
                  hitV := None; hit := false |} in
      ret (set_enemies (enemies r ++ [e]) r)
    else ret r
  else ret r.

Definition appendObject (typ : string) (screenX : float) (r : GameRunner)
  : M GameRunner :=
  o <- createBackgroundObject typ screenX ;;
  ret (set_objects (objects r ++ [o]) r).

(** Lines 292-305: trees and clouds by chance, a weed on every tick. *)
Definition spawnObjects (r : GameRunner) : M GameRunner :=
  n <- randInt ;;
  r <- (if Z.rem n 60 =? 0
        then appendObject "tree" (screenWidth + 100)%float r else ret r) ;;
  r <- appendObject "weed" (screenWidth + 100)%float r ;;
  n <- randInt ;;
  if Z.rem n 60 =? 0
  then appendObject "cloud" (screenWidth + 100)%float r else ret r.

(** The collision test of lines 310-317. *)
Definition collides (e : Enemy) : bool :=
  CapsulesCollide
    (Vector2D.New rhinoX rhinoY) (Vector2D.New 0 0) rhinoR
    (prevPos e) (Vector2D.Sub (pos e) (prevPos e)) enemyR.

(** Lines 318-358: a hit while rushing. *)
Definition hitEnemy (e : Enemy) (r : GameRunner) : M (Enemy * GameRunner) :=
  u1 <- randFloat64 ;;
  u2 <- randFloat64 ;;
  let e := {| e_ticks := e_ticks e; pos := pos e; prevPos := prevPos e;
              hitV := Some (Vector2D.New (5 + 10 * u1)%float
                                         (- (10 + 20 * u2))%float);
              hit := true |} in
  let r := set_ticksAtHit (ticks r) r in
  let r := set_hitCountInRush (GoInt.add (hitCountInRush r) 1) r in
  let gain := GoInt.mul 10 (hitCountInRush r) in
  let r := set_score (GoInt.add (score r) gain) r in
  u3 <- randFloat64 ;;
  u4 <- randFloat64 ;;
  let ef := NewGainEffect
              (rhinoX + 50 + (u3 - 0.5) * 100)%float
              (rhinoY - 30 + (u4 - 0.5) * 100)%float
              60 {| Gain := gain; Face := fontFaceM |} in
  let r := set_effects (effects r ++ [ef]) r in
  ef <- withRandom
          (NewSplashEffect (rhinoX + 50)%float (rhinoY - 30)%float 999
             {| Count := 5;
                SplashColor := RGBA 255 255 0 255;
                Size := 10;
                AngularVelocity := 0x1.41b2f769cf0e0p-3;
                AngleMin := (-0x1.921fb54442d18p+0);
                AngleMax := 0x1.921fb54442d18p-1;
                Speed := 10;
                Ay := 0x1.999999999999ap-3 |}) ;;
  let r := set_effects (effects r ++ [ef]) r in
  when (negb (mute r)) (play hitAudioData 1) ;;;
  ret (e, r).

(** The body of the loop of lines 307-365, for the enemy [e]. *)
Definition collideEnemy (e : Enemy) (r : GameRunner) : M (Enemy * GameRunner) :=
  '(e, r) <- (if negb (hit e) && collides e then
                if rush r then hitEnemy e r
                else ret (e, set_gameOver true r)
              else ret (e, r)) ;;
  match Enemy_update (rush r) e with
  | Some e' => ret (e', r)
  | None => panic
  end.

(** The loop of lines 307-365 over [r.enemies], in index order; the enemies
    are updated in place. *)
Fixpoint collideLoop (es : list Enemy) (r : GameRunner)
  : M (list Enemy * GameRunner) :=
  match es with
  | [] => ret ([], r)
  | e :: es' =>
      '(e', r) <- collideEnemy e r ;;
      '(es'', r) <- collideLoop es' r ;;
      ret (e' :: es'', r)
  end.

Definition collideEnemies (r : GameRunner) : M GameRunner :=
  '(es, r) <- collideLoop (enemies r) r ;;
  ret (set_enemies es r).

(** Lines 367-369 *)
Definition updateObjects (r : GameRunner) : GameRunner :=
  set_objects (map (BackgroundObject_update (rush r)) (objects r)) r.

(** Lines 371-373: every effect's [Update], which may draw from the random
    source it was created with. *)
Fixpoint updateEffectsLoop (efs : list Effect) : M (list Effect) :=
  match efs with
  | [] => ret []
  | ef :: efs' =>
      ef' <- withRandom (Effect_Update ef) ;;
      efs'' <- updateEffectsLoop efs' ;;
      ret (ef' :: efs'')
  end.

Definition updateEffects (r : GameRunner) : M GameRunner :=
  efs <- updateEffectsLoop (effects r) ;;
  ret (set_effects efs r).

(** Lines 375-381: the enemies that stay.  The compaction into
    [r.enemies[:0]] writes behind the read index, so it is a filter that
    keeps the order. *)
Definition enemyStays (e : Enemy) : bool :=
  (Vector2D.Y (pos e) <? screenHeight + 100)%float.

Definition pruneEnemies (es : list Enemy) : list Enemy := filter enemyStays es.

(** Lines 383-390 *)
Definition objectStays (o : BackgroundObject) : bool :=
  let pos :=
    ConvertCoordinateWorldToScreen
      (o_pos o) cameraY screenZ screenWidth screenHeight in
  ((-100) <? Vector2D.X pos)%float.

Definition pruneObjects (os : list BackgroundObject) : list BackgroundObject :=
  filter objectStays os.

(** Lines 392-398 *)
Definition pruneEffects (efs : list Effect) : list Effect :=
  filter (fun ef => negb (Effect_Finished ef)) efs.

Definition prune (r : GameRunner) : GameRunner :=
  let r := set_enemies (pruneEnemies (enemies r)) r in
  let r := set_objects (pruneObjects (objects r)) r in
  set_effects (pruneEffects (effects r)) r.

End Runner.

(** ** The depth sort and the whole tick *)

(** Modelled from the spec: [sort.Slice] (package sort of Go's standard
    library, not part of main.go).  The spec only asks that the objects be
    re-sorted by descending world-Z; Go documents the result as sorted by
    [less] and not stable.  The model is insertion sort, which Go itself runs
    on short slices; the theorems use nothing but that the result is a
    permutation ordered by [less]. *)
Fixpoint insertBy {A} (less : A -> A -> bool) (x : A) (l : list A) : list A :=
  match l with
  | [] => [x]
  | y :: l' => if less x y then x :: y :: l' else y :: insertBy less x l'
  end.

Definition sortSlice {A} (less : A -> A -> bool) (l : list A) : list A :=
  fold_right (insertBy less) [] l.

(** The [less] of lines 400-402: [objects[i].pos.Z > objects[j].pos.Z]. *)
Definition fartherThan (a b : BackgroundObject) : bool :=
  (Vector3D.Z (o_pos b) <? Vector3D.Z (o_pos a))%float.

Section Tick.

Context {E : Env}.

Definition sortObjects (r : GameRunner) : GameRunner :=
  set_objects (sortSlice fartherThan (objects r)) r.

(** Lines 223-305: the tick counter, the gauge and the spawns, up to the
    collision loop. *)
Definition beforeCollisions (r : GameRunner) (touches : list Touch)
  : M GameRunner :=
  let r := set_ticks (GoInt.addU (ticks r) 1) r in
  r <- updateGage touches r ;;
  r <- spawnEnemy r ;;
  spawnObjects r.

(** Lines 367-402: entity updates, pruning and the depth sort. *)
Definition afterCollisions (r : GameRunner) : M GameRunner :=
  let r := updateObjects r in
  r <- updateEffects r ;;
  let r := prune r in
  ret (sortObjects r).

(** [GameRunner.update] (lines 218-403) *)
Definition update (r : GameRunner) (touches : list Touch) : M GameRunner :=
  if gameOver r then ret r
  else
    r <- beforeCollisions r touches ;;
    r <- collideEnemies r ;;
    afterCollisions r.

(** Consecutive ticks, one touch snapshot per tick. *)
Fixpoint run (inputs : list (list Touch)) (r : GameRunner) : M GameRunner :=
  match inputs with
  | [] => ret r
  | touches :: inputs' => r <- update r touches ;; run inputs' r
  end.

(** [Game.newGameRunner] (lines 632-654) *)
Fixpoint populate (typ : string) (n : nat) (r : GameRunner) : M GameRunner :=
  match n with
  | O => ret r
  | S n' =>
      u <- randFloat64 ;;
      r <- appendObject typ (u * screenWidth)%float r ;;
      populate typ n' r
  end.

Definition newGameRunner (mute : bool) : M GameRunner :=
  let r := {| ticks := 0; mute := mute; gameOver := false; gage := 0;
              rush := false; hitCountInRush := 0; ticksAtHit := 0;
              enemies := []; objects := []; effects := []; score := 0 |} in
  r <- populate "tree" 99 r ;;
  r <- populate "weed" 99 r ;;
  populate "cloud" 20 r.

(** The runners a game can hold: a new one, and what [update] makes of it. *)
Inductive reachable : GameRunner -> Prop :=
| reachable_new mute w r w' :
    newGameRunner mute w = Some (r, w') -> reachable r
| reachable_update r touches w r' w' :
    reachable r -> update r touches w = Some (r', w') -> reachable r'.

(** The runners reached with at most [n] calls of [update]. *)
Inductive reachableIn : nat -> GameRunner -> Prop :=
| reachableIn_new mute w r w' n :
    newGameRunner mute w = Some (r, w') -> reachableIn n r
| reachableIn_update n r touches w r' w' :
    reachableIn n r -> update r touches w = Some (r', w') ->
    reachableIn (S n) r'.

(** ** The draw pass

    [GameRunner.draw] (lines 471-497), as the sequence of draw calls it
    issues. *)
Inductive DrawCall : Type :=
| DrawBackground
| DrawObject (o : BackgroundObject)
| DrawRhino
| DrawGage
| DrawEnemy (e : Enemy)
| DrawEffect (ef : Effect).

Definition behindRhino (o : BackgroundObject) : bool :=
  (rhinoZ <? Vector3D.Z (o_pos o))%float.

Definition beforeRhino (o : BackgroundObject) : bool :=
  (Vector3D.Z (o_pos o) <=? rhinoZ)%float.

Definition draw (r : GameRunner) : list DrawCall :=
  [DrawBackground]
  ++ map DrawObject (filter behindRhino (objects r))
  ++ [DrawRhino; DrawGage]
  ++ map DrawEnemy (enemies r)
  ++ map DrawObject (filter beforeRhino (objects r))
  ++ map DrawEffect (effects r).

(** The background objects of a sequence of draw calls, in drawing order. *)
Fixpoint drawnObjects (calls : list DrawCall) : list BackgroundObject :=
  match calls with
  | [] => []
  | DrawObject o :: calls' => o :: drawnObjects calls'
  | _ :: calls' => drawnObjects calls'
  end.

End Tick.

(** ** The turns of an enemy *)

Section Life.

Context {E : Env}.

(** One turn of the collision loop for one enemy: the enemy and the runner
    as the turn finds them, and as it leaves them. *)
Record Turn : Type := {
  before : Enemy;
  runnerBefore : GameRunner;
  after : Enemy;
  runnerAfter : GameRunner
}.

Definition isTurn (t : Turn) : Prop :=
  exists w w',
    collideEnemy (before t) (runnerBefore t) w =
      Some ((after t, runnerAfter t), w').

(** The turn is a scoring event: it changed the hit count or the score. *)
Definition scores (t : Turn) : Prop :=
  hitCountInRush (runnerAfter t) <> hitCountInRush (runnerBefore t) \/
  score (runnerAfter t) <> score (runnerBefore t).

(** The turn ended the game. *)
Definition kills (t : Turn) : Prop :=
  gameOver (runnerBefore t) = false /\ gameOver (runnerAfter t) = true.

(** The successive turns of one enemy, one per tick.  A tick whose loop
    leaves the runner over is the last one: [update] does nothing from then
    on. *)
Inductive lifetime : list Turn -> Prop :=
| lifetime_nil : lifetime []
| lifetime_last t : isTurn t -> lifetime [t]
| lifetime_next t t' ts :
    isTurn t -> after t = before t' -> gameOver (runnerAfter t) = false ->
    lifetime (t' :: ts) -> lifetime (t :: t' :: ts).

End Life.

(** [subsequence l1 l2]: [l1] is [l2] without some of its elements, the
    others in the same order. *)
Inductive subsequence {A : Type} : list A -> list A -> Prop :=
| subsequence_nil : subsequence [] []
| subsequence_keep x l1 l2 :
    subsequence l1 l2 -> subsequence (x :: l1) (x :: l2)
| subsequence_drop x l1 l2 :
    subsequence l1 l2 -> subsequence l1 (x :: l2).

(** ** The vocabulary of the theorems

    The relations between the runner before and after each block of
    [update], the invariants, and the measures the theorems are stated
    with. *)

(** A float that is not NaN: the only float unequal to itself. *)
Definition isNumber (x : float) : Prop := (x =? x)%float = true.

(** Neither NaN nor an infinity. *)
Definition finiteSF (x : spec_float) : Prop :=
  match x with
  | S754_zero _ | S754_finite _ _ _ => True
  | _ => False
  end.

Definition isFinite (x : float) : Prop := finiteSF (Prim2SF x).

Section Specifications.

Context {E : Env}.

(** [post m Q]: whenever [m] returns, its result satisfies [Q]. *)
Definition post {A} (m : M A) (Q : A -> Prop) : Prop :=
  forall w a w', m w = Some (a, w') -> Q a.

(** [total m]: [m] returns, whatever the world (no panic). *)
Definition total {A} (m : M A) : Prop :=
  forall w, exists a w', m w = Some (a, w').

(** The scalar fields of the runner. *)
Definition ctl (r : GameRunner) :=
  (ticks r, mute r, gameOver r, gage r, rush r, hitCountInRush r,
   ticksAtHit r, score r).

(** The gauge after a charging tick (lines 226-236). *)
Definition charged (touches : list Touch) (g : Z) : Z :=
  if AnyTouchesJustTouched touches || ((0 <? g) && AnyTouchesActive touches)
  then (if gageMax <? GoInt.add g 1 then gageMax else GoInt.add g 1)
  else g.

(** Lines 225-280 on the gauge, the rush flag and the hit count. *)
Definition gageRule (touches : list Touch) (r r' : GameRunner) : Prop :=
  if rush r then
    if GoInt.sub (gage r) 1 <=? 0
    then gage r' = 0 /\ rush r' = false /\ hitCountInRush r' = 0
    else gage r' = GoInt.sub (gage r) 1 /\ rush r' = true /\
         hitCountInRush r' = hitCountInRush r
  else
    gage r' = charged touches (gage r) /\
    rush r' = (0 <? gage r') && AllTouchesJustReleased touches /\
    hitCountInRush r' = hitCountInRush r.

(** The relation between the runner before and after lines 225-280. *)
Definition gageStep (touches : list Touch) (r r' : GameRunner) : Prop :=
  ticks r' = ticks r /\ mute r' = mute r /\ gameOver r' = gameOver r /\
  ticksAtHit r' = ticksAtHit r /\ score r' = score r /\
  enemies r' = enemies r /\ objects r' = objects r /\
  gageRule touches r r'.

(** The enemy that lines 283-288 create. *)
Definition newEnemy : Enemy :=
  let pos := Vector2D.New (screenWidth + 50)%float rhinoY in
  {| e_ticks := 0; pos := pos; prevPos := pos; hitV := None; hit := false |}.

(** Lines 223-305 leave the collision loop the gauge of [gageRule], the
    enemies of the tick before and at most one new one. *)
Definition tickStart (touches : list Touch) (r r' : GameRunner) : Prop :=
  ticks r' = GoInt.addU (ticks r) 1 /\ mute r' = mute r /\
  gameOver r' = gameOver r /\ ticksAtHit r' = ticksAtHit r /\
  score r' = score r /\ gageRule touches r r' /\
  (enemies r' = enemies r \/ enemies r' = enemies r ++ [newEnemy]).

(** The guard of line 310: a not-yet-hit enemy whose sweep meets the player. *)
Definition hits (e : Enemy) : bool := negb (hit e) && collides e.

(** An enemy marked hit has its impulse velocity. *)
Definition wfEnemy (e : Enemy) : Prop := hit e = true -> hitV e <> None.

(** The hit count and the score after the enemies [es] were tested during a
    rush, starting from the hit count [hc] and the score [sc]. *)
Fixpoint tally (es : list Enemy) (hc sc : Z) : Z * Z :=
  match es with
  | [] => (hc, sc)
  | e :: es' =>
      if hits e then
        let hc' := GoInt.add hc 1 in
        tally es' hc' (GoInt.add sc (GoInt.mul 10 hc'))
      else tally es' hc sc
  end.

(** One turn of the loop, for the enemy [e] that becomes [e']. *)
Definition collisionRule (e : Enemy) (r : GameRunner)
  (e' : Enemy) (r' : GameRunner) : Prop :=
  ticks r' = ticks r /\ mute r' = mute r /\ gage r' = gage r /\
  rush r' = rush r /\ enemies r' = enemies r /\ objects r' = objects r /\
  hit e' = hit e || (hits e && rush r) /\
  wfEnemy e' /\
  gameOver r' = gameOver r || (hits e && negb (rush r)) /\
  if hits e && rush r then
    hitCountInRush r' = GoInt.add (hitCountInRush r) 1 /\
    score r' = GoInt.add (score r) (GoInt.mul 10 (GoInt.add (hitCountInRush r) 1)) /\
    ticksAtHit r' = ticks r
  else
    hitCountInRush r' = hitCountInRush r /\ score r' = score r /\
    ticksAtHit r' = ticksAtHit r /\ effects r' = effects r.

(** The whole loop, from the enemies [es] to the enemies [es']. *)
Definition loopRule (es : list Enemy) (r : GameRunner)
  (es' : list Enemy) (r' : GameRunner) : Prop :=
  ticks r' = ticks r /\ mute r' = mute r /\ gage r' = gage r /\
  rush r' = rush r /\ objects r' = objects r /\
  Forall2 (fun e e' => hit e' = hit e || (hits e && rush r)) es es' /\
  Forall wfEnemy es' /\
  gameOver r' = gameOver r || (existsb hits es && negb (rush r)) /\
  (hitCountInRush r', score r') =
    if rush r then tally es (hitCountInRush r) (score r)
    else (hitCountInRush r, score r).

Definition tickEnd (r r' : GameRunner) : Prop :=
  ctl r' = ctl r /\
  enemies r' = pruneEnemies (enemies r) /\
  objects r' =
    sortSlice fartherThan
      (pruneObjects (map (BackgroundObject_update (rush r)) (objects r))).

(** What a tick makes of a runner that is not over. *)
Definition tickRule (touches : list Touch) (r r' : GameRunner) : Prop :=
  exists r1 r2,
    tickStart touches r r1 /\
    loopRule (enemies r1) r1 (enemies r2) r2 /\
    tickEnd r2 r'.

(** The invariant of the gauge: within bounds, positive during a rush; a
    rushing runner is not over; hit enemies have their impulse velocity. *)
Definition Inv (r : GameRunner) : Prop :=
  0 <= gage r <= gageMax /\
  (rush r = true -> 0 < gage r /\ gameOver r = false) /\
  Forall wfEnemy (enemies r).

(** The enemies not yet hit, and those the loop finds on the player. *)
Definition unhit (es : list Enemy) : Z :=
  Z.of_nat (List.length (filter (fun e => negb (hit e)) es)).

Definition struck (es : list Enemy) : nat := List.length (filter hits es).

(** What [h] successive hits add to the score when the hit count of the rush
    is [hc] before the first of them: 10 times the count as each hit leaves
    it. *)
Fixpoint gains (hc : Z) (h : nat) : Z :=
  match h with
  | O => 0
  | S h' => 10 * (hc + 1) + gains (hc + 1) h'
  end.

(** The invariant of the score, for a runner reached in at most [n] ticks:
    the tick counter counts the ticks, and the hit count and the score are
    bounded by what that many ticks can have brought in. *)
Definition scoreInv (n : nat) (r : GameRunner) : Prop :=
  0 <= ticks r <= Z.of_nat n /\
  0 <= hitCountInRush r /\
  hitCountInRush r + unhit (enemies r) <= ticks r /\
  0 <= score r /\
  score r + 10 * ticks r * unhit (enemies r) <= 10 * ticks r * ticks r.

(** The ticks within which neither the score nor a counter can overflow. *)
Definition tickBound : Z := 900000000.

(** The enemies the loop of this tick strikes while the runner rushes. *)
Definition struckNow (r1 : GameRunner) : nat :=
  if rush r1 then struck (enemies r1) else O.

Definition depth (o : BackgroundObject) : float := Vector3D.Z (o_pos o).

(** No object of the list has NaN for its depth. *)
Definition depthsAreNumbers (os : list BackgroundObject) : Prop :=
  Forall (fun o => isNumber (depth o)) os.

(** Descending world-Z: every object is at least as deep as each object
    after it. *)
Definition descendingZ (os : list BackgroundObject) : Prop :=
  StronglySorted (fun a b => (depth b <=? depth a)%float = true) os.

(** What Go documents of [rand.Float64]: a float of the interval [0, 1). *)
Definition unitRandom : Prop :=
  forall g,
    (0 <=? fst (rand_Float64 g))%float = true /\
    (fst (rand_Float64 g) <? 1)%float = true.

(** What the spec says of the inverse projection: it recovers the
    coordinates that are not given, so that a depth that is given, and is a
    number, comes back as a number. *)
Definition keepsDepth : Prop :=
  forall s x y z cy sz sw sh,
    isNumber z ->
    isNumber
      (Vector3D.Z
         (ConvertCoordinateScreenToWorld s (Vector3D.New x y z) cy sz sw sh)).

End Specifications.

(** ** A concrete environment

    The theorems below hold for every [Env].  To run the loop on concrete
    inputs the collaborators need bodies; this module gives each of them one,
    following the spec's description of it. *)

Module Sample.

(** A scripted random source: the integers and the floats it will hand out,
    in order; [1] and [0.5] once a script is used up.  As Go's source does,
    it hands out non-negative integers and floats of the interval [0, 1). *)
Definition Rand : Type := list Z * list float.

Definition rand_Int (g : Rand) : Z * Rand :=
  match fst g with
  | [] => (1, g)
  | n :: ns => (Z.abs n, (ns, snd g))
  end.

Definition rand_Float64 (g : Rand) : float * Rand :=
  match snd g with
  | [] => (0.5%float, g)
  | x :: xs =>
      (if (0 <=? x)%float && (x <? 1)%float then x else 0.5%float,
       (fst g, xs))
  end.

(** Modelled from the spec: a touch of package touchutil (part of the
    repository, not among its sources).  The spec gives the input as a
    per-tick snapshot of active, just-touched and just-released pointer
    events; a touch is in one of these three phases. *)
Inductive Touch : Set := JustTouched | Held | JustReleased.

Definition isJustTouched (t : Touch) : bool :=
  match t with JustTouched => true | _ => false end.
Definition isJustReleased (t : Touch) : bool :=
  match t with JustReleased => true | _ => false end.

Definition AnyTouchesJustTouched (ts : list Touch) : bool :=
  existsb isJustTouched ts.
Definition AnyTouchesActive (ts : list Touch) : bool :=
  existsb (fun t => negb (isJustReleased t)) ts.
Definition AllTouchesJustReleased (ts : list Touch) : bool :=
  match ts with [] => false | _ => forallb isJustReleased ts end.

(** Modelled from the spec: [CapsulesCollide] of package mathutil.  Each
    capsule is a point swept along its velocity over the tick, with a radius;
    the capsules collide when the smallest distance between the two moving
    points over the tick is at most the sum of the radii. *)
Definition CapsulesCollide
  (centerA velocityA : Vector2D.t) (radiusA : float)
  (startB velocityB : Vector2D.t) (radiusB : float) : bool :=
  let d := Vector2D.Sub startB centerA in
  let v := Vector2D.Sub velocityB velocityA in
  let vv := (Vector2D.X v * Vector2D.X v + Vector2D.Y v * Vector2D.Y v)%float in
  let dv := (Vector2D.X d * Vector2D.X v + Vector2D.Y d * Vector2D.Y v)%float in
  let t :=
    if (vv <=? 0)%float then 0%float
    else
      let t := (- dv / vv)%float in
      if (t <? 0)%float then 0%float
      else if (1 <? t)%float then 1%float else t in
  let cx := (Vector2D.X d + t * Vector2D.X v)%float in
  let cy := (Vector2D.Y d + t * Vector2D.Y v)%float in
  let rr := (radiusA + radiusB)%float in
  (cx * cx + cy * cy <=? rr * rr)%float.

(** Modelled from the spec: the projection of package mathutil, a
    perspective divide by the world Z scaled by [screenZ], the vertical
    camera offset [cameraY], and the centre of the screen as the centre of
    projection. *)
Definition ConvertCoordinateWorldToScreen
  (p : Vector3D.t) (cameraY screenZ screenWidth screenHeight : float)
  : Vector2D.t :=
  Vector2D.New
    (screenWidth / 2 + Vector3D.X p * screenZ / Vector3D.Z p)%float
    (screenHeight / 2
     + (Vector3D.Y p - cameraY) * screenZ / Vector3D.Z p)%float.

Definition isNaN (x : float) : bool := negb (x =? x)%float.

(** Modelled from the spec: the inverse projection; the coordinates of the
    hint that are NaN are the ones to recover. *)
Definition ConvertCoordinateScreenToWorld
  (s : Vector2D.t) (hint : Vector3D.t)
  (cameraY screenZ screenWidth screenHeight : float) : Vector3D.t :=
  let z :=
    if isNaN (Vector3D.Z hint) then
      ((Vector3D.Y hint - cameraY) * screenZ
       / (Vector2D.Y s - screenHeight / 2))%float
    else Vector3D.Z hint in
  let x :=
    if isNaN (Vector3D.X hint)
    then ((Vector2D.X s - screenWidth / 2) * z / screenZ)%float
    else Vector3D.X hint in
  let y :=
    if isNaN (Vector3D.Y hint)
    then ((Vector2D.Y s - screenHeight / 2) * z / screenZ + cameraY)%float
    else Vector3D.Y hint in
  Vector3D.New x y z.

(** Modelled from the spec: an effect of package effectutil, of which the
    spec gives the finite lifetime and the [finished] predicate only. *)
Record Effect : Set := { lifetime : Z; age : Z }.

Definition NewSplashEffect
  (x y : float) (ticks : Z) (opts : SplashEffectOptions) (g : Rand)
  : Effect * Rand :=
  ({| lifetime := ticks; age := 0 |}, g).
Definition NewGainEffect
  (x y : float) (ticks : Z) (opts : GainEffectOptions) : Effect :=
  {| lifetime := ticks; age := 0 |}.
Definition Effect_Update (ef : Effect) (g : Rand) : Effect * Rand :=
  ({| lifetime := lifetime ef; age := age ef + 1 |}, g).
Definition Effect_Finished (ef : Effect) : bool := lifetime ef <=? age ef.

Definition env : Env :=
  Build_Env
    Rand rand_Int rand_Float64
    Touch AnyTouchesJustTouched AnyTouchesActive AllTouchesJustReleased
    CapsulesCollide
    ConvertCoordinateWorldToScreen ConvertCoordinateScreenToWorld
    Effect NewSplashEffect NewGainEffect Effect_Update Effect_Finished.

(** Inputs to run the loop on. *)
Definition world (ints : list Z) (floats : list float) : @World env :=
  @Build_World env (ints, floats) [].

Definition runner (gage : Z) (rush over : bool) (hitCount score : Z)
  (enemies : list Enemy) : @GameRunner env :=
  @Build_GameRunner env 200 false over gage rush hitCount 0 enemies [] [] score.

Definition result {A} (o : option (A * @World env)) (default : A) : A :=
  match o with
  | Some (a, _) => a
  | None => default
  end.

(** The runner of a new game, and the same runner one tick later. *)
Definition fresh : @GameRunner env :=
  result (newGameRunner (E := env) false (world [] []))
         (runner 0 false false 0 0 []).

Definition touched : @GameRunner env :=
  result (update (E := env) fresh [JustTouched] (world [] []))
         (runner 0 false false 0 0 []).

(** A new runner charged for three ticks and released: a rush begins. *)
Definition rushing : @GameRunner env :=
  result (run (E := env)
            [[JustTouched]; [Held]; [Held]; [JustReleased]]
            fresh (world [] []))
         (runner 0 false false 0 0 []).

(** A whole game: the touch is held for 121 ticks and released on tick 122,
    which starts a rush; the random source lets one enemy in, on tick 121,
    and hands out 0.6875 for every float.  The enemy reaches the player on
    tick 189, during the rush. *)
Definition script (n : nat) : list (list Touch) :=
  firstn n ([JustTouched] :: repeat [Held] 120
              ++ [JustReleased] :: repeat [] 200).

Definition steady : @World env :=
  world (repeat 1 240 ++ [0]) (repeat 0.6875%float 800).

Definition play (n : nat) : option (@GameRunner env * @World env) :=
  bind (newGameRunner (E := env) false) (run (E := env) (script n)) steady.

(** The runner and the world after [n] ticks of that game. *)
Definition runnerAt (n : nat) : @GameRunner env :=
  result (play n) (runner 0 false false 0 0 []).

Definition worldAt (n : nat) : @World env :=
  match play n with
  | Some (_, w) => w
  | None => steady
  end.

Definition worldOf (o : option (@GameRunner env * @World env)) : @World env :=
  match o with
  | Some (_, w) => w
  | None => steady
  end.

(** That game just before the enemy is struck (tick 189), and, 54 and 55
    ticks without a touch later, just before the ticks on which it comes
    down to the bottom (ticks 243 and 244). *)
Definition runner188 : @GameRunner env := Eval vm_compute in runnerAt 188.
Definition world188 : @World env := Eval vm_compute in worldAt 188.
Definition runner242 : @GameRunner env :=
  Eval vm_compute in
    result (run (E := env) (repeat [] 54) runner188 world188) runner188.
Definition world242 : @World env :=
  Eval vm_compute in
    worldOf (run (E := env) (repeat [] 54) runner188 world188).
Definition runner243 : @GameRunner env :=
  Eval vm_compute in
    result (update (E := env) runner242 [] world242) runner242.
Definition world243 : @World env :=
  Eval vm_compute in worldOf (update (E := env) runner242 [] world242).

(** The turn of the collision loop that takes the enemy [e] and the runner
    [r]. *)
Definition turnOf (e : Enemy) (r : @GameRunner env) : @Turn env :=
  let er := result (collideEnemy (E := env) e r (world [] [])) (e, r) in
  @Build_Turn env e r (fst er) (snd er).

(** An enemy on the ground line, not hit, that moved from [x0] to [x]. *)
Definition enemyAt (x x0 : float) : Enemy :=
  {| e_ticks := 0; pos := Vector2D.New x 370; prevPos := Vector2D.New x0 370;
     hitV := None; hit := false |}.

End Sample.

(** * The sprites of the draw pass *)

(** Conversions [float64(n)] of an [int] or [uint64] that fits 63 bits. *)
Module GoConv.

Definition toFloat (n : Z) : float :=
  if n <? 0 then (- PrimFloat.of_uint63 (Uint63Axioms.of_Z (- n)))%float
  else PrimFloat.of_uint63 (Uint63Axioms.of_Z n).

End GoConv.

(** The images of lines 77-84; [rhinoImg] and [enemyImg] are slices, indexed
    by the frame. *)
Inductive Image : Set :=
| rhinoImg (index : Z)
| rhinoHitImg
| enemyImg (index : Z)
| treeImg
| weedImg
| cloudImgL
| backgroundImg.

(** The calls on [opts.GeoM], in the order they are made. *)
Inductive GeoM : Set :=
| Translate (tx ty : float)
| Scale (sx sy : float)
| Rotate (theta : float).

(** One [dst.DrawImage(img, opts)]: the image, the geometry and, when
    [opts.ColorScale.ScaleAlpha] was called, the alpha. *)
Record ImageDraw : Set := {
  image : Image;
  geoM : list GeoM;
  scaleAlpha : option float
}.

Section Sprites.

Context {E : Env}.

(** [img.Bounds().Size()] of package ebiten: the width and the height of an
    image, both of type [int]. *)
Variable imageSize : Image -> Z * Z.

(** [Enemy.draw] (lines 114-126) *)
Definition Enemy_frame (e : Enemy) : Z :=
  GoInt.wrap (Z.modulo (Z.div (e_ticks e) 10) 2).

Definition Enemy_draw (e : Enemy) : ImageDraw :=
  let index := Enemy_frame e in
  let img := enemyImg index in
  let size := imageSize img in
  {| image := img;
     geoM :=
       [Translate (- GoConv.toFloat (fst size) / 2)%float
                  (- GoConv.toFloat (snd size))%float;
        Scale 0x1.6666666666666p-1 0x1.6666666666666p-1]
       ++ (if hit e
           then [Rotate (0x1.acee9f37bebd6p-3
                         * GoConv.toFloat (Z.modulo (e_ticks e) 30))%float]
           else [])
       ++ [Translate (Vector2D.X (pos e))
                     (Vector2D.Y (pos e)
                      - GoConv.toFloat (GoInt.mul index 5))%float];
     scaleAlpha := None |}.

(** [BackgroundObject.draw] (lines 145-171).  No case of the switch sets
    [img] for another [typ]: [img.Bounds()] then dereferences nil and the
    call panics. *)
Definition BackgroundObject_draw (o : BackgroundObject) : option ImageDraw :=
  let pos :=
    ConvertCoordinateWorldToScreen
      (o_pos o) cameraY screenZ screenWidth screenHeight in
  let choice :=
    if (typ o =? "tree")%string then Some (treeImg, 1%float)
    else if (typ o =? "weed")%string then Some (weedImg, 0x1.999999999999ap-2%float)
    else if (typ o =? "cloud")%string then Some (cloudImgL, 200%float)
    else None in
  match choice with
  | None => None
  | Some (img, scale) =>
      let size := imageSize img in
      let scale := (scale * (screenZ / Vector3D.Z (o_pos o)))%float in
      Some {| image := img;
              geoM :=
                [Translate (- GoConv.toFloat (fst size) / 2)%float
                           (- GoConv.toFloat (snd size))%float;
                 Scale scale scale;
                 Translate (Vector2D.X pos) (Vector2D.Y pos)];
              scaleAlpha :=
                if (Vector3D.Z (o_pos o) <? rhinoZ)%float
                then Some 0x1.6666666666666p-1%float else None |}
  end.

(** [GameRunner.drawBackground] (lines 405-412): the strip is drawn at
    [x = 0], [size.X], [2 * size.X], ... below [screenWidth].  [fuel] bounds
    the turns of the loop; [None] when it is used up. *)
Definition tileWidth : Z := fst (imageSize backgroundImg).

Fixpoint drawBackgroundFrom (fuel : nat) (x : Z) : option (list ImageDraw) :=
  if x <? 640 then
    match fuel with
    | O => None
    | S fuel' =>
        match drawBackgroundFrom fuel' (GoInt.add x tileWidth) with
        | Some tiles =>
            Some ({| image := backgroundImg;
                     geoM := [Translate (GoConv.toFloat x) 0];
                     scaleAlpha := None |} :: tiles)
        | None => None
        end
    end
  else Some [].

Definition drawBackground (fuel : nat) : option (list ImageDraw) :=
  drawBackgroundFrom fuel 0.

(** [GameRunner.drawRhino] (lines 414-441) *)
Definition showsHitPose (r : GameRunner) : bool :=
  (0 <? ticksAtHit r) && (GoInt.wrapU (ticks r - ticksAtHit r) <? 10).

Definition rhinoPeriod (r : GameRunner) : Z :=
  let p := 10 in
  if rush r then Z.quot p 2 else p.

Definition rhinoPeriodicOffset (r : GameRunner) : Z :=
  GoInt.wrap (Z.modulo (Z.div (ticks r) (rhinoPeriod r)) 2).

Definition rhinoFrame (r : GameRunner) : Z :=
  let periodicOffset := rhinoPeriodicOffset r in
  let stateOffset := 0 in
  let stateOffset :=
    if 0 <? gage r then GoInt.add stateOffset 2 else stateOffset in
  GoInt.add periodicOffset stateOffset.

Definition drawRhino (r : GameRunner) : ImageDraw :=
  if showsHitPose r then
    let size := imageSize rhinoHitImg in
    let x := (rhinoX - GoConv.toFloat (fst size) / 2)%float in
    let y := (rhinoY - GoConv.toFloat (snd size))%float in
    {| image := rhinoHitImg; geoM := [Translate x y]; scaleAlpha := None |}
  else
    let periodicOffset := rhinoPeriodicOffset r in
    let img := rhinoImg (rhinoFrame r) in
    let size := imageSize img in
    let x := (rhinoX - GoConv.toFloat (fst size) / 2)%float in
    let y := (rhinoY - GoConv.toFloat (snd size)
              - GoConv.toFloat (GoInt.mul periodicOffset 5))%float in
    {| image := img; geoM := [Translate x y]; scaleAlpha := None |}.

End Sprites.

(** * The game around the runner *)

(** What [Game] needs of the imported packages beyond the runner's [Env].
    A touch simulation is built by [Wait], [Touch] and [Release] and read
    one tick at a time by [Next], which moves it on. *)
Class GameEnv : Type := {
  runnerEnv :: Env;
  (* math/rand/v2: [rand.New(rand.NewPCG(seed1, seed2))] *)
  NewPCG : Z -> Z -> Rand;
  (* touchutil: [UpdateTouches] reads the pointing devices *)
  Pointers : Type;
  UpdateTouches : Pointers -> list Touch -> list Touch;
  TouchSimulation : Type;
  NewSimulation : TouchSimulation;
  Simulation_Wait : TouchSimulation -> Z -> TouchSimulation;
  Simulation_Touch : TouchSimulation -> TouchSimulation;
  Simulation_Release : TouchSimulation -> TouchSimulation;
  Simulation_Next : TouchSimulation -> list Touch * TouchSimulation
}.

Definition gameName : string := "rhinoceros".

(** [GameMode] (lines 499-505) *)
Inductive GameMode : Set := GameModeTitle | GameModePlaying | GameModeGameOver.

(** The payloads of package loggingutil that main.go sends. *)
Inductive Payload : Set :=
| StartGamePayload
| GameOverPayload (Score : Z)
| InitializePayload (RandomSeed : Z).

Section GameState.

Context {G : GameEnv}.

(** The calls of package loggingutil. *)
Inductive LogCall : Type :=
| SendTouchLog (gameName playerID sessionID playID : string)
    (ticks : Z) (touches : list Touch)
| SendLog (gameName playerID sessionID playID : string) (payload : Payload).

(** What one [Update] reads from outside the program: the pointing devices,
    [uuid.NewRandom()] as the string of the identifier ([None] for an
    error) and [time.Now().Unix()]. *)
Record Inputs : Type := {
  pointers : Pointers;
  uuid : option string;
  now : Z
}.

(** [Game] (lines 507-519).  [random] is the source of the [World];
    [touchSimulation] and [runner] are pointers, nil in the literal of line
    692 until [initialize] sets them. *)
Record Game : Type := {
  playerID : string;
  sessionID : string;
  playID : string;
  mode : GameMode;
  modeTicks : Z;
  touches : list Touch;
  touchSimulation : option TouchSimulation;
  runner : option GameRunner;
  highScore : Z;
  debug : bool
}.

Definition set_playID v g :=
  {| playerID := playerID g; sessionID := sessionID g; playID := v;
     mode := mode g; modeTicks := modeTicks g; touches := touches g;
     touchSimulation := touchSimulation g; runner := runner g;
     highScore := highScore g; debug := debug g |}.
Definition set_mode v g :=
  {| playerID := playerID g; sessionID := sessionID g; playID := playID g;
     mode := v; modeTicks := modeTicks g; touches := touches g;
     touchSimulation := touchSimulation g; runner := runner g;
     highScore := highScore g; debug := debug g |}.
Definition set_modeTicks v g :=
  {| playerID := playerID g; sessionID := sessionID g; playID := playID g;
     mode := mode g; modeTicks := v; touches := touches g;
     touchSimulation := touchSimulation g; runner := runner g;
     highScore := highScore g; debug := debug g |}.
Definition set_touches v g :=
  {| playerID := playerID g; sessionID := sessionID g; playID := playID g;
     mode := mode g; modeTicks := modeTicks g; touches := v;
     touchSimulation := touchSimulation g; runner := runner g;
     highScore := highScore g; debug := debug g |}.
Definition set_touchSimulation v g :=
  {| playerID := playerID g; sessionID := sessionID g; playID := playID g;
     mode := mode g; modeTicks := modeTicks g; touches := touches g;
     touchSimulation := v; runner := runner g;
     highScore := highScore g; debug := debug g |}.
Definition set_runner v g :=
  {| playerID := playerID g; sessionID := sessionID g; playID := playID g;
     mode := mode g; modeTicks := modeTicks g; touches := touches g;
     touchSimulation := touchSimulation g; runner := v;
     highScore := highScore g; debug := debug g |}.
Definition set_highScore v g :=
  {| playerID := playerID g; sessionID := sessionID g; playID := playID g;
     mode := mode g; modeTicks := modeTicks g; touches := touches g;
     touchSimulation := touchSimulation g; runner := runner g;
     highScore := v; debug := debug g |}.

(** ** The monad of the game

    The state outside the game: the runner's [World] and the log of what
    was sent to the logging server. *)
Record Outside : Type := {
  world : World;
  sent : list LogCall
}.

Definition GM (A : Type) : Type := Outside -> option (A * Outside).

Definition gret {A} (a : A) : GM A := fun o => Some (a, o).
Definition gbind {A B} (m : GM A) (f : A -> GM B) : GM B :=
  fun o => match m o with
           | Some (a, o') => f a o'
           | None => None
           end.
Definition gpanic {A} : GM A := fun _ => None.

(** A computation of the runner, run on the world of the game. *)
Definition lift {A} (m : M A) : GM A :=
  fun o => match m (world o) with
           | Some (a, w) => Some (a, {| world := w; sent := sent o |})
           | None => None
           end.

Definition send (c : LogCall) : GM unit :=
  fun o => Some (tt, {| world := world o; sent := sent o ++ [c] |}).

(** [g.random = ...] *)
Definition setRandom (s : Rand) : GM unit :=
  fun o => Some (tt, {| world := {| random := s; played := played (world o) |};
                        sent := sent o |}).

End GameState.

Notation "x <~ m ;; k" := (gbind m (fun x => k))
  (at level 61, m at next level, right associativity).
Notation "m ;;~ k" := (gbind m (fun _ => k))
  (at level 61, right associativity).

Section Game.

Context {G : GameEnv}.

(** [Game.setNextMode] (lines 616-619) *)
Definition setNextMode (mode : GameMode) (g : Game) : Game :=
  set_modeTicks 0 (set_mode mode g).

(** One turn of the loop of [generateTouchSimulation]: a wait, a touch, a
    wait and the release. *)
Definition simulationRound (s : TouchSimulation) (a b : Z) : TouchSimulation :=
  Simulation_Release
    (Simulation_Wait (Simulation_Touch (Simulation_Wait s a)) b).

(** [Game.generateTouchSimulation] (lines 621-630).  The two draws of a
    turn are made in the order of the source; the calls of the builder do
    not draw. *)
Fixpoint simulationRounds (n : nat) (s : TouchSimulation) : M TouchSimulation :=
  match n with
  | O => ret s
  | S n' =>
      a <- randInt ;;
      b <- randInt ;;
      simulationRounds n'
        (simulationRound s (GoInt.add 30 (Z.rem a 60))
                           (GoInt.add 30 (Z.rem b 30)))
  end.

Definition generateTouchSimulation : M TouchSimulation :=
  simulationRounds 3 NewSimulation.

(** [Game.initialize] (lines 656-673) *)
Definition initialize (i : Inputs) (g : Game) : GM Game :=
  let g :=
    match uuid i with
    | Some playIDObj => set_playID playIDObj g
    | None => set_playID "" g
    end in
  let seed := now i in
  send (SendLog gameName (playerID g) (sessionID g) (playID g)
          (InitializePayload seed)) ;;~
  setRandom (NewPCG (GoInt.wrapU seed) (GoInt.wrapU seed)) ;;~
  let g := set_touches [] g in
  s <~ lift generateTouchSimulation ;;
  let g := set_touchSimulation (Some s) g in
  r <~ lift (newGameRunner true) ;;
  let g := set_runner (Some r) g in
  gret (setNextMode GameModeTitle g).

(** [Game.Update] (lines 521-567).  A nil [touchSimulation] or [runner] is
    dereferenced by [Next] and by [update]: the call panics. *)
Definition Update (i : Inputs) (g : Game) : GM Game :=
  let g := set_modeTicks (GoInt.addU (modeTicks g) 1) g in
  let g := set_touches (UpdateTouches (pointers i) (touches g)) g in
  send (SendTouchLog gameName (playerID g) (sessionID g) (playID g)
          (modeTicks g) (touches g)) ;;~
  match mode g with
  | GameModeTitle =>
      match touchSimulation g, runner g with
      | Some s, Some r =>
          let (simulated, s) := Simulation_Next s in
          let g := set_touchSimulation (Some s) g in
          r <~ lift (update r simulated) ;;
          let g := set_runner (Some r) g in
          g <~ (if gameOver r then
                  r <~ lift (newGameRunner true) ;;
                  let g := set_runner (Some r) g in
                  s <~ lift generateTouchSimulation ;;
                  gret (set_touchSimulation (Some s) g)
                else gret g) ;;
          if AnyTouchesJustTouched (touches g) then
            send (SendLog gameName (playerID g) (sessionID g) (playID g)
                    StartGamePayload) ;;~
            r <~ lift (newGameRunner false) ;;
            let g := set_runner (Some r) g in
            let g := setNextMode GameModePlaying g in
            lift (play gameStartAudioData 1) ;;~
            gret g
          else gret g
      | _, _ => gpanic
      end
  | GameModePlaying =>
      match runner g with
      | Some r =>
          r <~ lift (update r (touches g)) ;;
          let g := set_runner (Some r) g in
          let g :=
            if highScore g <? score r then set_highScore (score r) g else g in
          if gameOver r then
            send (SendLog gameName (playerID g) (sessionID g) (playID g)
                    (GameOverPayload (score r))) ;;~
            let g := setNextMode GameModeGameOver g in
            lift (play gameOverAudioData 1) ;;~
            gret g
          else gret g
      | None => gpanic
      end
  | GameModeGameOver =>
      if (60 <? modeTicks g) && AnyTouchesJustTouched (touches g)
      then initialize i g
      else gret g
  end.

(** Consecutive calls of [Update], as [ebiten.RunGame] makes them, one
    reading of the outside per call. *)
Fixpoint Updates (inputs : list Inputs) (g : Game) : GM Game :=
  match inputs with
  | [] => gret g
  | i :: inputs' => g <~ Update i g ;; Updates inputs' g
  end.

(** The game of [main] (lines 692-697): the literal, then [initialize]. *)
Definition newGame (playerID sessionID : string) (debug : bool) : Game :=
  {| playerID := playerID; sessionID := sessionID; playID := "";
     mode := GameModeTitle; modeTicks := 0; touches := [];
     touchSimulation := None; runner := None;
     highScore := 0; debug := debug |}.

(** The games [ebiten.RunGame] can hold: the initialized game of [main],
    and what [Update] makes of it. *)
Inductive started : Game -> Prop :=
| started_main playerID sessionID debug i o g o' :
    initialize i (newGame playerID sessionID debug) o = Some (g, o') ->
    started g
| started_Update i g o g' o' :
    started g -> Update i g o = Some (g', o') -> started g'.



End Game.

(** ** The vocabulary of the theorems on the draw pass and on the game *)

(** The angle of a full turn, [2 * math.Pi]. *)
Definition twoPi : float := 0x1.921fb54442d18p+2.

Section Observations.

Context {E : Env}.

(** [silent m]: [m] plays no sound. *)
Definition silent {A} (m : M A) : Prop :=
  forall w a w', m w = Some (a, w') -> played w' = played w.

(** [seeded m]: what [m] returns, and the random source it leaves, depend on
    the random source only. *)
Definition seeded {A} (m : M A) : Prop :=
  forall w1 w2, random w1 = random w2 ->
    match m w1, m w2 with
    | Some (a1, w1'), Some (a2, w2') => a1 = a2 /\ random w1' = random w2'
    | None, None => True
    | _, _ => False
    end.

(** The types for which the switch of [BackgroundObject.draw] has a case. *)
Definition knownType (o : BackgroundObject) : bool :=
  ((typ o =? "tree") || (typ o =? "weed") || (typ o =? "cloud"))%string.

Definition known (r : GameRunner) : Prop :=
  Forall (fun o => knownType o = true) (objects r).

(** An enemy that is not hit is on the ground line, at the player's height,
    and has only moved along it. *)
Definition onGround (e : Enemy) : Prop :=
  hit e = false ->
  Vector2D.Y (pos e) = rhinoY /\ Vector2D.Y (prevPos e) = rhinoY.

End Observations.

Section GameSpecifications.

Context {G : GameEnv}.

(** What the games of [started] keep: the pointers are set, the runner is
    one the loop can reach, the demo of the title screen is muted and not
    over, the game is in mode [GameModeGameOver] exactly when its runner is
    over, and the score of a played runner is within the high score. *)
Definition GameInv (g : Game) : Prop :=
  exists s r,
    touchSimulation g = Some s /\ runner g = Some r /\ reachable r /\
    0 <= highScore g /\ 0 <= modeTicks g < 2 ^ 64 /\
    match mode g with
    | GameModeTitle => mute r = true /\ gameOver r = false
    | GameModePlaying =>
        mute r = false /\ gameOver r = false /\ score r <= highScore g
    | GameModeGameOver =>
        mute r = false /\ gameOver r = true /\ score r <= highScore g
    end.

(** The cycle of the modes. *)
Definition nextMode (m : GameMode) : GameMode :=
  match m with
  | GameModeTitle => GameModePlaying
  | GameModePlaying => GameModeGameOver
  | GameModeGameOver => GameModeTitle
  end.

(** What Go documents of [rand.Int]: a non-negative integer. *)
Definition naturalRandom : Prop := forall s, 0 <= fst (rand_Int s).

(** The call of [SendTouchLog] that begins every [Update]. *)
Definition touchLog (i : Inputs) (g : Game) : LogCall :=
  SendTouchLog gameName (playerID g) (sessionID g) (playID g)
    (GoInt.addU (modeTicks g) 1) (UpdateTouches (pointers i) (touches g)).

(** What one [Update] makes of the game [g] and of the outside [o]. *)
Definition stepRule (i : Inputs) (g : Game) (o : Outside)
  (g' : Game) (o' : Outside) : Prop :=
  let ts := UpdateTouches (pointers i) (touches g) in
  let n := GoInt.addU (modeTicks g) 1 in
  playerID g' = playerID g /\ sessionID g' = sessionID g /\
  debug g' = debug g /\
  match mode g with
  | GameModeTitle =>
      touches g' = ts /\ highScore g' = highScore g /\
      playID g' = playID g /\
      if AnyTouchesJustTouched ts then
        mode g' = GameModePlaying /\ modeTicks g' = 0 /\
        played (world o') =
          played (world o) ++ [(gameStartAudioData, 1%float)] /\
        sent o' =
          sent o ++ [touchLog i g;
                     SendLog gameName (playerID g) (sessionID g) (playID g)
                       StartGamePayload]
      else
        mode g' = GameModeTitle /\ modeTicks g' = n /\
        played (world o') = played (world o) /\
        sent o' = sent o ++ [touchLog i g]
  | GameModePlaying =>
      touches g' = ts /\ playID g' = playID g /\
      touchSimulation g' = touchSimulation g /\
      exists r r' w',
        runner g = Some r /\ update r ts (world o) = Some (r', w') /\
        runner g' = Some r' /\
        highScore g' = Z.max (highScore g) (score r') /\
        if gameOver r' then
          mode g' = GameModeGameOver /\ modeTicks g' = 0 /\
          world o' = {| random := random w';
                        played := played w' ++ [(gameOverAudioData, 1%float)] |} /\
          sent o' =
            sent o ++ [touchLog i g;
                       SendLog gameName (playerID g) (sessionID g) (playID g)
                         (GameOverPayload (score r'))]
        else
          mode g' = GameModePlaying /\ modeTicks g' = n /\
          world o' = w' /\ sent o' = sent o ++ [touchLog i g]
  | GameModeGameOver =>
      highScore g' = highScore g /\
      if (60 <? n) && AnyTouchesJustTouched ts then
        mode g' = GameModeTitle /\ modeTicks g' = 0 /\ touches g' = [] /\
        playID g' = match uuid i with Some u => u | None => ""%string end /\
        played (world o') = played (world o) /\
        sent o' =
          sent o ++ [touchLog i g;
                     SendLog gameName (playerID g) (sessionID g) (playID g')
                       (InitializePayload (now i))]
      else
        mode g' = GameModeGameOver /\ modeTicks g' = n /\ touches g' = ts /\
        playID g' = playID g /\ runner g' = runner g /\
        touchSimulation g' = touchSimulation g /\
        world o' = world o /\ sent o' = sent o ++ [touchLog i g]
  end.

End GameSpecifications.

(** ** A concrete game

    The theorems on the game hold for every [GameEnv].  To run it, this
    module adds to the environment of [Sample] a pointing device, a touch
    simulation, a seeded random source and the sizes of the images. *)

Module SampleGame.

(** The sizes of the regions that lines 77-84 cut out of the sprite sheet. *)
Definition imageSize (img : Image) : Z * Z :=
  match img with
  | rhinoImg _ => (110, 60)
  | rhinoHitImg => (110, 70)
  | enemyImg _ => (120, 70)
  | treeImg => (150, 120)
  | weedImg => (70, 40)
  | cloudImgL => (130, 60)
  | backgroundImg => (60, 480)
  end.

(** The pointing device: pressed or not. *)
Definition Pointers : Type := bool.

(** Modelled from the spec: [UpdateTouches] of package touchutil.  The
    snapshot of a tick follows from the one before and from the device: a
    pointer that comes down is just touched, then active for as long as it
    is down, and just released on the tick it goes up. *)
Definition UpdateTouches (pressed : Pointers) (ts : list Sample.Touch)
  : list Sample.Touch :=
  if pressed then
    if Sample.AnyTouchesActive ts then [Sample.Held] else [Sample.JustTouched]
  else
    if Sample.AnyTouchesActive ts then [Sample.JustReleased] else [].

(** Modelled from the spec: the touch simulation of package touchutil, a
    script of per-tick snapshots of the same shape as the player's input.
    The builder appends to the script, [Next] takes its first snapshot; a
    script that is used up gives no touch. *)
Definition TouchSimulation : Type := list (list Sample.Touch) * bool.

Definition NewSimulation : TouchSimulation := ([], false).

Definition Simulation_Wait (s : TouchSimulation) (n : Z) : TouchSimulation :=
  (fst s ++ repeat (if snd s then [Sample.Held] else []) (Z.to_nat n), snd s).

Definition Simulation_Touch (s : TouchSimulation) : TouchSimulation :=
  (fst s ++ [[Sample.JustTouched]], true).

Definition Simulation_Release (s : TouchSimulation) : TouchSimulation :=
  (fst s ++ [[Sample.JustReleased]], false).

Definition Simulation_Next (s : TouchSimulation)
  : list Sample.Touch * TouchSimulation :=
  match fst s with
  | [] => ([], s)
  | snapshot :: rest => (snapshot, (rest, snd s))
  end.

(** A seeded source of the kind of [Sample]: it hands out the integer 1 for
    its first [seed1] draws, then 0 once (a chance of 1 in 60 that comes
    true), then 1 again; every float is 0.5. *)
Definition NewPCG (seed1 seed2 : Z) : Sample.Rand :=
  (repeat 1 (Z.to_nat seed1) ++ [0], []).

Definition env : GameEnv :=
  @Build_GameEnv Sample.env NewPCG Pointers UpdateTouches
    TouchSimulation NewSimulation Simulation_Wait Simulation_Touch
    Simulation_Release Simulation_Next.

(** The outside before [main], and what an [Update] reads: the device, a
    play identifier, and the clock, at 248 seconds. *)
Definition outside : @Outside env :=
  @Build_Outside env (Sample.world [] []) [].

Definition input (pressed : bool) : @Inputs env :=
  @Build_Inputs env pressed (Some "play"%string) 248.

Definition gameOf (o : option (@Game env * @Outside env)) (d : @Game env)
  : @Game env :=
  match o with
  | Some (g, _) => g
  | None => d
  end.

Definition outsideOf (o : option (@Game env * @Outside env)) : @Outside env :=
  match o with
  | Some (_, o') => o'
  | None => outside
  end.

Definition literal : @Game env := newGame (G := env) "player" "session" false.

(** The game of [main], on the title screen. *)
Definition game0 : @Game env :=
  Eval vm_compute in
    gameOf (initialize (G := env) (input false) literal outside) literal.
Definition outside0 : @Outside env :=
  Eval vm_compute in
    outsideOf (initialize (G := env) (input false) literal outside).

(** That game played: the pointer is pressed on the first [Update], which
    starts the game, and not again.  The one enemy that the random source
    lets in, on tick 121 of the runner, reaches the player on tick 247: the
    248th [Update] ends the game. *)
Definition presses : list (@Inputs env) := input true :: repeat (input false) 247.

Definition over : @Game env :=
  Eval vm_compute in gameOf (Updates (G := env) presses game0 outside0) game0.
Definition outsideOver : @Outside env :=
  Eval vm_compute in outsideOf (Updates (G := env) presses game0 outside0).

(** The first object of a new game. *)
Definition firstObject : BackgroundObject :=
  Eval vm_compute in
    hd {| typ := ""; o_pos := Vector3D.New 0 0 0 |} (objects Sample.fresh).

(** The muted runner of a demo. *)
Definition demo : @GameRunner Sample.env :=
  Sample.result (newGameRunner (E := Sample.env) true (Sample.world [] []))
                Sample.fresh.

End SampleGame.

(** * Machine integers in range *)

Module GoIntFacts.

Lemma wrap_id z : GoInt.in_range z -> GoInt.wrap z = z.
Proof.
  unfold GoInt.in_range, GoInt.min_int, GoInt.max_int, GoInt.wrap. intros H.
  rewrite Z.mod_small by lia. lia.
Qed.

Lemma wrapU_id z : 0 <= z < 2 ^ 64 -> GoInt.wrapU z = z.
Proof. unfold GoInt.wrapU. intros H. now rewrite Z.mod_small. Qed.

End GoIntFacts.

(** * The order of [float64] *)

Module FloatOrder.

Ltac compare_cases :=
  change (Pos.compare_cont Eq) with Pos.compare;
  repeat match goal with
         | |- context [Z.compare ?a ?b] => destruct (Z.compare_spec a b)
         | |- context [Pos.compare ?a ?b] => destruct (Pos.compare_spec a b)
         end;
  simpl; try (intros; reflexivity); try (intros; discriminate); try lia.

Lemma SFleb_trans x y z :
  SFleb x y = true -> SFleb y z = true -> SFleb x z = true.
Proof.
  unfold SFleb, SFcompare.
  destruct x as [sx|sx| |sx mx ex], y as [sy|sy| |sy my ey],
           z as [sz|sz| |sz mz ez];
    try destruct sx; try destruct sy; try destruct sz;
    try (intros; reflexivity); try (intros; discriminate);
    compare_cases.
Qed.

Lemma SFleb_total x y :
  SFeqb x x = true -> SFeqb y y = true ->
  SFltb y x = false -> SFleb x y = true.
Proof.
  unfold SFleb, SFltb, SFeqb, SFcompare.
  destruct x as [sx|sx| |sx mx ex], y as [sy|sy| |sy my ey];
    try destruct sx; try destruct sy;
    try (intros; reflexivity); try (intros; discriminate);
    intros _ _; compare_cases.
Qed.

Lemma SFltb_leb x y : SFltb x y = true -> SFleb x y = true.
Proof.
  unfold SFleb, SFltb. destruct (SFcompare x y) as [[| |]|];
    intros; try reflexivity; discriminate.
Qed.

Lemma SFleb_number x y : SFleb x y = true -> SFeqb x x = true /\ SFeqb y y = true.
Proof.
  unfold SFleb, SFeqb, SFcompare.
  destruct x as [sx|sx| |sx mx ex], y as [sy|sy| |sy my ey];
    try destruct sx; try destruct sy;
    try (intros; split; reflexivity); try (intros; discriminate);
    intros _; split; compare_cases.
Qed.

Lemma SFltb_not_leb x y : SFltb x y = true -> SFleb y x = false.
Proof.
  unfold SFleb, SFltb, SFcompare.
  destruct x as [sx|sx| |sx mx ex], y as [sy|sy| |sy my ey];
    try destruct sx; try destruct sy;
    try (intros; reflexivity); try (intros; discriminate);
    compare_cases.
Qed.

Lemma ltb_not_leb x y : (x <? y)%float = true -> (y <=? x)%float = false.
Proof. rewrite ltb_spec, leb_spec. apply SFltb_not_leb. Qed.

Lemma leb_trans x y z :
  (x <=? y)%float = true -> (y <=? z)%float = true -> (x <=? z)%float = true.
Proof. rewrite !leb_spec. apply SFleb_trans. Qed.

Lemma leb_total x y :
  isNumber x -> isNumber y ->
  (y <? x)%float = false -> (x <=? y)%float = true.
Proof. unfold isNumber. rewrite !eqb_spec, ltb_spec, leb_spec. apply SFleb_total. Qed.

Lemma ltb_leb x y : (x <? y)%float = true -> (x <=? y)%float = true.
Proof. rewrite ltb_spec, leb_spec. apply SFltb_leb. Qed.

Lemma leb_number x y :
  (x <=? y)%float = true -> isNumber x /\ isNumber y.
Proof. unfold isNumber. rewrite !eqb_spec, leb_spec. apply SFleb_number. Qed.

End FloatOrder.

(** * Arithmetic of [float64] that cannot give NaN *)

Module FloatArith.

Lemma SFeqb_refl x : x <> S754_nan -> SFeqb x x = true.
Proof.
  unfold SFeqb, SFcompare. destruct x as [s|s| |s m e]; intros H;
    try destruct s; try reflexivity; try congruence;
    rewrite Z.compare_refl, Pos.compare_cont_refl; reflexivity.
Qed.

Lemma isNumber_spec x : isNumber x <-> Prim2SF x <> S754_nan.
Proof.
  unfold isNumber. rewrite eqb_spec. split.
  - intros H Hn. rewrite Hn in H. discriminate.
  - apply SFeqb_refl.
Qed.

Lemma shr_1_nonneg mrs : 0 <= shr_m mrs -> 0 <= shr_m (shr_1 mrs).
Proof.
  destruct mrs as [m r s]. simpl.
  destruct m as [|p|p]; [| |lia]; intros _.
  - simpl. lia.
  - destruct p; simpl; lia.
Qed.

Lemma iter_shr_1_nonneg p : forall mrs,
  0 <= shr_m mrs -> 0 <= shr_m (iter_pos shr_1 p mrs).
Proof.
  induction p as [p IH|p IH|]; intros mrs H; simpl.
  - apply IH, IH, shr_1_nonneg, H.
  - apply IH, IH, H.
  - apply shr_1_nonneg, H.
Qed.

Lemma shr_fexp_nonneg prec emax m e l :
  0 <= m -> 0 <= shr_m (fst (shr_fexp prec emax m e l)).
Proof.
  intros H. unfold shr_fexp, shr.
  assert (H0 : 0 <= shr_m (shr_record_of_loc m l))
    by (destruct l as [|[| |]]; exact H).
  destruct (_ - e) as [|p|p]; simpl; try exact H0.
  now apply iter_shr_1_nonneg.
Qed.

Lemma round_nearest_even_nonneg mx lx :
  0 <= mx -> 0 <= round_nearest_even mx lx.
Proof.
  intros H. destruct lx as [|[| |]]; simpl; try lia.
  destruct (Z.even mx); lia.
Qed.

Lemma binary_round_aux_number prec emax sx mx ex lx :
  0 <= mx -> binary_round_aux prec emax sx mx ex lx <> S754_nan.
Proof.
  intros H. unfold binary_round_aux.
  pose proof (shr_fexp_nonneg prec emax mx ex lx H) as H1.
  destruct (shr_fexp prec emax mx ex lx) as [mrs' e']. simpl in H1.
  pose proof (shr_fexp_nonneg prec emax _ e' loc_Exact
                (round_nearest_even_nonneg _ (loc_of_shr_record mrs') H1)) as H2.
  destruct (shr_fexp prec emax _ e' loc_Exact) as [mrs'' e'']. simpl in H2.
  destruct (shr_m mrs'') as [|p|p]; [discriminate| |lia].
  destruct (_ <=? _); discriminate.
Qed.

Lemma binary_normalize_number prec emax m e szero :
  binary_normalize prec emax m e szero <> S754_nan.
Proof.
  unfold binary_normalize, binary_round.
  destruct m as [|p|p]; [discriminate| |];
    destruct (shl_align _ _ _) as [mz ez];
    apply binary_round_aux_number; lia.
Qed.

Lemma SFmul_number prec emax x y :
  finiteSF x -> finiteSF y -> SFmul prec emax x y <> S754_nan.
Proof.
  destruct x as [sx|sx| |sx mx ex], y as [sy|sy| |sy my ey];
    simpl; try tauto; intros _ _; try discriminate.
  apply binary_round_aux_number. lia.
Qed.

Lemma SFadd_number prec emax x y :
  finiteSF x -> y <> S754_nan -> SFadd prec emax x y <> S754_nan.
Proof.
  destruct x as [sx|sx| |sx mx ex], y as [sy|sy| |sy my ey];
    simpl; try tauto; intros _ Hy; try discriminate;
    try (destruct sx, sy; discriminate).
  apply binary_normalize_number.
Qed.

Lemma SFadd_zero_number prec emax x s :
  x <> S754_nan -> SFadd prec emax x (S754_zero s) <> S754_nan.
Proof.
  destruct x as [sx|sx| |sx mx ex]; simpl; intros H; try discriminate;
    try congruence.
  destruct sx, s; discriminate.
Qed.

(** Adding a product of finite floats to a finite float gives a number. *)
Lemma add_mul_number (a u b : float) :
  isFinite a -> isFinite u -> isFinite b -> isNumber (a + u * b).
Proof.
  unfold isFinite. intros Ha Hu Hb. apply isNumber_spec.
  rewrite add_spec, mul_spec. apply SFadd_number; [exact Ha|].
  now apply SFmul_number.
Qed.

Lemma add_zero_number (x : float) : isNumber x -> isNumber (x + 0).
Proof.
  rewrite !isNumber_spec, add_spec. intros H.
  change (Prim2SF 0) with (S754_zero false). now apply SFadd_zero_number.
Qed.

(** A float of the unit interval is finite. *)
Lemma unit_interval_finite (u : float) :
  (0 <=? u)%float = true -> (u <? 1)%float = true -> isFinite u.
Proof.
  unfold isFinite. rewrite leb_spec, ltb_spec.
  change (Prim2SF 0) with (S754_zero false).
  unfold SFleb, SFltb, SFcompare.
  destruct (Prim2SF u) as [s|s| |s m e]; simpl; auto.
  - destruct s; [intros H; discriminate H|]. intros _.
    destruct (Prim2SF 1) as [s1|s1| |s1 m1 e1]; try destruct s1;
      intros H; discriminate H.
  - intros H; discriminate H.
Qed.

End FloatArith.

(** * Reasoning about the loop *)

Section Hoare.

Context {E : Env}.

Lemma post_ret {A} (a : A) (Q : A -> Prop) : Q a -> post (ret a) Q.
Proof. intros H w b w' Hr. inversion Hr; subst; exact H. Qed.

Lemma post_bind {A B} (m : M A) (f : A -> M B) (P : A -> Prop) (Q : B -> Prop) :
  post m P -> (forall a, P a -> post (f a) Q) -> post (bind m f) Q.
Proof.
  intros Hm Hf w b w' Hr. unfold bind in Hr.
  destruct (m w) as [[a w1]|] eqn:Hmw; [|discriminate].
  exact (Hf a (Hm _ _ _ Hmw) _ _ _ Hr).
Qed.

Lemma post_weaken {A} (m : M A) (P Q : A -> Prop) :
  post m P -> (forall a, P a -> Q a) -> post m Q.
Proof. intros Hm HPQ w a w' Hr. exact (HPQ _ (Hm _ _ _ Hr)). Qed.

Lemma post_conj {A} (m : M A) (P Q : A -> Prop) :
  post m P -> post m Q -> post m (fun a => P a /\ Q a).
Proof. intros HP HQ w a w' Hr. split; [exact (HP _ _ _ Hr)|exact (HQ _ _ _ Hr)]. Qed.

Lemma post_any {A} (m : M A) : post m (fun _ => True).
Proof. intros w a w' _. exact I. Qed.

Lemma post_panic {A} (Q : A -> Prop) : post panic Q.
Proof. intros w a w' Hr. discriminate Hr. Qed.

Lemma total_ret {A} (a : A) : total (ret a).
Proof. intros w. now exists a, w. Qed.

Lemma total_bind {A B} (m : M A) (f : A -> M B) (P : A -> Prop) :
  total m -> post m P -> (forall a, P a -> total (f a)) -> total (bind m f).
Proof.
  intros Hm HP Hf w. destruct (Hm w) as (a & w1 & Hmw).
  unfold bind. rewrite Hmw. exact (Hf a (HP _ _ _ Hmw) w1).
Qed.

Lemma total_bind' {A B} (m : M A) (f : A -> M B) :
  total m -> (forall a, total (f a)) -> total (bind m f).
Proof.
  intros Hm Hf. apply total_bind with (P := fun _ => True); auto using post_any.
Qed.

Lemma total_randInt : total randInt.
Proof.
  intros w. unfold randInt. destruct (rand_Int (random w)) as [n g]. eauto.
Qed.

Lemma total_randFloat64 : total randFloat64.
Proof.
  intros w. unfold randFloat64. destruct (rand_Float64 (random w)) as [x g]. eauto.
Qed.

Lemma total_withRandom {A} (f : Rand -> A * Rand) : total (withRandom f).
Proof.
  intros w. unfold withRandom. destruct (f (random w)) as [a g]. eauto.
Qed.

Lemma total_play data volume : total (play data volume).
Proof. intros w. unfold play. eauto. Qed.

Lemma total_when b m : total m -> total (when b m).
Proof. intros Hm. destruct b; simpl; [exact Hm|apply total_ret]. Qed.

(** A computation that returns and whose results satisfy [Q] has a result
    that satisfies [Q]. *)
Lemma total_post {A} (m : M A) (Q : A -> Prop) w :
  total m -> post m Q -> exists a w', m w = Some (a, w') /\ Q a.
Proof.
  intros Ht Hp. destruct (Ht w) as (a & w' & Hr).
  exists a, w'. split; [exact Hr|exact (Hp _ _ _ Hr)].
Qed.

End Hoare.

Create HintDb runner.

#[local] Hint Resolve total_ret total_randInt total_randFloat64
  total_withRandom total_play total_when : runner.

(** Steps through a [post] goal: binds, and the calls whose result is
    arbitrary. *)
Ltac post_step :=
  lazymatch goal with
  | |- post (bind _ _) _ =>
      eapply post_bind; [apply post_any|intros ? _]
  | |- post (ret _) _ => apply post_ret
  | |- post (if ?b then _ else _) _ => destruct b eqn:?
  | |- post (match ?x with _ => _ end) _ => destruct x eqn:?
  | |- post panic _ => apply post_panic
  end.

Ltac total_step :=
  lazymatch goal with
  | |- total (bind _ _) => apply total_bind'; [|intros ?]
  | |- total (if ?b then _ else _) => destruct b eqn:?
  | |- total (match ?x with _ => _ end) => destruct x eqn:?
  | |- total _ => solve [auto with runner]
  end.

(** ** What each block of [update] does to the runner *)

Section Blocks.

Context {E : Env}.

Lemma updateGage_spec touches r :
  post (updateGage touches r) (gageStep touches r).
Proof.
  intros w r' w' H. unfold updateGage in H.
  destruct (rush r) eqn:Hrush; simpl in H.
  - unfold bind, when, withRandom, play, ret in H.
    repeat match type of H with
           | context [if ?b then _ else _] => destruct b eqn:?
           | context [let (_, _) := ?x in _] => destruct x eqn:?
           end;
      simpl in *; inversion H; subst; clear H;
      unfold gageStep, gageRule; rewrite Hrush; simpl;
      repeat match goal with
             | Hc : (_ <=? _) = _ |- _ => rewrite Hc
             end; simpl; repeat split; try reflexivity;
      try congruence.
  - unfold bind, when, play, ret, charged in *.
    unfold gageStep, gageRule, charged; rewrite Hrush.
    repeat match type of H with
           | context [if ?b then _ else _] => destruct b eqn:?
           end;
      simpl in *; inversion H; subst; clear H; simpl;
      repeat match goal with
             | Hc : (_ <? _) = _ |- _ => rewrite Hc
             end; simpl; repeat split; try reflexivity; try congruence.
Qed.

Lemma updateGage_total touches r : total (updateGage touches r).
Proof. unfold updateGage. repeat total_step. Qed.

Lemma spawnEnemy_spec r :
  post (spawnEnemy r)
    (fun r' => ctl r' = ctl r /\ objects r' = objects r /\
               effects r' = effects r /\
               (enemies r' = enemies r \/ enemies r' = enemies r ++ [newEnemy])).
Proof.
  intros w r' w' H. unfold spawnEnemy, bind, randInt, ret in H.
  repeat match type of H with
         | context [if ?b then _ else _] => destruct b eqn:?
         | context [let (_, _) := ?x in _] => destruct x eqn:?
         end;
    inversion H; subst; clear H; simpl; auto.
Qed.

Lemma spawnEnemy_total r : total (spawnEnemy r).
Proof. unfold spawnEnemy. repeat total_step. Qed.

Lemma createBackgroundObject_total typ x : total (createBackgroundObject typ x).
Proof.
  unfold createBackgroundObject.
  destruct (_ || _); [|destruct (_ =? _)%string]; repeat total_step.
Qed.

Lemma appendObject_spec typ x r :
  post (appendObject typ x r)
    (fun r' => ctl r' = ctl r /\ enemies r' = enemies r /\
               effects r' = effects r).
Proof.
  unfold appendObject. eapply post_bind; [apply post_any|intros o _].
  apply post_ret. simpl. auto.
Qed.

Lemma appendObject_total typ x r : total (appendObject typ x r).
Proof.
  unfold appendObject. apply total_bind'; [apply createBackgroundObject_total|].
  intros o. apply total_ret.
Qed.

#[local] Hint Resolve appendObject_total updateGage_total spawnEnemy_total
  : runner.

Lemma spawnObjects_spec r :
  post (spawnObjects r)
    (fun r' => ctl r' = ctl r /\ enemies r' = enemies r /\
               effects r' = effects r).
Proof.
  unfold spawnObjects.
  eapply post_bind; [apply post_any|intros n _].
  eapply post_bind with
    (P := fun r1 => ctl r1 = ctl r /\ enemies r1 = enemies r /\
                    effects r1 = effects r).
  { destruct (_ =? _); [apply appendObject_spec|apply post_ret; auto]. }
  intros r1 (Hc1 & He1 & Hf1).
  eapply post_bind; [apply appendObject_spec|].
  intros r2 (Hc2 & He2 & Hf2).
  eapply post_bind; [apply post_any|intros m _].
  destruct (_ =? _).
  - eapply post_weaken; [apply appendObject_spec|].
    intros r3 (Hc3 & He3 & Hf3). repeat split; congruence.
  - apply post_ret. repeat split; congruence.
Qed.

Lemma spawnObjects_total r : total (spawnObjects r).
Proof. unfold spawnObjects. repeat total_step. Qed.

#[local] Hint Resolve spawnObjects_total : runner.

Lemma beforeCollisions_spec r touches :
  post (beforeCollisions r touches) (tickStart touches r).
Proof.
  unfold beforeCollisions.
  eapply post_bind; [apply updateGage_spec|]. intros r1 H1.
  eapply post_bind; [apply spawnEnemy_spec|]. intros r2 (Hc2 & Ho2 & Hf2 & He2).
  eapply post_weaken; [apply spawnObjects_spec|].
  intros r3 (Hc3 & He3 & Hf3).
  assert (Hc : ctl r3 = ctl r1) by congruence.
  unfold ctl in Hc. injection Hc as Ht Hm Hg Hgg Hr Hh Hta Hs.
  destruct H1 as (G1 & G2 & G3 & G4 & G5 & G6 & G7 & G8).
  simpl in *.
  assert (He : enemies r3 = enemies r \/ enemies r3 = enemies r ++ [newEnemy]).
  { rewrite He3. destruct He2 as [He2|He2]; rewrite He2, G6; auto. }
  assert (Hrule : gageRule touches r r3).
  { unfold gageRule in *. simpl in G8. rewrite Hgg, Hr, Hh. exact G8. }
  unfold tickStart. repeat split; solve [congruence | assumption].
Qed.

Lemma beforeCollisions_total r touches : total (beforeCollisions r touches).
Proof. unfold beforeCollisions. repeat total_step. Qed.

(** ** The collision loop *)

Lemma Enemy_update_hit b e e' :
  Enemy_update b e = Some e' -> hit e' = hit e /\ wfEnemy e'.
Proof.
  unfold Enemy_update, wfEnemy. intros H.
  destruct (hit e) eqn:Hh; simpl in H.
  - destruct (hitV e); inversion H; subst; simpl. split; [auto|discriminate].
  - inversion H; subst; simpl. split; [auto|congruence].
Qed.

Lemma collideEnemy_spec e r :
  post (collideEnemy e r) (fun er => collisionRule e r (fst er) (snd er)).
Proof.
  intros w [e' r'] w' H. simpl.
  unfold collideEnemy, hitEnemy, bind, ret, when, play, randFloat64,
    withRandom, panic in H.
  fold (hits e) in H. unfold collisionRule.
  destruct (hits e) eqn:Hhits; simpl.
  - assert (Hh : hit e = false).
    { unfold hits in Hhits. destruct (hit e); [discriminate|reflexivity]. }
    destruct (rush r) eqn:Hrush; simpl.
    + repeat match type of H with
             | context [if ?b then _ else _] => destruct b eqn:?
             | context [let (_, _) := ?x in _] => destruct x eqn:?
             end;
        simpl in H; inversion H; subst; clear H; simpl;
        rewrite ?Hh; unfold wfEnemy; simpl;
        (repeat split; try reflexivity; try discriminate; try congruence);
        now rewrite orb_false_r.
    + simpl in H. rewrite ?Hrush in H. unfold Enemy_update in H.
      simpl in H. rewrite Hh in H.
      simpl in H. inversion H; subst; clear H; simpl.
      unfold wfEnemy; simpl. rewrite Hh. simpl.
      repeat split; try reflexivity; try discriminate; try congruence;
        now rewrite ?orb_true_r, ?orb_false_r.
  - destruct (Enemy_update (rush r) e) as [e1|] eqn:Hu; [|discriminate].
    inversion H; subst; clear H.
    destruct (Enemy_update_hit _ _ _ Hu) as [Hhit Hwf].
    rewrite Hhit, !orb_false_r. repeat split; try reflexivity; try assumption.
Qed.

(** The loop returns as soon as the enemies it meets have their impulse
    velocity. *)
Lemma collideEnemy_total e r : wfEnemy e -> total (collideEnemy e r).
Proof.
  intros Hwf. unfold collideEnemy.
  destruct (negb (hit e) && collides e) eqn:Hhits.
  - assert (Hh : hit e = false).
    { destruct (hit e); [discriminate|reflexivity]. }
    destruct (rush r) eqn:Hrush.
    + unfold hitEnemy.
      intros w. unfold bind, ret, when, play, randFloat64, withRandom.
      repeat match goal with
             | |- context [let (_, _) := ?x in _] => destruct x eqn:?
             end.
      simpl. rewrite ?Hrush. destruct (mute r); simpl; eauto.
    + intros w. unfold bind, ret. simpl. rewrite ?Hrush.
      unfold Enemy_update. rewrite Hh. simpl. eauto.
  - intros w. unfold bind, ret.
    unfold Enemy_update. destruct (hit e) eqn:Hh; simpl.
    + destruct (hitV e) eqn:Hv; [eauto|]. now destruct (Hwf Hh).
    + eauto.
Qed.

Lemma collideLoop_spec es : forall r,
  post (collideLoop es r) (fun er => loopRule es r (fst er) (snd er)).
Proof.
  induction es as [|e es IH]; intros r; simpl.
  - apply post_ret. unfold loopRule. simpl.
    rewrite orb_false_r. repeat split; auto. now destruct (rush r).
  - eapply post_bind; [apply collideEnemy_spec|].
    intros [e1 r1] H1. simpl in H1.
    eapply post_bind; [apply IH|].
    intros [es2 r2] H2. simpl in H2.
    apply post_ret. simpl.
    destruct H1 as (A1 & A2 & A3 & A4 & A5 & A6 & A7 & A8 & A9 & A10).
    destruct H2 as (B1 & B2 & B3 & B4 & B5 & B6 & B7 & B8 & B9).
    unfold loopRule. rewrite A4 in *.
    repeat split; try congruence.
    + constructor; assumption.
    + constructor; assumption.
    + rewrite B8, A9. simpl.
      destruct (hits e), (rush r), (gameOver r), (existsb hits es); reflexivity.
    + rewrite B9. simpl. destruct (rush r).
      * destruct (hits e); simpl in A10.
        -- destruct A10 as (-> & -> & _). reflexivity.
        -- destruct A10 as (-> & -> & _). reflexivity.
      * rewrite andb_false_r in A10. destruct A10 as (-> & -> & _). reflexivity.
Qed.

Lemma collideLoop_total es : forall r,
  Forall wfEnemy es -> total (collideLoop es r).
Proof.
  induction es as [|e es IH]; intros r Hwf; simpl.
  - apply total_ret.
  - inversion Hwf; subst.
    apply total_bind'; [now apply collideEnemy_total|].
    intros [e1 r1]. apply total_bind'; [now apply IH|].
    intros [es2 r2]. apply total_ret.
Qed.

Lemma collideEnemies_spec r :
  post (collideEnemies r) (fun r' => loopRule (enemies r) r (enemies r') r').
Proof.
  unfold collideEnemies. eapply post_bind; [apply collideLoop_spec|].
  intros [es r1] H. apply post_ret. exact H.
Qed.

Lemma collideEnemies_total r :
  Forall wfEnemy (enemies r) -> total (collideEnemies r).
Proof.
  intros Hwf. unfold collideEnemies.
  apply total_bind'; [now apply collideLoop_total|].
  intros [es r1]. apply total_ret.
Qed.

(** ** The end of the tick *)

Lemma updateEffectsLoop_total efs : total (updateEffectsLoop efs).
Proof.
  induction efs as [|ef efs IH]; simpl; [apply total_ret|].
  repeat total_step.
Qed.

Lemma updateEffects_spec r :
  post (updateEffects r)
    (fun r' => ctl r' = ctl r /\ enemies r' = enemies r /\
               objects r' = objects r).
Proof.
  unfold updateEffects. eapply post_bind; [apply post_any|intros efs _].
  apply post_ret. simpl. auto.
Qed.

Lemma afterCollisions_spec r : post (afterCollisions r) (tickEnd r).
Proof.
  unfold afterCollisions.
  eapply post_bind; [apply updateEffects_spec|].
  intros r1 (Hc & He & Ho). apply post_ret.
  unfold tickEnd, sortObjects, prune, updateObjects, ctl in *. simpl in *.
  rewrite He, Ho. injection Hc as -> -> -> -> -> -> -> ->.
  repeat split; reflexivity.
Qed.

Lemma afterCollisions_total r : total (afterCollisions r).
Proof.
  unfold afterCollisions, updateEffects.
  apply total_bind'.
  - apply total_bind'; [apply updateEffectsLoop_total|intros; apply total_ret].
  - intros r1. apply total_ret.
Qed.

(** ** The whole tick *)

(** A tick of a runner that is not over goes through the three parts. *)
Lemma update_inv r touches w r' w' :
  gameOver r = false ->
  update r touches w = Some (r', w') ->
  exists r1 w1 r2 w2,
    beforeCollisions r touches w = Some (r1, w1) /\
    collideEnemies r1 w1 = Some (r2, w2) /\
    afterCollisions r2 w2 = Some (r', w').
Proof.
  intros Hgo H. unfold update in H. rewrite Hgo in H. unfold bind in H.
  destruct (beforeCollisions r touches w) as [[r1 w1]|] eqn:H1; [|discriminate].
  destruct (collideEnemies r1 w1) as [[r2 w2]|] eqn:H2; [|discriminate].
  now exists r1, w1, r2, w2.
Qed.

Lemma update_over r touches w :
  gameOver r = true -> update r touches w = Some (r, w).
Proof. intros Hgo. unfold update. now rewrite Hgo. Qed.

Lemma update_spec r touches :
  gameOver r = false -> post (update r touches) (tickRule touches r).
Proof.
  intros Hgo w r' w' H.
  destruct (update_inv _ _ _ _ _ Hgo H)
    as (r1 & w1 & r2 & w2 & H1 & H2 & H3).
  exists r1, r2. split; [|split].
  - exact (beforeCollisions_spec _ _ _ _ _ H1).
  - exact (collideEnemies_spec _ _ _ _ H2).
  - exact (afterCollisions_spec _ _ _ _ H3).
Qed.

(** A tick returns when the enemies marked hit have their impulse velocity. *)
Lemma update_total r touches :
  Forall wfEnemy (enemies r) -> total (update r touches).
Proof.
  intros Hwf. unfold update. destruct (gameOver r); [apply total_ret|].
  eapply total_bind; [apply beforeCollisions_total|apply beforeCollisions_spec|].
  intros r1 H1. apply total_bind'; [|intros; apply afterCollisions_total].
  apply collideEnemies_total.
  destruct H1 as (_ & _ & _ & _ & _ & _ & [He|He]); rewrite He.
  - exact Hwf.
  - apply Forall_app. split; [exact Hwf|].
    constructor; [|constructor]. unfold wfEnemy, newEnemy. simpl. discriminate.
Qed.

End Blocks.

(** * Invariants of the runner *)

Section Invariants.

Context {E : Env}.

Lemma populate_spec typ n : forall r,
  post (populate typ n r)
    (fun r' => ctl r' = ctl r /\ enemies r' = enemies r /\
               effects r' = effects r).
Proof.
  induction n as [|n IH]; intros r; simpl.
  - apply post_ret. auto.
  - eapply post_bind; [apply post_any|intros u _].
    eapply post_bind; [apply appendObject_spec|].
    intros r1 (Hc1 & He1 & Hf1).
    eapply post_weaken; [apply IH|].
    intros r2 (Hc2 & He2 & Hf2). repeat split; congruence.
Qed.

Lemma newGameRunner_spec mute0 :
  post (newGameRunner mute0)
    (fun r => gameOver r = false /\ gage r = 0 /\ rush r = false /\
              hitCountInRush r = 0 /\ score r = 0 /\ ticks r = 0 /\
              enemies r = []).
Proof.
  unfold newGameRunner.
  eapply post_bind; [apply populate_spec|]. intros r1 (Hc1 & He1 & _).
  eapply post_bind; [apply populate_spec|]. intros r2 (Hc2 & He2 & _).
  eapply post_weaken; [apply populate_spec|]. intros r3 (Hc3 & He3 & _).
  simpl in He1.
  assert (Hc : ctl r3 = (0, mute0, false, 0, false, 0, 0, 0))
    by (rewrite Hc3, Hc2, Hc1; reflexivity).
  unfold ctl in Hc. injection Hc as Ht _ Hgo Hg Hr Hh _ Hs.
  repeat split; try assumption. congruence.
Qed.

Lemma Forall_filter {A} (P : A -> Prop) (f : A -> bool) l :
  Forall P l -> Forall P (filter f l).
Proof.
  intros H. rewrite Forall_forall in *. intros x Hx.
  apply filter_In in Hx. now apply H.
Qed.

Lemma charged_bounds touches g :
  0 <= g <= gageMax ->
  g <= charged touches g <= gageMax /\ charged touches g <= g + 1.
Proof.
  unfold charged, gageMax, GoInt.add. intros Hg.
  rewrite GoIntFacts.wrap_id
    by (unfold GoInt.in_range, GoInt.min_int, GoInt.max_int; lia).
  destruct (_ || _); [|lia].
  destruct (300 <? g + 1) eqn:Hlt; [lia|]. apply Z.ltb_ge in Hlt. lia.
Qed.

Lemma Inv_tick touches r r' :
  gameOver r = false -> Inv r -> tickRule touches r r' -> Inv r'.
Proof.
  intros Hgo (Hg & Hr & Hwf) (r1 & r2 & H1 & H2 & H3).
  destruct H1 as (_ & _ & Hgo1 & _ & _ & Hrule & _).
  destruct H2 as (_ & _ & Hg2 & Hr2 & _ & _ & Hwf2 & Hgo2 & _).
  destruct H3 as (Hc3 & He3 & _).
  unfold ctl in Hc3. injection Hc3 as _ _ Hgo3 Hg3 Hr3 _ _ _.
  assert (G : 0 <= gage r1 <= gageMax /\
              (rush r1 = true -> 0 < gage r1)).
  { unfold gageRule in Hrule. destruct (rush r) eqn:Hrush.
    - destruct (Hr eq_refl) as [Hpos _].
      unfold GoInt.sub in Hrule.
      rewrite GoIntFacts.wrap_id in Hrule
        by (unfold GoInt.in_range, GoInt.min_int, GoInt.max_int, gageMax in *;
            lia).
      destruct (gage r - 1 <=? 0) eqn:Hle.
      + destruct Hrule as (-> & -> & _). unfold gageMax. split; [lia|discriminate].
      + apply Z.leb_gt in Hle. destruct Hrule as (-> & _ & _). lia.
    - destruct Hrule as (Hg1 & Hr1 & _).
      pose proof (charged_bounds touches _ Hg) as Hb.
      rewrite Hg1. split; [lia|]. intros Hrt. rewrite Hr1, Hg1 in Hrt.
      apply andb_prop in Hrt. destruct Hrt as [Hrt _].
      now apply Z.ltb_lt in Hrt. }
  destruct G as [G1 G2].
  unfold Inv. rewrite Hg3, Hr3, Hgo3, Hg2, Hr2, He3.
  split; [lia|]. split; [|now apply Forall_filter].
  intros Hrush1. split; [now apply G2|].
  rewrite Hgo2, Hgo1, Hgo, Hrush1. now rewrite andb_false_r.
Qed.

Lemma Inv_update r touches w r' w' :
  Inv r -> update r touches w = Some (r', w') -> Inv r'.
Proof.
  intros HI H. destruct (gameOver r) eqn:Hgo.
  - rewrite update_over in H by assumption. now inversion H; subst.
  - eapply Inv_tick; eauto. eapply update_spec; eauto.
Qed.

Lemma reachable_Inv r : reachable r -> Inv r.
Proof.
  induction 1 as [m w r w' H|r touches w r' w' _ IH H].
  - destruct (newGameRunner_spec _ _ _ _ H) as (Hgo & Hg & Hr & _ & _ & _ & He).
    unfold Inv. rewrite Hg, Hr, He. unfold gageMax.
    repeat split; try lia; try discriminate. constructor.
  - eapply Inv_update; eauto.
Qed.

End Invariants.

(** * The gauge and the rush *)

Section Gauge.

Context {E : Env}.

Lemma reachable_run inputs : forall r w r' w',
  reachable r -> run inputs r w = Some (r', w') -> reachable r'.
Proof.
  induction inputs as [|touches inputs IH]; intros r w r' w' Hr H; simpl in H.
  - inversion H; subst. exact Hr.
  - unfold bind in H.
    destruct (update r touches w) as [[r1 w1]|] eqn:H1; [|discriminate].
    eapply IH; [|exact H]. eapply reachable_update; eauto.
Qed.

Lemma update_returns r touches w :
  Inv r -> exists r' w', update r touches w = Some (r', w') /\ Inv r'.
Proof.
  intros HI. pose proof HI as (Hg & Hr & Hwf).
  destruct (update_total r touches Hwf w) as (r' & w' & H).
  exists r', w'. split; [exact H|].
  eapply Inv_update; [exact HI|exact H].
Qed.

(** C1: every runner a game can hold has its gauge between 0 and [gageMax];
    a call of [update] on it returns, and the gauge of the runner it leaves
    is between 0 and [gageMax] again. *)
Theorem gage_within_bounds r touches w :
  reachable r ->
  0 <= gage r <= gageMax /\
  exists r' w',
    update r touches w = Some (r', w') /\ 0 <= gage r' <= gageMax.
Proof.
  intros Hr. pose proof (reachable_Inv _ Hr) as HI.
  split; [apply HI|].
  destruct (update_returns r touches w HI) as (r' & w' & H & HI').
  exists r', w'. split; [exact H|apply HI'].
Qed.

(** C7: on a runner that is over, [update] returns the runner and the world
    as they are, on every input; so does any number of further ticks. *)
Theorem update_when_over r touches inputs w :
  gameOver r = true ->
  update r touches w = Some (r, w) /\ run inputs r w = Some (r, w).
Proof.
  intros Hgo. split; [now apply update_over|].
  induction inputs as [|t inputs IH]; simpl; [reflexivity|].
  unfold bind. now rewrite update_over.
Qed.

(** The gauge after a tick of a runner that is charging and not over. *)
Lemma charging_gage touches r r' :
  rush r = false -> tickRule touches r r' ->
  gage r' = charged touches (gage r).
Proof.
  intros Hrush (r1 & r2 & H1 & H2 & H3).
  destruct H1 as (_ & _ & _ & _ & _ & Hrule & _).
  destruct H2 as (_ & _ & Hg2 & _).
  destruct H3 as (Hc3 & _).
  unfold ctl in Hc3. injection Hc3 as _ _ _ Hg3 _ _ _ _.
  unfold gageRule in Hrule. rewrite Hrush in Hrule.
  destruct Hrule as (Hg1 & _). congruence.
Qed.

(** C5, as the code has it: while charging, a tick raises the gauge by
    exactly 1, up to [gageMax], when a touch has just begun, or when the
    gauge is already positive and a touch is active; on any other tick the
    gauge stays. *)
Theorem charging_tick r touches w :
  reachable r -> rush r = false -> gameOver r = false ->
  exists r' w',
    update r touches w = Some (r', w') /\
    gage r' =
      if AnyTouchesJustTouched touches
         || ((0 <? gage r) && AnyTouchesActive touches)
      then Z.min (gage r + 1) gageMax
      else gage r.
Proof.
  intros Hr Hrush Hgo. pose proof (reachable_Inv _ Hr) as HI.
  destruct (update_returns r touches w HI) as (r' & w' & H & _).
  exists r', w'. split; [exact H|].
  rewrite (charging_gage touches r r' Hrush (update_spec r touches Hgo _ _ _ H)).
  destruct HI as (Hg & _). unfold charged, GoInt.add.
  rewrite GoIntFacts.wrap_id
    by (unfold GoInt.in_range, GoInt.min_int, GoInt.max_int, gageMax in *; lia).
  destruct (_ || _); [|reflexivity].
  destruct (gageMax <? gage r + 1) eqn:Hlt.
  - apply Z.ltb_lt in Hlt. lia.
  - apply Z.ltb_ge in Hlt. lia.
Qed.

(** During a rush of a runner that satisfies the invariant, [k] ticks take
    [k] off the gauge, as long as the gauge lasts. *)
Lemma rush_ticks inputs : forall r w,
  Inv r -> rush r = true ->
  Z.of_nat (List.length inputs) <= gage r ->
  exists r' w',
    run inputs r w = Some (r', w') /\
    gage r' = gage r - Z.of_nat (List.length inputs) /\
    rush r' = (Z.of_nat (List.length inputs) <? gage r) /\
    (Z.of_nat (List.length inputs) = gage r -> hitCountInRush r' = 0).
Proof.
  induction inputs as [|touches inputs IH]; intros r w HI Hrush Hlen.
  - exists r, w. destruct HI as (Hg & Hr & _).
    destruct (Hr Hrush) as [Hpos _].
    simpl. repeat split; try lia.
    rewrite Hrush. symmetry. now apply Z.ltb_lt.
  - destruct (update_returns r touches w HI) as (r1 & w1 & H1 & HI1).
    pose proof HI as (Hg & Hr & _). destruct (Hr Hrush) as [Hpos Hgo].
    destruct (update_spec r touches Hgo _ _ _ H1)
      as (ra & rb & Ha & Hb & Hc).
    destruct Ha as (_ & _ & _ & _ & _ & Hrule & _).
    destruct Hb as (_ & _ & Hgb & Hrb & _ & _ & _ & _ & Htally).
    destruct Hc as (Hctl & _).
    unfold ctl in Hctl. injection Hctl as _ _ _ Hg1 Hr1 Hh1 _ _.
    unfold gageRule in Hrule. rewrite Hrush in Hrule.
    unfold GoInt.sub in Hrule.
    rewrite GoIntFacts.wrap_id in Hrule
      by (unfold GoInt.in_range, GoInt.min_int, GoInt.max_int, gageMax in *;
          lia).
    simpl List.length in *. rewrite Nat2Z.inj_succ in *.
    simpl run. unfold bind. rewrite H1.
    destruct (gage r - 1 <=? 0) eqn:Hle.
    + apply Z.leb_le in Hle. destruct Hrule as (Hga & Hra & Hha).
      assert (Hnil : inputs = []).
      { destruct inputs; [reflexivity|]. simpl List.length in Hlen.
        rewrite Nat2Z.inj_succ in Hlen. lia. }
      subst inputs. simpl. exists r1, w1.
      rewrite Hra in Htally. injection Htally as Hhb _.
      repeat split; try reflexivity; try lia; try congruence.
      rewrite Hr1, Hrb, Hra. symmetry. apply Z.ltb_ge. lia.
    + apply Z.leb_gt in Hle. destruct Hrule as (Hga & Hra & Hha).
      assert (Hrush1 : rush r1 = true) by congruence.
      assert (Hgage1 : gage r1 = gage r - 1) by congruence.
      destruct (IH r1 w1 HI1 Hrush1) as (r' & w' & H & G1 & G2 & G3);
        [lia|].
      exists r', w'. rewrite Hgage1 in *. repeat split.
      * exact H.
      * lia.
      * rewrite G2. destruct (Z.ltb_spec (Z.of_nat (List.length inputs)) (gage r - 1));
          symmetry; [apply Z.ltb_lt|apply Z.ltb_ge]; lia.
      * intros Heq. apply G3. lia.
Qed.

(** C2: a rush ends.  On a runner that is rushing with gauge [g], [k <= g]
    ticks return and leave the gauge at [g - k]; the rush flag is still set
    after fewer than [g] ticks and is cleared by tick [g], which leaves the
    gauge at 0 and the hit count of the rush at 0. *)
Theorem rush_lasts_gage_ticks r inputs w :
  reachable r -> rush r = true ->
  Z.of_nat (List.length inputs) <= gage r ->
  0 < gage r /\
  exists r' w',
    run inputs r w = Some (r', w') /\
    gage r' = gage r - Z.of_nat (List.length inputs) /\
    rush r' = (Z.of_nat (List.length inputs) <? gage r) /\
    (Z.of_nat (List.length inputs) = gage r ->
     gage r' = 0 /\ rush r' = false /\ hitCountInRush r' = 0).
Proof.
  intros Hr Hrush Hlen. pose proof (reachable_Inv _ Hr) as HI.
  split; [now apply HI|].
  destruct (rush_ticks inputs r w HI Hrush Hlen) as (r' & w' & H & G1 & G2 & G3).
  exists r', w'. repeat split; try assumption.
  - lia.
  - rewrite G2. apply Z.ltb_ge. lia.
  - now apply G3.
Qed.

End Gauge.

(** * Collisions, game over and the score *)

Section Collisions.

Context {E : Env}.

(** C3: on a tick of a runner that is not over, with [r1] the runner as the
    collision loop finds it (after the gauge logic and the spawns of this
    tick), [update] returns and the runner it leaves is over if and only if
    the rush flag of [r1] is false and some enemy of [r1] that is not yet hit
    collides with the player: the capsule test of [collides], from [prevPos]
    to [pos] with radius [enemyR] against ([rhinoX], [rhinoY]) with radius
    [rhinoR]. *)
Theorem game_over_iff_lethal_collision r touches w r1 w1 :
  gameOver r = false ->
  Forall wfEnemy (enemies r) ->
  beforeCollisions r touches w = Some (r1, w1) ->
  exists r' w',
    update r touches w = Some (r', w') /\
    (gameOver r' = true <->
     rush r1 = false /\
     exists e, In e (enemies r1) /\ hit e = false /\ collides e = true).
Proof.
  intros Hgo Hwf H1.
  destruct (update_total r touches Hwf w) as (r' & w' & H).
  exists r', w'. split; [exact H|].
  destruct (update_inv _ _ _ _ _ Hgo H) as (ra & wa & r2 & w2 & Ha & H2 & H3).
  rewrite H1 in Ha. inversion Ha; subst ra wa; clear Ha.
  pose proof (beforeCollisions_spec _ _ _ _ _ H1) as (_ & _ & Hgo1 & _).
  pose proof (collideEnemies_spec _ _ _ _ H2)
    as (_ & _ & _ & _ & _ & _ & _ & Hgo2 & _).
  pose proof (afterCollisions_spec _ _ _ _ H3) as (Hc & _).
  unfold ctl in Hc. injection Hc as _ _ Hgo3 _ _ _ _ _.
  rewrite Hgo3, Hgo2, Hgo1, Hgo. simpl.
  rewrite andb_true_iff, negb_true_iff, existsb_exists.
  split.
  - intros [(e & Hin & Hhits) Hrush]. split; [exact Hrush|].
    exists e. unfold hits in Hhits. apply andb_prop in Hhits.
    destruct Hhits as [Hh Hc]. apply negb_true_iff in Hh. auto.
  - intros [Hrush (e & Hin & Hh & Hc)]. split; [|exact Hrush].
    exists e. split; [exact Hin|]. unfold hits. now rewrite Hh, Hc.
Qed.

(** ** The score *)

Lemma gains_bounds h : forall hc,
  0 <= hc -> 0 <= gains hc h <= 10 * Z.of_nat h * (hc + Z.of_nat h).
Proof.
  induction h as [|h IH]; intros hc Hhc.
  - simpl. lia.
  - specialize (IH (hc + 1) ltac:(lia)).
    change (gains hc (S h)) with (10 * (hc + 1) + gains (hc + 1) h).
    rewrite Nat2Z.inj_succ. nia.
Qed.

(** Without overflow, [tally] counts the hits and adds their gains. *)
Lemma tally_gains (L : Z) es : forall hc sc,
  0 <= hc -> 0 <= sc ->
  hc + Z.of_nat (struck es) <= L ->
  sc + 10 * Z.of_nat (struck es) * L <= GoInt.max_int ->
  tally es hc sc = (hc + Z.of_nat (struck es), sc + gains hc (struck es)).
Proof.
  unfold GoInt.max_int.
  induction es as [|e es IH]; intros hc sc Hhc Hsc Hb1 Hb2.
  - simpl. f_equal; lia.
  - unfold struck in *. cbn [tally filter] in *.
    destruct (hits e); cbn [List.length gains] in *.
    + rewrite Nat2Z.inj_succ in *.
      assert (Ha : GoInt.add hc 1 = hc + 1).
      { apply GoIntFacts.wrap_id.
        unfold GoInt.in_range, GoInt.min_int, GoInt.max_int. nia. }
      assert (Hm : GoInt.mul 10 (hc + 1) = 10 * (hc + 1)).
      { apply GoIntFacts.wrap_id.
        unfold GoInt.in_range, GoInt.min_int, GoInt.max_int. nia. }
      assert (Hs : GoInt.add sc (10 * (hc + 1)) = sc + 10 * (hc + 1)).
      { apply GoIntFacts.wrap_id.
        unfold GoInt.in_range, GoInt.min_int, GoInt.max_int. nia. }
      rewrite Ha, Hm, Hs. rewrite IH by nia. f_equal; lia.
    + now apply IH.
Qed.

Lemma struck_le_unhit es : Z.of_nat (struck es) <= unhit es.
Proof.
  unfold struck, unhit, hits.
  induction es as [|e es IH]; cbn [filter List.length]; [lia|].
  destruct (hit e), (collides e);
    cbn [negb andb filter List.length]; rewrite ?Nat2Z.inj_succ; lia.
Qed.

(** The loop marks the enemies it strikes during a rush, and no other. *)
Lemma unhit_after_loop (rushing : bool) es es' :
  Forall2 (fun e e' => hit e' = hit e || (hits e && rushing)) es es' ->
  unhit es' = unhit es - (if rushing then Z.of_nat (struck es) else 0).
Proof.
  unfold unhit, struck, hits.
  induction 1 as [|e e' es es' He _ IH]; cbn [filter List.length].
  - destruct rushing; reflexivity.
  - rewrite He.
    destruct (hit e), (collides e), rushing;
      cbn [negb andb orb filter List.length] in *;
      rewrite ?Nat2Z.inj_succ; lia.
Qed.

Lemma unhit_app es es' : unhit (es ++ es') = unhit es + unhit es'.
Proof. unfold unhit. rewrite filter_app, length_app. lia. Qed.

Lemma unhit_filter f es : 0 <= unhit (filter f es) <= unhit es.
Proof.
  unfold unhit. induction es as [|e es IH]; cbn [filter List.length]; [lia|].
  destruct (f e); cbn [filter]; destruct (hit e);
    cbn [negb filter List.length]; rewrite ?Nat2Z.inj_succ; lia.
Qed.

Lemma tick_score touches n r r1 r2 r' :
  Z.of_nat n < tickBound ->
  scoreInv n r ->
  tickStart touches r r1 ->
  loopRule (enemies r1) r1 (enemies r2) r2 ->
  tickEnd r2 r' ->
  scoreInv (S n) r' /\
  hitCountInRush r' = hitCountInRush r1 + Z.of_nat (struckNow r1) /\
  score r' = score r + gains (hitCountInRush r1) (struckNow r1) /\
  0 <= hitCountInRush r1 <= hitCountInRush r.
Proof.
  unfold tickBound. intros Hn (Ht & Hhc & Hu & Hsc & Hs) H1 H2 H3.
  destruct H1 as (Ht1 & _ & _ & _ & Hs1 & Hrule & He1).
  destruct H2 as (Ht2 & _ & _ & _ & _ & Hf2 & _ & _ & Htally).
  destruct H3 as (Hc3 & He3 & _).
  unfold ctl in Hc3. injection Hc3 as Ht3 _ _ _ _ Hh3 _ Hs3.
  unfold GoInt.addU in Ht1. rewrite GoIntFacts.wrapU_id in Ht1 by lia.
  assert (Hhc1 : 0 <= hitCountInRush r1 <= hitCountInRush r).
  { unfold gageRule in Hrule. destruct (rush r).
    - destruct (_ <=? _); destruct Hrule as (_ & _ & ->); lia.
    - destruct Hrule as (_ & _ & ->). lia. }
  assert (Hu1 : 0 <= unhit (enemies r1) <= unhit (enemies r) + 1).
  { destruct He1 as [->| ->].
    - unfold unhit. lia.
    - rewrite unhit_app. change (unhit [newEnemy]) with 1. unfold unhit. lia. }
  assert (Hu0 : 0 <= unhit (enemies r)) by (unfold unhit; lia).
  pose proof (struck_le_unhit (enemies r1)) as Hst.
  pose proof (unhit_after_loop _ _ _ Hf2) as Hu2.
  pose proof (unhit_filter enemyStays (enemies r2)) as Hu3.
  unfold struckNow.
  remember (unhit (enemies r)) as U eqn:EU.
  remember (unhit (enemies r1)) as U1 eqn:EU1.
  remember (unhit (enemies r2)) as U2 eqn:EU2.
  remember (ticks r) as T eqn:ET.
  assert (HTU1 : (T + 1) * U1 <= (T + 1) * (U + 1))
    by (apply Z.mul_le_mono_nonneg_l; lia).
  assert (HTT : (T + 1) * (T + 1) <= 900000000 * 900000000)
    by (apply Z.mul_le_mono_nonneg; lia).
  assert (Hbase : score r + 10 * ((T + 1) * U1) <= 10 * ((T + 1) * (T + 1)))
    by lia.
  destruct (rush r1) eqn:Hrush1.
  - remember (Z.of_nat (struck (enemies r1))) as h eqn:Eh.
    assert (HhT : h * (T + 1) <= U1 * (T + 1))
      by (apply Z.mul_le_mono_nonneg_r; lia).
    assert (Hhh : h * (hitCountInRush r1 + h) <= h * (T + 1))
      by (apply Z.mul_le_mono_nonneg_l; lia).
    rewrite (tally_gains (ticks r1)) in Htally
      by (unfold GoInt.max_int; rewrite <- ?Eh; lia).
    injection Htally as Hh2 Hsc2.
    pose proof (gains_bounds (struck (enemies r1)) (hitCountInRush r1)
                  ltac:(lia)) as Hg.
    rewrite <- Eh in *.
    remember (gains (hitCountInRush r1) (struck (enemies r1))) as g eqn:Eg.
    unfold pruneEnemies in He3. rewrite <- He3 in Hu3.
    remember (unhit (enemies r')) as U3 eqn:EU3.
    assert (HU3 : (T + 1) * U3 <= (T + 1) * (U1 - h))
      by (apply Z.mul_le_mono_nonneg_l; lia).
    unfold scoreInv. rewrite <- EU3, Ht3, Hh3, Hs3, Ht2, Hh2, Hsc2, Ht1, Hs1.
    rewrite Nat2Z.inj_succ.
    repeat split; lia.
  - injection Htally as Hh2 Hsc2.
    unfold pruneEnemies in He3. rewrite <- He3 in Hu3.
    remember (unhit (enemies r')) as U3 eqn:EU3.
    assert (HU3 : (T + 1) * U3 <= (T + 1) * U1)
      by (apply Z.mul_le_mono_nonneg_l; lia).
    unfold scoreInv. rewrite <- EU3, Ht3, Hh3, Hs3, Ht2, Hh2, Hsc2, Ht1, Hs1.
    rewrite Nat2Z.inj_succ. cbn [gains Z.of_nat].
    repeat split; lia.
Qed.

Lemma scoreInv_mono n r : scoreInv n r -> scoreInv (S n) r.
Proof.
  unfold scoreInv. rewrite Nat2Z.inj_succ. intros H. repeat split; lia.
Qed.

Lemma reachableIn_scoreInv n r :
  reachableIn n r -> Z.of_nat n <= tickBound -> scoreInv n r.
Proof.
  induction 1 as [m w r w' n H|n r touches w r' w' _ IH H]; intros Hn.
  - destruct (newGameRunner_spec _ _ _ _ H)
      as (_ & _ & _ & Hh & Hs & Ht & He).
    unfold scoreInv. rewrite Hh, Hs, Ht, He. unfold unhit. simpl.
    repeat split; lia.
  - rewrite Nat2Z.inj_succ in Hn. specialize (IH ltac:(lia)).
    destruct (gameOver r) eqn:Hgo.
    + rewrite update_over in H by assumption. inversion H; subst.
      now apply scoreInv_mono.
    + destruct (update_spec r touches Hgo _ _ _ H) as (r1 & r2 & H1 & H2 & H3).
      refine (proj1 (tick_score touches n r r1 r2 r' _ IH H1 H2 H3)). lia.
Qed.

Lemma reachableIn_reachable n r : reachableIn n r -> reachable r.
Proof.
  induction 1; [eapply reachable_new|eapply reachable_update]; eauto.
Qed.

(** C4: within the first [tickBound] ticks of a runner (the ticks in which
    no 64-bit counter overflows), a tick returns and does not lower the
    score.  On a tick of a runner that is not over, with [r1] the runner as
    the collision loop finds it and [h] the not-yet-hit enemies that collide
    with the player while it rushes, the hit count goes from that of [r1] to
    [h] more, and the score grows by [gains]: for each hit in turn, 10 times
    the hit count that the hit has just incremented, and by nothing else.
    The hit count of [r1] is 0 when the rush has ended on this tick. *)
Theorem score_never_decreases n r touches w :
  reachableIn n r -> Z.of_nat n < tickBound ->
  exists r' w',
    update r touches w = Some (r', w') /\
    score r <= score r' /\
    (gameOver r = false ->
     exists r1 w1,
       beforeCollisions r touches w = Some (r1, w1) /\
       hitCountInRush r' = hitCountInRush r1 + Z.of_nat (struckNow r1) /\
       score r' = score r + gains (hitCountInRush r1) (struckNow r1) /\
       (rush r = true -> rush r1 = false -> hitCountInRush r1 = 0)).
Proof.
  intros Hr Hn.
  pose proof (reachableIn_scoreInv n r Hr ltac:(lia)) as HS.
  pose proof (reachable_Inv r (reachableIn_reachable n r Hr)) as HI.
  destruct (update_returns r touches w HI) as (r' & w' & H & _).
  exists r', w'. split; [exact H|].
  destruct (gameOver r) eqn:Hgo.
  - rewrite update_over in H by assumption. inversion H; subst.
    split; [lia|discriminate].
  - destruct (update_inv _ _ _ _ _ Hgo H) as (r1 & w1 & r2 & w2 & H1 & H2 & H3).
    pose proof (beforeCollisions_spec _ _ _ _ _ H1) as S1.
    pose proof (collideEnemies_spec _ _ _ _ H2) as S2.
    pose proof (afterCollisions_spec _ _ _ _ H3) as S3.
    destruct (tick_score touches n r r1 r2 r' Hn HS S1 S2 S3)
      as (_ & Hh & Hs & Hh1).
    pose proof (gains_bounds (struckNow r1) (hitCountInRush r1) ltac:(lia)) as Hg.
    split; [lia|]. intros _. exists r1, w1.
    repeat split; try assumption.
    intros Hrush Hrush1.
    destruct S1 as (_ & _ & _ & _ & _ & Hrule & _).
    unfold gageRule in Hrule. rewrite Hrush in Hrule.
    destruct (_ <=? _); [tauto|]. destruct Hrule as (_ & Hrt & _). congruence.
Qed.

End Collisions.

(** * The depth order of the background objects *)

Section Depth.

Context {E : Env}.

Import FloatOrder.

Lemma insertBy_perm {A} (less : A -> A -> bool) x l :
  Permutation (insertBy less x l) (x :: l).
Proof.
  induction l as [|y l IH]; simpl; [reflexivity|].
  destruct (less x y); [reflexivity|].
  rewrite IH. apply perm_swap.
Qed.

Lemma sortSlice_perm {A} (less : A -> A -> bool) l :
  Permutation (sortSlice less l) l.
Proof.
  induction l as [|x l IH]; simpl; [reflexivity|].
  unfold sortSlice in *. simpl. rewrite insertBy_perm. now constructor.
Qed.

Lemma insertBy_descending x l :
  isNumber (depth x) -> depthsAreNumbers l ->
  descendingZ l -> descendingZ (insertBy fartherThan x l).
Proof.
  unfold descendingZ, depthsAreNumbers. intros Hx Hl Hs.
  induction Hs as [|y l Hs IH Hy]; simpl.
  - repeat constructor.
  - inversion Hl as [|? ? Hny Hnl]; subst.
    unfold fartherThan at 1. fold (depth x) (depth y).
    destruct (depth y <? depth x)%float eqn:Hlt.
    + apply ltb_leb in Hlt. constructor; [now constructor|].
      constructor; [exact Hlt|].
      rewrite Forall_forall in *. intros z Hz.
      eapply leb_trans; [apply Hy, Hz|exact Hlt].
    + constructor; [now apply IH|].
      assert (Hxy : (depth x <=? depth y)%float = true)
        by now apply leb_total.
      apply (Permutation_Forall
               (Permutation_sym (insertBy_perm fartherThan x l))).
      now constructor.
Qed.

Lemma sortSlice_descending l :
  depthsAreNumbers l -> descendingZ (sortSlice fartherThan l).
Proof.
  unfold sortSlice. induction l as [|x l IH]; intros Hl; simpl.
  - constructor.
  - inversion Hl; subst. apply insertBy_descending; auto.
    unfold depthsAreNumbers.
    now apply (Permutation_Forall
                 (Permutation_sym (sortSlice_perm fartherThan l))).
Qed.

Lemma descendingZ_filter f l : descendingZ l -> descendingZ (filter f l).
Proof.
  unfold descendingZ. induction 1 as [|x l Hs IH Hx]; simpl; [constructor|].
  destruct (f x); [|exact IH].
  constructor; [exact IH|]. now apply Forall_filter.
Qed.

Lemma descendingZ_app l1 l2 :
  descendingZ l1 -> descendingZ l2 ->
  (forall a b, In a l1 -> In b l2 -> (depth b <=? depth a)%float = true) ->
  descendingZ (l1 ++ l2).
Proof.
  unfold descendingZ. intros H1 H2 H12.
  induction H1 as [|x l1 Hs IH Hx]; simpl; [exact H2|].
  constructor.
  - apply IH. intros a b Ha Hb. apply H12; [now right|exact Hb].
  - apply Forall_app. split; [exact Hx|].
    rewrite Forall_forall. intros b Hb. apply H12; [now left|exact Hb].
Qed.

Lemma drawnObjects_app c1 c2 :
  drawnObjects (c1 ++ c2) = drawnObjects c1 ++ drawnObjects c2.
Proof.
  induction c1 as [|c c1 IH]; simpl; [reflexivity|].
  destruct c; simpl; now rewrite IH.
Qed.

Lemma drawnObjects_objects os : drawnObjects (map DrawObject os) = os.
Proof. induction os as [|o os IH]; simpl; [reflexivity|now rewrite IH]. Qed.

Lemma drawnObjects_enemies es : drawnObjects (map DrawEnemy es) = [].
Proof. induction es as [|e es IH]; simpl; [reflexivity|exact IH]. Qed.

Lemma drawnObjects_effects efs : drawnObjects (map DrawEffect efs) = [].
Proof. induction efs as [|e efs IH]; simpl; [reflexivity|exact IH]. Qed.

(** The draw pass draws the objects behind the player, then those before. *)
Lemma drawnObjects_draw r :
  drawnObjects (draw r) =
    filter behindRhino (objects r) ++ filter beforeRhino (objects r).
Proof.
  unfold draw.
  rewrite !drawnObjects_app, !drawnObjects_objects, drawnObjects_enemies,
    drawnObjects_effects.
  simpl. now rewrite app_nil_r.
Qed.

(** On a list in descending depth, the objects behind the player come
    first: when the player's depth is a number, the two passes of the draw
    pass draw every object once, in the order of the list. *)
Lemma behind_then_before os :
  isNumber rhinoZ -> depthsAreNumbers os -> descendingZ os ->
  filter behindRhino os ++ filter beforeRhino os = os.
Proof.
  unfold descendingZ, depthsAreNumbers. intros Hr Hn Hs.
  induction Hs as [|o os Hs IH Ho]; simpl; [reflexivity|].
  inversion Hn as [|? ? Hno Hnos]; subst.
  unfold behindRhino at 1, beforeRhino at 1. fold (depth o).
  destruct (rhinoZ <? depth o)%float eqn:Hlt.
  - rewrite (ltb_not_leb _ _ Hlt). simpl. f_equal. now apply IH.
  - assert (Hle : (depth o <=? rhinoZ)%float = true) by now apply leb_total.
    rewrite Hle.
    assert (Hnone : filter behindRhino os = []).
    { clear IH Hs Hnos Hn. induction Ho as [|b os Hb _ IHos]; simpl; [reflexivity|].
      unfold behindRhino at 1. fold (depth b).
      destruct (rhinoZ <? depth b)%float eqn:Hlt2; [|exact IHos].
      apply ltb_not_leb in Hlt2.
      rewrite (leb_trans _ _ _ Hb Hle) in Hlt2. discriminate. }
    rewrite Hnone in *. simpl in *. f_equal. exact (IH Hnos).
Qed.

(** Once a tick has run, the objects are in descending depth. *)
Lemma tick_descending r r' :
  tickEnd r r' -> depthsAreNumbers (objects r') -> descendingZ (objects r').
Proof.
  intros (_ & _ & Ho) Hn. rewrite Ho in *.
  apply sortSlice_descending.
  exact (Permutation_Forall (sortSlice_perm fartherThan _) Hn).
Qed.

Lemma over_descending r :
  reachable r -> gameOver r = true ->
  depthsAreNumbers (objects r) -> descendingZ (objects r).
Proof.
  induction 1 as [m w r w' H|r touches w r' w' _ IH H]; intros Hgo Hn.
  - destruct (newGameRunner_spec _ _ _ _ H) as (Hgo0 & _). congruence.
  - destruct (gameOver r) eqn:Hgo0.
    + rewrite update_over in H by assumption. inversion H; subst. auto.
    + destruct (update_spec r touches Hgo0 _ _ _ H) as (r1 & r2 & _ & _ & H3).
      now apply (tick_descending r2).
Qed.

(** ** No depth is NaN

    In an environment whose random source and inverse projection behave as
    documented, every object is created with a depth that is a number and
    keeps one. *)

Section Numbers.

Import FloatArith.

Hypothesis Hrand : unitRandom.
Hypothesis Hkeep : keepsDepth.

Lemma randFloat64_finite : post randFloat64 isFinite.
Proof.
  intros w u w' H. unfold randFloat64 in H.
  destruct (Hrand (random w)) as [H0 H1].
  destruct (rand_Float64 (random w)) as [u0 g]. inversion H; subst.
  now apply unit_interval_finite.
Qed.

Lemma createBackgroundObject_number typ x :
  post (createBackgroundObject typ x) (fun o => isNumber (depth o)).
Proof.
  unfold createBackgroundObject.
  destruct (_ || _); [|destruct (_ =? _)%string];
    (eapply post_bind; [apply randFloat64_finite|]; intros u Hu;
     apply post_ret; unfold depth; cbn [o_pos Vector3D.Z];
     apply Hkeep, add_mul_number;
     [unfold isFinite; vm_compute; exact I
     |exact Hu
     |unfold isFinite; vm_compute; exact I]).
Qed.

Lemma appendObject_numbers typ x r :
  depthsAreNumbers (objects r) ->
  post (appendObject typ x r) (fun r' => depthsAreNumbers (objects r')).
Proof.
  intros Hn. unfold appendObject.
  eapply post_bind; [apply createBackgroundObject_number|]. intros o Ho.
  apply post_ret. simpl. apply Forall_app. split; [exact Hn|].
  constructor; [exact Ho|constructor].
Qed.

Lemma spawnObjects_numbers r :
  depthsAreNumbers (objects r) ->
  post (spawnObjects r) (fun r' => depthsAreNumbers (objects r')).
Proof.
  intros Hn. unfold spawnObjects.
  eapply post_bind; [apply post_any|intros n _].
  eapply post_bind with (P := fun r1 => depthsAreNumbers (objects r1)).
  { destruct (_ =? _); [now apply appendObject_numbers|now apply post_ret]. }
  intros r1 H1.
  eapply post_bind; [now apply appendObject_numbers|]. intros r2 H2.
  eapply post_bind; [apply post_any|intros m _].
  destruct (_ =? _); [now apply appendObject_numbers|now apply post_ret].
Qed.

Lemma populate_numbers typ n : forall r,
  depthsAreNumbers (objects r) ->
  post (populate typ n r) (fun r' => depthsAreNumbers (objects r')).
Proof.
  induction n as [|n IH]; intros r Hn; simpl.
  - now apply post_ret.
  - eapply post_bind; [apply post_any|intros u _].
    eapply post_bind; [now apply appendObject_numbers|]. intros r1 H1.
    now apply IH.
Qed.

Lemma newGameRunner_numbers mute0 :
  post (newGameRunner mute0) (fun r => depthsAreNumbers (objects r)).
Proof.
  unfold newGameRunner.
  eapply post_bind; [apply populate_numbers; constructor|]. intros r1 H1.
  eapply post_bind; [now apply populate_numbers|]. intros r2 H2.
  now apply populate_numbers.
Qed.

Lemma beforeCollisions_numbers r touches :
  depthsAreNumbers (objects r) ->
  post (beforeCollisions r touches) (fun r' => depthsAreNumbers (objects r')).
Proof.
  intros Hn. unfold beforeCollisions.
  eapply post_bind; [apply updateGage_spec|].
  intros r1 (_ & _ & _ & _ & _ & _ & Ho1 & _). simpl in Ho1.
  eapply post_bind; [apply spawnEnemy_spec|]. intros r2 (_ & Ho2 & _).
  apply spawnObjects_numbers. now rewrite Ho2, Ho1.
Qed.

Lemma tickEnd_numbers r r' :
  tickEnd r r' -> depthsAreNumbers (objects r) -> depthsAreNumbers (objects r').
Proof.
  intros (_ & _ & Ho) Hn. rewrite Ho. unfold depthsAreNumbers.
  apply (Permutation_Forall (Permutation_sym (sortSlice_perm fartherThan _))).
  apply Forall_filter. apply Forall_map.
  eapply Forall_impl; [|exact Hn]. intros o Hnum.
  unfold depth, BackgroundObject_update. cbn [o_pos Vector3D.Add Vector3D.Z].
  now apply add_zero_number.
Qed.

Lemma update_numbers r touches w r' w' :
  depthsAreNumbers (objects r) -> update r touches w = Some (r', w') ->
  depthsAreNumbers (objects r').
Proof.
  intros Hn H. destruct (gameOver r) eqn:Hgo.
  - rewrite update_over in H by assumption. now inversion H; subst.
  - destruct (update_inv _ _ _ _ _ Hgo H) as (r1 & w1 & r2 & w2 & H1 & H2 & H3).
    apply (tickEnd_numbers r2); [exact (afterCollisions_spec _ _ _ _ H3)|].
    destruct (collideEnemies_spec _ _ _ _ H2) as (_ & _ & _ & _ & Ho & _).
    rewrite Ho. exact (beforeCollisions_numbers r touches Hn _ _ _ H1).
Qed.

Lemma reachable_numbers r : reachable r -> depthsAreNumbers (objects r).
Proof.
  induction 1 as [m w r w' H|r touches w r' w' _ IH H].
  - exact (newGameRunner_numbers m _ _ _ H).
  - exact (update_numbers _ _ _ _ _ IH H).
Qed.

End Numbers.

(** The draw pass, around the player. *)
Lemma draw_around_rhino r :
  exists before after,
    draw r = before ++ DrawRhino :: after /\
    drawnObjects before = filter behindRhino (objects r) /\
    drawnObjects after = filter beforeRhino (objects r).
Proof.
  exists ([DrawBackground] ++ map DrawObject (filter behindRhino (objects r))),
    ([DrawGage] ++ map DrawEnemy (enemies r)
       ++ map DrawObject (filter beforeRhino (objects r))
       ++ map DrawEffect (effects r)).
  split; [|split].
  - unfold draw. now rewrite <- !app_assoc.
  - simpl. apply drawnObjects_objects.
  - rewrite !drawnObjects_app, drawnObjects_objects, drawnObjects_enemies,
      drawnObjects_effects.
    simpl. now rewrite app_nil_r.
Qed.

(** C8: after a call of [update] on a runner a game can hold, the draw pass
    draws, before the player, the objects deeper than the player and, after
    the player, those at the player's depth or nearer, each group in the
    order of the list of objects.  Provided no object has NaN for its depth,
    that list is in descending world-Z, and so is the whole sequence of
    objects drawn, which is the list itself when the player's depth is a
    number.  No object has NaN for its depth when the random source hands
    out floats of [0, 1) and the inverse projection returns a number for the
    depth it is given. *)
Theorem objects_drawn_far_to_near r touches w :
  reachable r ->
  exists r' w',
    update r touches w = Some (r', w') /\
    (exists before after,
       draw r' = before ++ DrawRhino :: after /\
       drawnObjects before = filter behindRhino (objects r') /\
       drawnObjects after = filter beforeRhino (objects r')) /\
    Forall (fun o => (rhinoZ <? depth o)%float = true)
      (filter behindRhino (objects r')) /\
    Forall (fun o => (depth o <=? rhinoZ)%float = true)
      (filter beforeRhino (objects r')) /\
    (depthsAreNumbers (objects r') ->
     descendingZ (objects r') /\
     descendingZ (drawnObjects (draw r')) /\
     (isNumber rhinoZ -> drawnObjects (draw r') = objects r')) /\
    (unitRandom -> keepsDepth -> depthsAreNumbers (objects r')).
Proof.
  intros Hr. pose proof (reachable_Inv _ Hr) as HI.
  destruct (update_returns r touches w HI) as (r' & w' & H & _).
  exists r', w'. split; [exact H|].
  assert (Hb : Forall (fun o => (rhinoZ <? depth o)%float = true)
                 (filter behindRhino (objects r'))).
  { rewrite Forall_forall. intros o Ho. now apply filter_In in Ho. }
  assert (Hf : Forall (fun o => (depth o <=? rhinoZ)%float = true)
                 (filter beforeRhino (objects r'))).
  { rewrite Forall_forall. intros o Ho. now apply filter_In in Ho. }
  split; [apply draw_around_rhino|].
  split; [exact Hb|]. split; [exact Hf|]. split.
  - intros Hn.
    assert (Hs : descendingZ (objects r')).
    { destruct (gameOver r) eqn:Hgo.
      - rewrite update_over in H by assumption. inversion H; subst.
        now apply over_descending.
      - destruct (update_spec r touches Hgo _ _ _ H) as (r1 & r2 & _ & _ & H3).
        now apply (tick_descending r2). }
    split; [exact Hs|]. split.
    + rewrite drawnObjects_draw.
      apply descendingZ_app; try now apply descendingZ_filter.
      intros a b Ha Hb'. rewrite Forall_forall in Hb, Hf.
      eapply leb_trans; [apply Hf, Hb'|]. apply ltb_leb, Hb, Ha.
    + intros Hz. rewrite drawnObjects_draw. now apply behind_then_before.
  - intros Hrand Hkeep.
    apply (update_numbers Hrand Hkeep r touches w r' w'); [|exact H].
    now apply reachable_numbers.
Qed.

End Depth.

(** * The life of an enemy *)

Lemma filter_subsequence {A} (f : A -> bool) l : subsequence (filter f l) l.
Proof.
  induction l as [|x l IH]; simpl; [constructor|].
  destruct (f x); now constructor.
Qed.

Section Enemies.

Context {E : Env}.

(** C9, as the code has it: on a tick of a runner that is not over, with
    [r2] the runner after the collision loop has moved the enemies, the
    enemies the tick leaves are those of [r2] whose vertical position is
    below [screenHeight + 100 = 580], in the order they have in [r2]; an
    enemy whose position is 580 or more, or not below 580 in any other way,
    is removed. *)
Theorem enemies_pruned_at_580 r touches w :
  gameOver r = false -> Forall wfEnemy (enemies r) ->
  exists r1 w1 r2 w2 r' w',
    beforeCollisions r touches w = Some (r1, w1) /\
    collideEnemies r1 w1 = Some (r2, w2) /\
    afterCollisions r2 w2 = Some (r', w') /\
    update r touches w = Some (r', w') /\
    (forall e, In e (enemies r') <->
               In e (enemies r2) /\ (Vector2D.Y (pos e) <? 580)%float = true) /\
    subsequence (enemies r') (enemies r2).
Proof.
  intros Hgo Hwf.
  destruct (update_total r touches Hwf w) as (r' & w' & H).
  destruct (update_inv _ _ _ _ _ Hgo H) as (r1 & w1 & r2 & w2 & H1 & H2 & H3).
  exists r1, w1, r2, w2, r', w'.
  destruct (afterCollisions_spec _ _ _ _ H3) as (_ & He & _).
  unfold pruneEnemies in He.
  repeat (split; [assumption|]). split.
  - intros e. rewrite He. rewrite filter_In. reflexivity.
  - rewrite He. apply filter_subsequence.
Qed.

(** ** The hit flag *)

Lemma isTurn_rule t :
  isTurn t ->
  collisionRule (before t) (runnerBefore t) (after t) (runnerAfter t).
Proof. intros (w & w' & H). exact (collideEnemy_spec _ _ _ _ _ H). Qed.

Lemma turn_hit t :
  isTurn t -> hit (before t) = true ->
  hit (after t) = true /\ ~ scores t /\ ~ kills t.
Proof.
  intros Ht Hh. apply isTurn_rule in Ht.
  destruct Ht as (_ & _ & _ & _ & _ & _ & Hhit & _ & Hgo & Hrest).
  assert (Hhits : hits (before t) = false) by (unfold hits; now rewrite Hh).
  rewrite Hhits in *. simpl in *. rewrite orb_false_r in *.
  destruct Hrest as (Hhc & Hsc & _).
  repeat split; try congruence.
  - intros [Hs|Hs]; congruence.
  - intros [Hk1 Hk2]. congruence.
Qed.

Lemma turn_scores t :
  isTurn t -> scores t -> hit (before t) = false /\ hit (after t) = true.
Proof.
  intros Ht Hs. destruct (hit (before t)) eqn:Hh.
  - exfalso. now apply (proj1 (proj2 (turn_hit t Ht Hh))).
  - split; [reflexivity|]. apply isTurn_rule in Ht.
    destruct Ht as (_ & _ & _ & _ & _ & _ & Hhit & _ & _ & Hrest).
    destruct (hits (before t) && rush (runnerBefore t)) eqn:Hb.
    + rewrite Hhit. now rewrite orb_true_r.
    + destruct Hrest as (Hhc & Hsc & _). destruct Hs; congruence.
Qed.

Lemma lifetime_tail t ts : lifetime (t :: ts) -> lifetime ts.
Proof. inversion 1; subst; [constructor|assumption]. Qed.

Lemma lifetime_suffix ts1 ts2 : lifetime (ts1 ++ ts2) -> lifetime ts2.
Proof.
  induction ts1 as [|t ts1 IH]; simpl; [auto|].
  intros H. apply IH. now apply lifetime_tail in H.
Qed.

Lemma lifetime_head t ts : lifetime (t :: ts) -> isTurn t.
Proof. now inversion 1; subst. Qed.

(** Once the flag is set, every later turn finds it set and leaves it set,
    and none of them scores or ends the game. *)
Lemma lifetime_hit ts : forall t,
  lifetime (t :: ts) -> hit (before t) = true ->
  Forall (fun t' => hit (before t') = true /\ hit (after t') = true /\
                    ~ scores t' /\ ~ kills t') (t :: ts).
Proof.
  induction ts as [|t' ts IH]; intros t Hl Hh.
  - constructor; [|constructor].
    split; [exact Hh|]. apply turn_hit; [now apply lifetime_head in Hl|exact Hh].
  - inversion Hl as [| |? ? ? Ht Heq Hgo Hl']; subst.
    destruct (turn_hit t Ht Hh) as (Ha & Hs & Hk).
    constructor; [repeat split; assumption|].
    apply IH; [exact Hl'|]. now rewrite <- Heq.
Qed.

(** A turn with another one after it has not left the runner over. *)
Lemma lifetime_not_last ts1 t t' ts2 :
  lifetime (ts1 ++ t :: t' :: ts2) -> gameOver (runnerAfter t) = false.
Proof.
  intros H. apply lifetime_suffix in H. now inversion H; subst.
Qed.

(** C10: along the successive turns of an enemy in the collision loop, a
    turn that finds the hit flag set leaves it set, and neither it nor any
    later turn scores or ends the game; a turn that scores finds the flag
    clear and sets it, and no turn before or after it scores; a turn that
    ends the game is the last, and no turn before it ended the game. *)
Theorem hit_flag_is_monotone ts1 t ts2 :
  lifetime (ts1 ++ t :: ts2) ->
  (hit (before t) = true ->
   Forall (fun t' => hit (before t') = true /\ hit (after t') = true /\
                     ~ scores t' /\ ~ kills t') (t :: ts2)) /\
  (scores t ->
   hit (before t) = false /\ hit (after t) = true /\
   Forall (fun t' => ~ scores t') ts1 /\ Forall (fun t' => ~ scores t') ts2) /\
  (kills t -> ts2 = [] /\ Forall (fun t' => ~ kills t') ts1).
Proof.
  intros Hl. pose proof (lifetime_suffix _ _ Hl) as Hl2.
  pose proof (lifetime_head _ _ Hl2) as Ht.
  split; [|split].
  - intros Hh. now apply lifetime_hit.
  - intros Hs. destruct (turn_scores t Ht Hs) as [Hb Ha].
    repeat split; try assumption.
    + (* an earlier scoring turn would have set the flag *)
      rewrite Forall_forall. intros t0 Hin Hs0.
      apply in_split in Hin. destruct Hin as (l1 & l2 & ->).
      rewrite <- app_assoc in Hl. simpl in Hl.
      apply lifetime_suffix in Hl.
      destruct (turn_scores t0 (lifetime_head _ _ Hl) Hs0) as [_ Ha0].
      destruct (l2 ++ t :: ts2) as [|t1 rest] eqn:Heq.
      { destruct l2; discriminate. }
      inversion Hl as [| |? ? ? _ Hnext _ Hl1]; subst.
      assert (Hh1 : hit (before t1) = true) by congruence.
      pose proof (lifetime_hit _ _ Hl1 Hh1) as Hall.
      rewrite <- Heq in Hall. rewrite Forall_forall in Hall.
      destruct (Hall t (in_elt t l2 ts2)) as (_ & _ & Hns & _).
      exact (Hns Hs).
    + destruct ts2 as [|t1 ts2]; [constructor|].
      inversion Hl2 as [| |? ? ? _ Hnext _ Hl1]; subst.
      assert (Hh1 : hit (before t1) = true) by congruence.
      pose proof (lifetime_hit _ _ Hl1 Hh1) as Hall.
      eapply Forall_impl; [|exact Hall]. simpl. tauto.
  - intros [Hk1 Hk2]. split.
    + destruct ts2 as [|t1 ts2]; [reflexivity|].
      pose proof (lifetime_not_last _ _ _ _ Hl). congruence.
    + rewrite Forall_forall. intros t0 Hin [_ Hk0].
      apply in_split in Hin. destruct Hin as (l1 & l2 & ->).
      rewrite <- app_assoc in Hl. simpl in Hl.
      destruct (l2 ++ t :: ts2) as [|t1 rest] eqn:Heq.
      { destruct l2; discriminate. }
      pose proof (lifetime_not_last _ _ _ _ Hl). congruence.
Qed.

(** The enemies a tick leaves have each had their turn in its loop. *)
Lemma collideLoop_turns es : forall r w es' r' w',
  collideLoop es r w = Some ((es', r'), w') ->
  Forall2 (fun e e' => exists t, isTurn t /\ before t = e /\ after t = e')
    es es'.
Proof.
  induction es as [|e es IH]; intros r w es' r' w' H; simpl in H.
  - inversion H; subst. constructor.
  - unfold bind in H.
    destruct (collideEnemy e r w) as [[[e1 r1] w1]|] eqn:H1; [|discriminate].
    destruct (collideLoop es r1 w1) as [[[es2 r2] w2]|] eqn:H2; [|discriminate].
    inversion H; subst. constructor; [|eapply IH; eauto].
    exists {| before := e; runnerBefore := r; after := e1; runnerAfter := r1 |}.
    repeat split. now exists w, w1.
Qed.

Lemma Forall2_In_r {A B} (R : A -> B -> Prop) l l' y :
  Forall2 R l l' -> In y l' -> exists x, In x l /\ R x y.
Proof.
  induction 1 as [|x y0 l l' Hxy _ IH]; intros Hin; [destruct Hin|].
  destruct Hin as [<-|Hin].
  - exists x. split; [now left|exact Hxy].
  - destruct (IH Hin) as (x0 & Hx0 & Hr). exists x0. split; [now right|exact Hr].
Qed.

(** Every enemy a tick leaves has had one turn in the loop of that tick,
    as an enemy of the runner before the tick or as the enemy the tick let
    in: the turns of [lifetime] are the turns of the successive ticks. *)
Lemma update_turns r touches w r' w' :
  gameOver r = false -> update r touches w = Some (r', w') ->
  forall e', In e' (enemies r') ->
    exists t, isTurn t /\ after t = e' /\
              (In (before t) (enemies r) \/ before t = newEnemy).
Proof.
  intros Hgo H e' Hin.
  destruct (update_inv _ _ _ _ _ Hgo H) as (r1 & w1 & r2 & w2 & H1 & H2 & H3).
  destruct (afterCollisions_spec _ _ _ _ H3) as (_ & He & _).
  rewrite He in Hin. unfold pruneEnemies in Hin. apply filter_In in Hin.
  destruct Hin as [Hin _].
  unfold collideEnemies, bind in H2.
  destruct (collideLoop (enemies r1) r1 w1) as [[[es ra] wa]|] eqn:Hloop;
    [|discriminate].
  inversion H2; subst r2 w2; clear H2. simpl in Hin.
  destruct (Forall2_In_r _ _ _ _ (collideLoop_turns _ _ _ _ _ _ Hloop) Hin)
    as (e & He1 & t & Ht & Hb & Ha).
  exists t. repeat split; try assumption.
  destruct (beforeCollisions_spec _ _ _ _ _ H1)
    as (_ & _ & _ & _ & _ & _ & [Hes|Hes]); rewrite Hes in He1.
  - left. now rewrite Hb.
  - apply in_app_or in He1. destruct He1 as [He1|[He1|[]]].
    + left. now rewrite Hb.
    + right. now rewrite Hb.
Qed.

End Enemies.

(** * The theorems on concrete runs *)

Lemma fresh_reachable : reachable (E := Sample.env) Sample.fresh.
Proof.
  eapply reachable_new with (mute := false) (w := Sample.world [] []).
  vm_compute. reflexivity.
Qed.

Lemma rushing_reachable : reachable (E := Sample.env) Sample.rushing.
Proof.
  eapply reachable_run with
    (inputs := [[Sample.JustTouched]; [Sample.Held]; [Sample.Held];
                [Sample.JustReleased]])
    (r := Sample.fresh) (w := Sample.world [] []).
  - exact fresh_reachable.
  - vm_compute. reflexivity.
Qed.

(** The runner of a new game, touched on its first tick. *)
Lemma gage_within_bounds_witness :
  reachable (E := Sample.env) Sample.fresh /\
  0 <= gage Sample.fresh <= gageMax /\
  exists r' w',
    update (E := Sample.env) Sample.fresh [Sample.JustTouched]
      (Sample.world [] []) = Some (r', w') /\
    0 <= gage r' <= gageMax.
Proof.
  split; [exact fresh_reachable|].
  exact (gage_within_bounds (E := Sample.env) Sample.fresh
           [Sample.JustTouched] (Sample.world [] []) fresh_reachable).
Defined.

(** A runner that is over, with an enemy on the player and a touch. *)
Lemma update_when_over_witness :
  let r := Sample.runner 7 false true 2 30 [Sample.enemyAt 176 180] in
  gameOver r = true /\
  update (E := Sample.env) r [Sample.JustTouched] (Sample.world [0] []) =
    Some (r, Sample.world [0] []) /\
  run (E := Sample.env) [[Sample.JustTouched]; []] r (Sample.world [0] []) =
    Some (r, Sample.world [0] []).
Proof.
  intros r. split; [reflexivity|].
  exact (update_when_over (E := Sample.env) r [Sample.JustTouched]
           [[Sample.JustTouched]; []] (Sample.world [0] []) eq_refl).
Defined.

(** C5 fails on a held touch at gauge 0: on the runner of a new game (gauge
    0, charging, not over) a touch that is active but did not begin on this
    tick leaves the gauge at 0. *)
Lemma held_touch_on_empty_gage :
  rush (E := Sample.env) Sample.fresh = false /\
  gameOver (E := Sample.env) Sample.fresh = false /\
  gage (E := Sample.env) Sample.fresh = 0 /\
  AnyTouchesActive (Env := Sample.env) [Sample.Held] = true /\
  AnyTouchesJustTouched (Env := Sample.env) [Sample.Held] = false /\
  exists r' w',
    update (E := Sample.env) Sample.fresh [Sample.Held] (Sample.world [] []) =
      Some (r', w') /\
    gage r' = 0 /\
    gage r' <> Z.min (gage (E := Sample.env) Sample.fresh + 1) gageMax.
Proof.
  repeat (split; [reflexivity|]).
  eexists. eexists. split; [vm_compute; reflexivity|].
  split; [reflexivity|]. vm_compute. discriminate.
Qed.

(** The runner of a new game on the tick a touch begins: the gauge is 1. *)
Lemma charging_tick_witness :
  reachable (E := Sample.env) Sample.fresh /\
  exists r' w',
    update (E := Sample.env) Sample.fresh [Sample.JustTouched]
      (Sample.world [] []) = Some (r', w') /\
    gage r' = 1.
Proof.
  split; [exact fresh_reachable|].
  exact (charging_tick (E := Sample.env) Sample.fresh [Sample.JustTouched]
           (Sample.world [] []) fresh_reachable eq_refl eq_refl).
Defined.

(** A rush entered with gauge 3 is over after three ticks. *)
Lemma rush_lasts_gage_ticks_witness :
  reachable (E := Sample.env) Sample.rushing /\
  rush Sample.rushing = true /\ gage Sample.rushing = 3 /\
  exists r' w',
    run (E := Sample.env) [[]; [Sample.JustTouched]; []] Sample.rushing
      (Sample.world [] []) = Some (r', w') /\
    gage r' = 0 /\ rush r' = false /\ hitCountInRush r' = 0.
Proof.
  split; [exact rushing_reachable|].
  split; [reflexivity|]. split; [reflexivity|].
  destruct (rush_lasts_gage_ticks (E := Sample.env) Sample.rushing
              [[]; [Sample.JustTouched]; []] (Sample.world [] [])
              rushing_reachable eq_refl)
    as (_ & r' & w' & H & _ & _ & G).
  - vm_compute. discriminate.
  - exists r', w'. split; [exact H|]. exact (G eq_refl).
Defined.

(** A charging runner with an enemy on the player: the tick ends the game. *)
Lemma game_over_iff_lethal_collision_witness :
  let r := Sample.runner 0 false false 0 0 [Sample.enemyAt 180 184] in
  let w := Sample.world [] [] in
  gameOver r = false /\
  exists r' w',
    update (E := Sample.env) r [] w = Some (r', w') /\ gameOver r' = true.
Proof.
  intros r w. split; [reflexivity|].
  destruct (game_over_iff_lethal_collision (E := Sample.env) r [] w
              (Sample.result (beforeCollisions (E := Sample.env) r [] w) r)
              (match beforeCollisions (E := Sample.env) r [] w with
               | Some (_, w1) => w1
               | None => w
               end))
    as (r' & w' & H & Hiff).
  - reflexivity.
  - repeat constructor; discriminate.
  - vm_compute. reflexivity.
  - exists r', w'. split; [exact H|]. apply Hiff. split; [reflexivity|].
    exists (Sample.enemyAt 180 184).
    split; [left; reflexivity|]. split; reflexivity.
Defined.

Lemma reachableIn_run inputs : forall n r w r' w',
  reachableIn (E := Sample.env) n r ->
  run (E := Sample.env) inputs r w = Some (r', w') ->
  reachableIn (E := Sample.env) (n + List.length inputs) r'.
Proof.
  induction inputs as [|touches inputs IH]; intros n r w r' w' Hr H; simpl in H.
  - inversion H; subst. now rewrite Nat.add_0_r.
  - unfold bind in H.
    destruct (update r touches w) as [[r1 w1]|] eqn:H1; [|discriminate].
    simpl List.length. rewrite Nat.add_succ_r.
    apply (IH (S n) r1 w1 r' w'); [|exact H].
    eapply reachableIn_update; eauto.
Qed.

Lemma play_reachableIn n r w :
  Sample.play n = Some (r, w) ->
  reachableIn (E := Sample.env) (List.length (Sample.script n)) r.
Proof.
  unfold Sample.play, bind. intros H.
  destruct (newGameRunner false Sample.steady) as [[r0 w0]|] eqn:H0;
    [|discriminate].
  apply (reachableIn_run _ 0%nat r0 w0 r w); [|exact H].
  eapply reachableIn_new; eauto.
Qed.

Lemma wfEnemies_check (es : list Enemy) :
  forallb (fun e => implb (hit e)
                      (match hitV e with Some _ => true | None => false end))
    es = true ->
  Forall wfEnemy es.
Proof.
  intros H. rewrite forallb_forall in H. apply Forall_forall.
  intros e He Hh. specialize (H e He). rewrite Hh in H.
  destruct (hitV e); [discriminate|discriminate H].
Qed.

Lemma result_eq {A} (o : option (A * @World Sample.env)) a w d :
  o = Some (a, w) -> Sample.result o d = a.
Proof. intros ->. reflexivity. Qed.

Lemma played_reachableIn n m r w :
  Sample.play n = Some (r, w) ->
  List.length (Sample.script n) = m ->
  reachableIn (E := Sample.env) m r.
Proof. intros H <-. now apply play_reachableIn in H. Qed.

Lemma runner188_reachableIn :
  reachableIn (E := Sample.env) 188 Sample.runner188.
Proof.
  apply (played_reachableIn 188 188 _ Sample.world188);
    vm_compute; reflexivity.
Qed.

Lemma runner242_reachableIn :
  reachableIn (E := Sample.env) 242 Sample.runner242.
Proof.
  apply (reachableIn_run (repeat [] 54) 188 Sample.runner188 Sample.world188
           Sample.runner242 Sample.world242).
  - exact runner188_reachableIn.
  - vm_compute. reflexivity.
Qed.

Lemma runner243_reachableIn :
  reachableIn (E := Sample.env) 243 Sample.runner243.
Proof.
  apply (reachableIn_update (E := Sample.env) 242 Sample.runner242 []
           Sample.world242 Sample.runner243 Sample.world243).
  - exact runner242_reachableIn.
  - vm_compute. reflexivity.
Qed.

(** Tick 189 of the sample game: the enemy is struck, the first hit of the
    rush, and the score goes from 0 to 10. *)
Lemma score_never_decreases_witness :
  reachableIn (E := Sample.env) 188 Sample.runner188 /\
  score Sample.runner188 = 0 /\
  exists r' w',
    update (E := Sample.env) Sample.runner188 [] Sample.world188 =
      Some (r', w') /\
    score r' = 10 /\ hitCountInRush r' = 1.
Proof.
  split; [exact runner188_reachableIn|]. split; [reflexivity|].
  destruct (score_never_decreases (E := Sample.env) 188 Sample.runner188
              [] Sample.world188 runner188_reachableIn eq_refl)
    as (r' & w' & H & _ & _).
  exists r', w'. split; [exact H|].
  rewrite <- (result_eq _ _ _ Sample.runner188 H).
  split; vm_compute; reflexivity.
Defined.

(** The fourth hit of a rush adds 40 to the score. *)
Example fourth_hit_adds_40 :
  gains 3 1 = 40 /\
  exists r' w',
    update (E := Sample.env)
      (Sample.runner 5 true false 3 100 [Sample.enemyAt 183.5 191]) []
      (Sample.world [] []) = Some (r', w') /\
    hitCountInRush r' = 4 /\ score r' = 140.
Proof.
  split; [reflexivity|].
  eexists. eexists. split; [vm_compute; reflexivity|].
  split; reflexivity.
Qed.

(** The sample environment behaves as documented. *)
Lemma sample_unitRandom : unitRandom (E := Sample.env).
Proof.
  intros [ints floats]. simpl. unfold Sample.rand_Float64. simpl.
  destruct floats as [|x xs]; simpl; [split; reflexivity|].
  destruct ((0 <=? x)%float && (x <? 1)%float) eqn:Hx.
  - now apply andb_prop in Hx.
  - split; reflexivity.
Qed.

Lemma sample_keepsDepth : keepsDepth (E := Sample.env).
Proof.
  intros s x y z cy sz sw sh Hz. simpl.
  unfold Sample.ConvertCoordinateScreenToWorld. simpl.
  unfold Sample.isNaN. unfold isNumber in Hz. rewrite Hz. simpl. exact Hz.
Qed.

(** The first tick of a new game: its 219 objects come out in descending
    depth, and are drawn in that order. *)
Lemma objects_drawn_far_to_near_witness :
  reachable (E := Sample.env) Sample.fresh /\
  exists r' w',
    update (E := Sample.env) Sample.fresh [Sample.JustTouched]
      (Sample.world [] []) = Some (r', w') /\
    List.length (objects r') = 219%nat /\
    descendingZ (objects r') /\
    drawnObjects (draw r') = objects r'.
Proof.
  split; [exact fresh_reachable|].
  destruct (objects_drawn_far_to_near (E := Sample.env) Sample.fresh
              [Sample.JustTouched] (Sample.world [] []) fresh_reachable)
    as (r' & w' & H & _ & _ & _ & Hd & Hn).
  exists r', w'. split; [exact H|].
  pose proof (result_eq _ _ _ Sample.fresh H) as Hres.
  destruct (Hd (Hn sample_unitRandom sample_keepsDepth))
    as (Hs & _ & Hall).
  split; [rewrite <- Hres; vm_compute; reflexivity|].
  split; [exact Hs|]. apply Hall. vm_compute. reflexivity.
Defined.

(** C9 fails at 580 exactly.  On tick 244 of the sample game the enemy that
    was struck on tick 189 with the impulse (11.875, -23.75) comes down to
    the vertical position 580: it has not exceeded 580, and the tick removes
    it. *)
Lemma enemy_at_580_is_removed :
  reachableIn (E := Sample.env) 243 Sample.runner243 /\
  gameOver Sample.runner243 = false /\
  exists r1 w1 r2 w2 r' w' e,
    beforeCollisions (E := Sample.env) Sample.runner243 [] Sample.world243 =
      Some (r1, w1) /\
    collideEnemies r1 w1 = Some (r2, w2) /\
    afterCollisions r2 w2 = Some (r', w') /\
    update (E := Sample.env) Sample.runner243 [] Sample.world243 =
      Some (r', w') /\
    enemies r2 = [e] /\
    Vector2D.Y (pos e) = 580%float /\
    (580 <? Vector2D.Y (pos e))%float = false /\
    enemies r' = [].
Proof.
  split; [exact runner243_reachableIn|].
  split; [reflexivity|].
  do 7 eexists.
  split; [vm_compute; reflexivity|].
  split; [vm_compute; reflexivity|].
  split; [vm_compute; reflexivity|].
  split; [vm_compute; reflexivity|].
  split; [reflexivity|].
  split; [reflexivity|].
  split; reflexivity.
Qed.

(** Tick 243 of the sample game: the struck enemy is at the vertical
    position 548.75 after the loop, and the tick keeps it. *)
Lemma enemies_pruned_at_580_witness :
  gameOver Sample.runner242 = false /\
  exists r' w' e,
    update (E := Sample.env) Sample.runner242 [] Sample.world242 =
      Some (r', w') /\
    enemies r' = [e] /\ Vector2D.Y (pos e) = 548.75%float.
Proof.
  split; [reflexivity|].
  assert (Hwf : Forall wfEnemy (enemies Sample.runner242)).
  { apply wfEnemies_check. vm_compute. reflexivity. }
  destruct (enemies_pruned_at_580 (E := Sample.env) Sample.runner242 []
              Sample.world242 eq_refl Hwf)
    as (r1 & w1 & r2 & w2 & r' & w' & _ & _ & _ & H & _ & _).
  pose proof (result_eq _ _ _ Sample.runner242 H) as Hres.
  exists r', w'. eexists. split; [exact H|].
  rewrite <- Hres. split; vm_compute; reflexivity.
Defined.

(** The enemy of the sample game on the tick it is struck, and on the next:
    the first turn scores and sets the flag, the second finds it set and
    does not score. *)
Lemma hit_flag_is_monotone_witness :
  let t1 := Sample.turnOf (Sample.enemyAt 183.5 191)
              (Sample.runner 54 true false 0 0 []) in
  let t2 := Sample.turnOf (after t1) (runnerAfter t1) in
  lifetime (E := Sample.env) [t1; t2] /\
  scores t1 /\ hit (before t1) = false /\ hit (after t1) = true /\
  ~ scores t2 /\ hit (after t2) = true.
Proof.
  intros t1 t2.
  assert (Hl : lifetime (E := Sample.env) ([] ++ t1 :: [t2])).
  { apply lifetime_next.
    - exists (Sample.world [] []). eexists. vm_compute. reflexivity.
    - reflexivity.
    - reflexivity.
    - apply lifetime_last.
      exists (Sample.world [] []). eexists. vm_compute. reflexivity. }
  assert (Hs : scores t1) by (left; vm_compute; discriminate).
  destruct (hit_flag_is_monotone (E := Sample.env) [] t1 [t2] Hl)
    as (_ & Hscore & _).
  destruct (Hscore Hs) as (Hb & Ha & _ & Hlater).
  split; [exact Hl|]. split; [exact Hs|].
  split; [exact Hb|]. split; [exact Ha|].
  split; [now inversion Hlater|reflexivity].
Defined.

(** * Sounds *)

Section Silence.

Context {E : Env}.

Lemma silent_ret {A} (a : A) : silent (ret a).
Proof. intros w b w' H. now inversion H. Qed.

Lemma silent_bind {A B} (m : M A) (f : A -> M B) (P : A -> Prop) :
  silent m -> post m P -> (forall a, P a -> silent (f a)) -> silent (bind m f).
Proof.
  intros Hm HP Hf w b w' H. unfold bind in H.
  destruct (m w) as [[a w1]|] eqn:Hmw; [|discriminate].
  rewrite (Hf a (HP _ _ _ Hmw) _ _ _ H). exact (Hm _ _ _ Hmw).
Qed.

Lemma silent_bind' {A B} (m : M A) (f : A -> M B) :
  silent m -> (forall a, silent (f a)) -> silent (bind m f).
Proof.
  intros Hm Hf. apply silent_bind with (P := fun _ => True); auto using post_any.
Qed.

Lemma silent_randInt : silent randInt.
Proof.
  intros w a w' H. unfold randInt in H.
  destruct (rand_Int (random w)). now inversion H.
Qed.

Lemma silent_randFloat64 : silent randFloat64.
Proof.
  intros w a w' H. unfold randFloat64 in H.
  destruct (rand_Float64 (random w)). now inversion H.
Qed.

Lemma silent_withRandom {A} (f : Rand -> A * Rand) : silent (withRandom f).
Proof.
  intros w a w' H. unfold withRandom in H.
  destruct (f (random w)). now inversion H.
Qed.

Lemma silent_panic {A} : silent (@panic _ A).
Proof. intros w a w' H. discriminate H. Qed.

End Silence.

Ltac silent_step :=
  lazymatch goal with
  | |- silent (bind _ _) => apply silent_bind'; [|intros ?]
  | |- silent (if ?b then _ else _) => destruct b eqn:?
  | |- silent (match ?x with _ => _ end) => destruct x eqn:?
  | |- silent (let (_, _) := ?x in _) => destruct x eqn:?
  | |- silent (ret _) => apply silent_ret
  | |- silent randInt => apply silent_randInt
  | |- silent randFloat64 => apply silent_randFloat64
  | |- silent (withRandom _) => apply silent_withRandom
  | |- silent panic => apply silent_panic
  | |- silent (when false _) => apply silent_ret
  end.

Section Muted.

Context {E : Env}.

Lemma createBackgroundObject_silent typ x : silent (createBackgroundObject typ x).
Proof.
  unfold createBackgroundObject.
  destruct (_ || _); [|destruct (_ =? _)%string]; repeat silent_step.
Qed.

Lemma appendObject_silent typ x r : silent (appendObject typ x r).
Proof.
  unfold appendObject. apply silent_bind'; [apply createBackgroundObject_silent|].
  intros o. apply silent_ret.
Qed.

Lemma spawnObjects_silent r : silent (spawnObjects r).
Proof.
  unfold spawnObjects.
  repeat first [apply appendObject_silent | silent_step].
Qed.

Lemma spawnEnemy_silent r : silent (spawnEnemy r).
Proof. unfold spawnEnemy. repeat silent_step. Qed.

Lemma updateGage_silent touches r :
  mute r = true -> silent (updateGage touches r).
Proof.
  intros Hm w r' w' H.
  unfold updateGage, bind, when, play, ret, withRandom in H.
  repeat match type of H with
         | context [if ?b then _ else _] => destruct b eqn:?
         | context [let (_, _) := ?x in _] => destruct x eqn:?
         end;
    simpl in *; rewrite ?Hm in *; simpl in *; try discriminate;
    inversion H; subst; reflexivity.
Qed.

Lemma hitEnemy_silent e r : mute r = true -> silent (hitEnemy e r).
Proof.
  intros Hm w er w' H.
  unfold hitEnemy, bind, when, play, ret, withRandom, randFloat64 in H.
  repeat match type of H with
         | context [let (_, _) := ?x in _] => destruct x eqn:?
         end.
  simpl in H. rewrite Hm in H. simpl in H. inversion H; subst; reflexivity.
Qed.

Lemma collideEnemy_silent e r : mute r = true -> silent (collideEnemy e r).
Proof.
  intros Hm. unfold collideEnemy.
  apply silent_bind'.
  - destruct (_ && _); [destruct (rush r)|];
      [now apply hitEnemy_silent|apply silent_ret|apply silent_ret].
  - intros [e1 r1]. destruct (Enemy_update _ _); [apply silent_ret|apply silent_panic].
Qed.

Lemma collideLoop_silent es : forall r,
  mute r = true -> silent (collideLoop es r).
Proof.
  induction es as [|e es IH]; intros r Hm; simpl.
  - apply silent_ret.
  - eapply silent_bind;
      [now apply collideEnemy_silent|apply collideEnemy_spec|].
    intros [e1 r1] H1. simpl in H1.
    destruct H1 as (_ & Hm1 & _).
    apply silent_bind'; [apply IH; congruence|].
    intros [es2 r2]. apply silent_ret.
Qed.

Lemma updateEffectsLoop_silent efs : silent (updateEffectsLoop efs).
Proof.
  induction efs as [|ef efs IH]; simpl; [apply silent_ret|].
  apply silent_bind'; [apply silent_withRandom|]. intros ef'.
  apply silent_bind'; [exact IH|]. intros efs'. apply silent_ret.
Qed.

Lemma update_silent r touches : mute r = true -> silent (update r touches).
Proof.
  intros Hm. unfold update. destruct (gameOver r); [apply silent_ret|].
  eapply silent_bind with (P := fun r1 => mute r1 = true).
  - unfold beforeCollisions.
    apply silent_bind'; [now apply updateGage_silent|]. intros r1.
    apply silent_bind'; [apply spawnEnemy_silent|]. intros r2.
    apply spawnObjects_silent.
  - eapply post_weaken; [apply beforeCollisions_spec|].
    intros r1 (_ & Hm1 & _). congruence.
  - intros r1 Hm1. apply silent_bind'.
    + unfold collideEnemies. apply silent_bind'; [now apply collideLoop_silent|].
      intros [es r2]. apply silent_ret.
    + intros r2. unfold afterCollisions, updateEffects.
      apply silent_bind'; [|intros; apply silent_ret].
      apply silent_bind'; [apply updateEffectsLoop_silent|intros; apply silent_ret].
Qed.

Lemma populate_silent typ n : forall r, silent (populate typ n r).
Proof.
  induction n as [|n IH]; intros r; simpl; [apply silent_ret|].
  apply silent_bind'; [apply silent_randFloat64|]. intros u.
  apply silent_bind'; [apply appendObject_silent|]. intros r1. apply IH.
Qed.

Lemma newGameRunner_silent mute0 : silent (newGameRunner mute0).
Proof.
  unfold newGameRunner.
  apply silent_bind'; [apply populate_silent|]. intros r1.
  apply silent_bind'; [apply populate_silent|]. intros r2.
  apply populate_silent.
Qed.

Lemma update_mute r touches w r' w' :
  update r touches w = Some (r', w') -> mute r' = mute r.
Proof.
  intros H. destruct (gameOver r) eqn:Hgo.
  - rewrite update_over in H by assumption. now inversion H.
  - destruct (update_spec _ touches Hgo _ _ _ H) as (r1 & r2 & H1 & H2 & H3).
    destruct H1 as (_ & Hm1 & _). destruct H2 as (_ & Hm2 & _).
    destruct H3 as (Hc & _). unfold ctl in Hc. injection Hc as _ Hm3 _ _ _ _ _ _.
    congruence.
Qed.

End Muted.

Section Sound.
Context {E : Env}.

(** X1: a tick of a muted runner plays no sound, whatever the touches and
    whatever happens in the tick (a first touch, a rush, a hit), and leaves
    the runner muted. *)
Theorem muted_runner_plays_nothing r touches w :
  reachable r -> mute r = true ->
  exists r' w',
    update r touches w = Some (r', w') /\
    played w' = played w /\ mute r' = true.
Proof.
  intros Hr Hm.
  destruct (update_returns r touches w (reachable_Inv r Hr)) as (r' & w' & H & _).
  exists r', w'. split; [exact H|]. split.
  - exact (update_silent r touches Hm _ _ _ H).
  - rewrite (update_mute _ _ _ _ _ H). exact Hm.
Qed.

End Sound.

Section Pruning.
Context {E : Env}.

Lemma afterCollisions_effects r w r' w' :
  afterCollisions r w = Some (r', w') ->
  Forall (fun ef => Effect_Finished ef = false) (effects r').
Proof.
  unfold afterCollisions, bind, ret. intros H.
  destruct (updateEffects (updateObjects r) w) as [[r1 w1]|]; [|discriminate].
  inversion H; subst; clear H. simpl. unfold pruneEffects.
  apply Forall_forall. intros ef Hin. apply filter_In in Hin.
  destruct Hin as [_ Hf]. now apply negb_true_iff in Hf.
Qed.

(** X2: a tick of a runner that is not over leaves no background object
    whose projection is at or left of the screen abscissa -100, and no
    effect that is finished. *)
Theorem tick_leaves_nothing_stale r touches w :
  reachable r -> gameOver r = false ->
  exists r' w',
    update r touches w = Some (r', w') /\
    Forall (fun o => objectStays o = true) (objects r') /\
    Forall (fun ef => Effect_Finished ef = false) (effects r').
Proof.
  intros Hr Hgo.
  destruct (update_returns r touches w (reachable_Inv r Hr)) as (r' & w' & H & _).
  exists r', w'. split; [exact H|].
  destruct (update_inv _ _ _ _ _ Hgo H) as (r1 & w1 & r2 & w2 & H1 & H2 & H3).
  split; [|exact (afterCollisions_effects _ _ _ _ H3)].
  destruct (afterCollisions_spec _ _ _ _ H3) as (_ & _ & Ho).
  rewrite Ho.
  eapply Permutation_Forall; [apply Permutation_sym, sortSlice_perm|].
  unfold pruneObjects. apply Forall_forall. intros o Hin.
  apply filter_In in Hin. tauto.
Qed.

End Pruning.

Section Ground.
Context {E : Env}.

Lemma newEnemy_onGround : onGround newEnemy.
Proof. intros _. split; reflexivity. Qed.

Lemma turn_onGround t : isTurn t -> onGround (before t) -> onGround (after t).
Proof.
  intros (w & w' & H) Hg Hh.
  pose proof (collideEnemy_spec _ _ _ _ _ H) as Hrule. simpl in Hrule.
  destruct Hrule as (_ & _ & _ & _ & _ & _ & Hhit & _).
  rewrite Hh in Hhit. symmetry in Hhit. apply orb_false_iff in Hhit.
  destruct Hhit as [Hb Hnot].
  destruct (Hg Hb) as [Hy _].
  unfold collideEnemy, bind, ret, panic in H. fold (hits (before t)) in H.
  destruct (hits (before t)) eqn:Hhits; simpl in Hnot.
  - rewrite Hnot in H. simpl in H.
    unfold Enemy_update in H. rewrite Hb in H. simpl in H.
    inversion H as [[Ha Hr]]. simpl. rewrite Hy. split; reflexivity.
  - unfold Enemy_update in H. rewrite Hb in H. simpl in H.
    inversion H as [[Ha Hr]]. simpl. rewrite Hy.
    destruct (rush (runnerBefore t)); split; reflexivity.
Qed.

Lemma reachable_onGround r : reachable r -> Forall onGround (enemies r).
Proof.
  induction 1 as [m w r w' H|r touches w r' w' _ IH H].
  - destruct (newGameRunner_spec _ _ _ _ H) as (_ & _ & _ & _ & _ & _ & He).
    rewrite He. constructor.
  - destruct (gameOver r) eqn:Hgo.
    + rewrite update_over in H by assumption. now inversion H; subst.
    + apply Forall_forall. intros e' Hin.
      destruct (update_turns _ _ _ _ _ Hgo H e' Hin) as (t & Ht & <- & Hb).
      apply turn_onGround; [exact Ht|].
      destruct Hb as [Hb|Hb].
      * rewrite Forall_forall in IH. now apply IH.
      * rewrite Hb. apply newEnemy_onGround.
Qed.

(** X3: in every runner the loop can reach, an enemy that is not hit is on
    the ground line: its position and its previous position have the
    player's ordinate [rhinoY], which is above the line of 580, so that the
    prune of lines 375-381 keeps it.  Only hit enemies are ever removed. *)
Theorem unhit_enemies_stay_on_the_ground r e :
  reachable r -> In e (enemies r) -> hit e = false ->
  Vector2D.Y (pos e) = rhinoY /\ Vector2D.Y (prevPos e) = rhinoY /\
  enemyStays e = true /\ In e (pruneEnemies (enemies r)).
Proof.
  intros Hr Hin Hh.
  pose proof (reachable_onGround r Hr) as Hg. rewrite Forall_forall in Hg.
  destruct (Hg e Hin Hh) as [Hy Hp].
  assert (Hs : enemyStays e = true) by (unfold enemyStays; rewrite Hy; reflexivity).
  repeat split; try assumption.
  unfold pruneEnemies. apply filter_In. now split.
Qed.

End Ground.

(** * The sprites *)

Lemma small_wrap z : 0 <= z < 2 ^ 62 -> GoInt.wrap z = z.
Proof.
  intros Hz. apply GoIntFacts.wrap_id.
  unfold GoInt.in_range, GoInt.min_int, GoInt.max_int. lia.
Qed.

Section HitPose.
Context {E : Env}.

Lemma collideLoop_ticksAtHit es : forall r,
  post (collideLoop es r)
    (fun er => ticksAtHit (snd er) =
               if rush r && existsb hits es then ticks r else ticksAtHit r).
Proof.
  induction es as [|e es IH]; intros r; simpl.
  - apply post_ret. simpl. now rewrite andb_false_r.
  - eapply post_bind; [apply collideEnemy_spec|].
    intros [e1 r1] H1. simpl in H1.
    eapply post_bind; [apply IH|].
    intros [es2 r2] H2. simpl in H2.
    apply post_ret. simpl.
    destruct H1 as (Ht & _ & _ & Hr & _ & _ & _ & _ & _ & Hrest).
    rewrite H2, Hr, Ht.
    destruct (rush r); simpl in *;
      [|rewrite andb_false_r in Hrest; tauto].
    destruct (hits e); simpl in *.
    + destruct Hrest as (_ & _ & ->). now destruct (existsb hits es).
    + destruct Hrest as (_ & _ & -> & _). reflexivity.
Qed.

(** The tick counter counts the ticks, and [ticksAtHit] is one of them. *)
Lemma reachableIn_ticksAtHit n r :
  reachableIn n r -> Z.of_nat n < 2 ^ 64 ->
  0 <= ticksAtHit r <= ticks r /\ ticks r <= Z.of_nat n.
Proof.
  induction 1 as [m w r w' n H|n r touches w r' w' _ IH H]; intros Hn.
  - unfold newGameRunner in H.
    assert (Hc : ctl r = (0, m, false, 0, false, 0, 0, 0)).
    { revert H. unfold bind.
      destruct (populate "tree" 99 _ w) as [[r1 w1]|] eqn:H1; [|discriminate].
      destruct (populate "weed" 99 r1 w1) as [[r2 w2]|] eqn:H2; [|discriminate].
      intros H3.
      destruct (populate_spec _ _ _ _ _ _ H1) as (Hc1 & _).
      destruct (populate_spec _ _ _ _ _ _ H2) as (Hc2 & _).
      destruct (populate_spec _ _ _ _ _ _ H3) as (Hc3 & _).
      rewrite Hc3, Hc2, Hc1. reflexivity. }
    unfold ctl in Hc. injection Hc as Ht _ _ _ _ _ Hta _.
    rewrite Ht, Hta. lia.
  - rewrite Nat2Z.inj_succ in Hn. specialize (IH ltac:(lia)).
    destruct (gameOver r) eqn:Hgo.
    + rewrite update_over in H by assumption. inversion H; subst.
      rewrite Nat2Z.inj_succ. lia.
    + destruct (update_inv _ _ _ _ _ Hgo H) as (r1 & w1 & r2 & w2 & H1 & H2 & H3).
      destruct (beforeCollisions_spec _ _ _ _ _ H1) as (Ht1 & _ & _ & Hta1 & _).
      unfold collideEnemies, bind in H2.
      destruct (collideLoop (enemies r1) r1 w1) as [[[es ra] wa]|] eqn:Hloop;
        [|discriminate].
      inversion H2; subst r2 w2; clear H2.
      pose proof (collideLoop_ticksAtHit _ _ _ _ _ Hloop) as Hta2.
      destruct (collideLoop_spec _ _ _ _ _ Hloop) as (Ht2 & _).
      simpl in Hta2, Ht2.
      destruct (afterCollisions_spec _ _ _ _ H3) as (Hc & _).
      unfold ctl in Hc. simpl in Hc. injection Hc as Ht3 _ _ _ _ _ Hta3 _.
      unfold GoInt.addU in Ht1. rewrite GoIntFacts.wrapU_id in Ht1 by lia.
      rewrite Ht3, Hta3, Ht2, Hta2, Ht1, Hta1, Nat2Z.inj_succ.
      destruct (_ && _); lia.
Qed.

(** X4: the hit pose of [drawRhino].  Within the first [2 ^ 64 - 1] ticks
    (the tick counter has not wrapped), a tick of a runner that is not over
    returns and counts one tick.  With [r1] the runner as the collision loop
    finds it: when the runner rushes and the loop finds an enemy to strike,
    [ticksAtHit] is the tick just counted and the player is drawn in the hit
    pose; otherwise [ticksAtHit] is left as it was, and the hit pose is
    drawn exactly when a hit has been recorded less than 10 ticks before
    (the subtraction of line 415 does not wrap). *)
Theorem hit_pose_lasts_ten_ticks n r touches w :
  reachableIn n r -> Z.of_nat n < 2 ^ 64 - 1 -> gameOver r = false ->
  exists r1 w1 r' w',
    beforeCollisions r touches w = Some (r1, w1) /\
    update r touches w = Some (r', w') /\
    ticks r' = ticks r + 1 /\
    if rush r1 && existsb hits (enemies r1)
    then ticksAtHit r' = ticks r' /\ showsHitPose r' = true
    else ticksAtHit r' = ticksAtHit r /\
         (showsHitPose r' = true <->
          0 < ticksAtHit r /\ ticks r' - ticksAtHit r < 10).
Proof.
  intros Hr Hn Hgo.
  destruct (reachableIn_ticksAtHit n r Hr ltac:(lia)) as (Hta & Ht).
  pose proof (reachable_Inv r (reachableIn_reachable n r Hr)) as HI.
  destruct (update_returns r touches w HI) as (r' & w' & H & _).
  destruct (update_inv _ _ _ _ _ Hgo H) as (r1 & w1 & r2 & w2 & H1 & H2 & H3).
  exists r1, w1, r', w'. split; [exact H1|]. split; [exact H|].
  destruct (beforeCollisions_spec _ _ _ _ _ H1) as (Ht1 & _ & _ & Hta1 & _).
  unfold collideEnemies, bind in H2.
  destruct (collideLoop (enemies r1) r1 w1) as [[[es ra] wa]|] eqn:Hloop;
    [|discriminate].
  inversion H2; subst r2 w2; clear H2.
  pose proof (collideLoop_ticksAtHit _ _ _ _ _ Hloop) as Hta2.
  destruct (collideLoop_spec _ _ _ _ _ Hloop) as (Ht2 & _).
  simpl in Hta2, Ht2.
  destruct (afterCollisions_spec _ _ _ _ H3) as (Hc & _).
  unfold ctl in Hc. simpl in Hc. injection Hc as Ht3 _ _ _ _ _ Hta3 _.
  unfold GoInt.addU in Ht1. rewrite GoIntFacts.wrapU_id in Ht1 by lia.
  assert (Ht' : ticks r' = ticks r + 1) by congruence.
  split; [exact Ht'|].
  unfold showsHitPose. rewrite Hta3, Hta2, Ht1, Hta1, Ht'.
  destruct (_ && _).
  - split; [reflexivity|].
    rewrite Z.sub_diag. unfold GoInt.wrapU. simpl.
    rewrite andb_true_r. apply Z.ltb_lt. lia.
  - split; [reflexivity|].
    rewrite GoIntFacts.wrapU_id by lia.
    rewrite andb_true_iff, !Z.ltb_lt. reflexivity.
Qed.

End HitPose.

Section Frames.
Context {E : Env}.

Lemma rhinoPeriod_pos r : 0 < rhinoPeriod r.
Proof. unfold rhinoPeriod. destruct (rush r); reflexivity. Qed.

Lemma rhinoPeriodicOffset_eq r :
  rhinoPeriodicOffset r = (ticks r / rhinoPeriod r) mod 2.
Proof.
  unfold rhinoPeriodicOffset. apply small_wrap.
  pose proof (Z.mod_pos_bound (ticks r / rhinoPeriod r) 2 ltac:(lia)). lia.
Qed.

(** X5: the frame that [drawRhino] takes from [rhinoImg] is one of its four
    images; it is one of the last two exactly when the gauge is positive;
    and one period later (10 ticks, 5 during a rush) it is the other frame
    of the same pair. *)
Theorem rhino_frame_in_range r :
  0 <= rhinoFrame r < 4 /\
  (2 <= rhinoFrame r <-> 0 < gage r) /\
  rhinoFrame (set_ticks (ticks r + rhinoPeriod r) r) + rhinoFrame r =
    (if 0 <? gage r then 5 else 1).
Proof.
  pose proof (rhinoPeriod_pos r) as Hp.
  assert (Hflip : rhinoPeriodicOffset (set_ticks (ticks r + rhinoPeriod r) r)
                  = 1 - rhinoPeriodicOffset r).
  { rewrite !rhinoPeriodicOffset_eq. unfold set_ticks at 1. cbn [ticks].
    change (rhinoPeriod (set_ticks (ticks r + rhinoPeriod r) r))
      with (rhinoPeriod r).
    replace (ticks r + rhinoPeriod r) with (ticks r + 1 * rhinoPeriod r) by lia.
    rewrite Z.div_add by lia.
    generalize (ticks r / rhinoPeriod r). intros q.
    pose proof (Z.mod_pos_bound q 2 ltac:(lia)).
    pose proof (Z.mod_pos_bound (q + 1) 2 ltac:(lia)).
    pose proof (Z.div_mod q 2 ltac:(lia)).
    pose proof (Z.div_mod (q + 1) 2 ltac:(lia)).
    lia. }
  unfold rhinoFrame. cbn [gage set_ticks]. rewrite Hflip.
  pose proof (rhinoPeriodicOffset_eq r) as Heq.
  pose proof (Z.mod_pos_bound (ticks r / rhinoPeriod r) 2 ltac:(lia)) as Hb.
  rewrite <- Heq in Hb.
  unfold GoInt.add.
  destruct (0 <? gage r) eqn:Hg.
  - apply Z.ltb_lt in Hg. change (GoInt.wrap (0 + 2)) with 2.
    rewrite !small_wrap by lia. lia.
  - apply Z.ltb_ge in Hg. rewrite !small_wrap by lia. lia.
Qed.

End Frames.

Section EnemySprite.

Variable imageSize : Image -> Z * Z.

Lemma spin_angles k :
  0 <= k < 30 ->
  let theta := (0x1.acee9f37bebd6p-3 * GoConv.toFloat k)%float in
  (0 <=? theta)%float = true /\ (theta <? twoPi)%float = true.
Proof.
  intros Hk.
  assert (Hall : forallb (fun n =>
             let theta := (0x1.acee9f37bebd6p-3
                           * GoConv.toFloat (Z.of_nat n))%float in
             (0 <=? theta)%float && (theta <? twoPi)%float) (seq 0 30) = true)
    by (vm_compute; reflexivity).
  rewrite forallb_forall in Hall.
  specialize (Hall (Z.to_nat k)). rewrite Z2Nat.id in Hall by lia.
  apply andb_prop. apply Hall. apply in_seq. lia.
Qed.

(** X6: [Enemy.draw] takes one of the two images of [enemyImg]; it rotates
    the sprite of an enemy only when the enemy is hit, and then by an angle
    from 0 up to, and not including, a full turn. *)
Theorem enemy_sprite_spins_only_when_hit e :
  let d := Enemy_draw imageSize e in
  (image d = enemyImg 0 \/ image d = enemyImg 1) /\
  (hit e = false -> forall theta, ~ In (Rotate theta) (geoM d)) /\
  (hit e = true ->
   exists theta,
     In (Rotate theta) (geoM d) /\
     (0 <=? theta)%float = true /\ (theta <? twoPi)%float = true).
Proof.
  cbv zeta. unfold Enemy_draw. cbn [image geoM].
  split; [|split].
  - unfold Enemy_frame.
    pose proof (Z.mod_pos_bound (e_ticks e / 10) 2 ltac:(lia)) as Hb.
    rewrite small_wrap by lia.
    assert (Hc : (e_ticks e / 10) mod 2 = 0 \/ (e_ticks e / 10) mod 2 = 1) by lia.
    destruct Hc as [-> | ->]; auto.
  - intros -> theta Hin. cbn in Hin.
    destruct Hin as [Hin|[Hin|[Hin|[]]]]; discriminate Hin.
  - intros ->. eexists. split; [cbn; right; right; left; reflexivity|].
    apply spin_angles. apply Z.mod_pos_bound. lia.
Qed.

End EnemySprite.

Section ObjectTypes.

Context {E : Env}.

Lemma createBackgroundObject_typ t x :
  post (createBackgroundObject t x) (fun o => typ o = t).
Proof.
  unfold createBackgroundObject.
  destruct (_ || _); [|destruct (_ =? _)%string];
    (eapply post_bind; [apply post_any|intros u _; apply post_ret; reflexivity]).
Qed.

Lemma appendObject_typ t x r :
  post (appendObject t x r)
    (fun r' => exists o, objects r' = objects r ++ [o] /\ typ o = t).
Proof.
  unfold appendObject. eapply post_bind; [apply createBackgroundObject_typ|].
  intros o Ho. apply post_ret. exists o. split; [reflexivity|exact Ho].
Qed.

Lemma populate_typ t n : forall r,
  post (populate t n r)
    (fun r' => map typ (objects r') = map typ (objects r) ++ repeat t n).
Proof.
  induction n as [|n IH]; intros r; simpl.
  - apply post_ret. now rewrite app_nil_r.
  - eapply post_bind; [apply post_any|intros u _].
    eapply post_bind; [apply appendObject_typ|].
    intros r1 (o & Ho & Ht).
    eapply post_weaken; [apply IH|].
    intros r2 H2. rewrite H2, Ho, map_app. simpl. rewrite Ht.
    rewrite <- app_assoc. reflexivity.
Qed.

Lemma appendObject_known t x r :
  In t ["tree"; "weed"; "cloud"]%string -> known r ->
  post (appendObject t x r) known.
Proof.
  intros Ht Hk. eapply post_weaken; [apply appendObject_typ|].
  intros r' (o & Ho & Hto). unfold known. rewrite Ho.
  apply Forall_app. split; [exact Hk|]. constructor; [|constructor].
  unfold knownType. rewrite Hto.
  destruct Ht as [<-|[<-|[<-|[]]]]; reflexivity.
Qed.

Lemma spawnObjects_known r : known r -> post (spawnObjects r) known.
Proof.
  intros Hk. unfold spawnObjects.
  eapply post_bind; [apply post_any|intros n _].
  eapply post_bind with (P := known).
  { destruct (_ =? _); [apply appendObject_known; simpl; auto|now apply post_ret]. }
  intros r1 H1.
  eapply post_bind; [apply appendObject_known; simpl; auto|].
  intros r2 H2.
  eapply post_bind; [apply post_any|intros m _].
  destruct (_ =? _); [apply appendObject_known; simpl; auto|now apply post_ret].
Qed.

Lemma update_known r touches w r' w' :
  known r -> update r touches w = Some (r', w') -> known r'.
Proof.
  intros Hk H. destruct (gameOver r) eqn:Hgo.
  - rewrite update_over in H by assumption. now inversion H; subst.
  - destruct (update_inv _ _ _ _ _ Hgo H) as (r1 & w1 & r2 & w2 & H1 & H2 & H3).
    assert (K1 : known r1).
    { revert H1. unfold beforeCollisions, bind.
      destruct (updateGage _ _ w) as [[ra wa]|] eqn:Ha; [|discriminate].
      destruct (spawnEnemy ra wa) as [[rb wb]|] eqn:Hb; [|discriminate].
      intros Hc.
      destruct (updateGage_spec _ _ _ _ _ Ha) as (_ & _ & _ & _ & _ & _ & Hoa & _).
      destruct (spawnEnemy_spec _ _ _ _ Hb) as (_ & Hob & _).
      apply (spawnObjects_known rb) in Hc; [exact Hc|].
      unfold known. rewrite Hob, Hoa. exact Hk. }
    destruct (collideEnemies_spec _ _ _ _ H2) as (_ & _ & _ & _ & Ho2 & _).
    destruct (afterCollisions_spec _ _ _ _ H3) as (_ & _ & Ho3).
    unfold known. rewrite Ho3.
    eapply Permutation_Forall; [apply Permutation_sym, sortSlice_perm|].
    unfold pruneObjects. apply Forall_filter.
    rewrite Ho2. apply Forall_map.
    eapply Forall_impl; [|exact K1]. intros o Ho. exact Ho.
Qed.

Lemma newGameRunner_types mute0 :
  post (newGameRunner mute0)
    (fun r => map typ (objects r) =
              (repeat "tree"%string 99 ++ repeat "weed"%string 99
                 ++ repeat "cloud"%string 20)%list).
Proof.
  unfold newGameRunner.
  eapply post_bind; [apply populate_typ|]. intros r1 H1.
  eapply post_bind; [apply populate_typ|]. intros r2 H2.
  eapply post_weaken; [apply populate_typ|]. intros r3 H3.
  rewrite H3, H2, H1. cbn [objects map app]. rewrite <- app_assoc. reflexivity.
Qed.

Lemma newGameRunner_known mute0 : post (newGameRunner mute0) known.
Proof.
  eapply post_weaken; [apply newGameRunner_types|].
  intros r Hr. unfold known.
  assert (Hall : Forall (fun t => In t ["tree"; "weed"; "cloud"]%string)
                   (map typ (objects r))).
  { rewrite Hr. repeat (apply Forall_app; split);
      apply Forall_forall; intros t Ht; apply repeat_spec in Ht; subst;
      simpl; auto. }
  rewrite Forall_map in Hall. eapply Forall_impl; [|exact Hall].
  intros o Ho. unfold knownType.
  destruct Ho as [<-|[<-|[<-|[]]]]; reflexivity.
Qed.

Lemma reachable_known r : reachable r -> known r.
Proof.
  induction 1 as [m w r w' H|r touches w r' w' _ IH H].
  - exact (newGameRunner_known _ _ _ _ H).
  - eapply update_known; eauto.
Qed.

Variable imageSize : Image -> Z * Z.

(** X7: every background object of a runner the loop can reach is of a
    type [BackgroundObject.draw] has an image for: the call does not
    dereference a nil image.  It draws the tree, the weed or the cloud, and
    an object that it dims is one of the pass in front of the player, never
    one of the pass behind. *)
Theorem objects_are_drawable r o :
  reachable r -> In o (objects r) ->
  exists d,
    BackgroundObject_draw imageSize o = Some d /\
    In (image d) [treeImg; weedImg; cloudImgL] /\
    (scaleAlpha d <> None -> beforeRhino o = true /\ behindRhino o = false).
Proof.
  intros Hr Hin.
  pose proof (reachable_known r Hr) as Hk. unfold known in Hk.
  rewrite Forall_forall in Hk. specialize (Hk o Hin).
  unfold knownType in Hk. unfold BackgroundObject_draw.
  assert (Hdim : forall a : option float,
            (if (Vector3D.Z (o_pos o) <? rhinoZ)%float then a else None) <> None ->
            beforeRhino o = true /\ behindRhino o = false).
  { intros a Ha. destruct (Vector3D.Z (o_pos o) <? rhinoZ)%float eqn:Hlt;
      [|congruence].
    unfold beforeRhino, behindRhino. split.
    - now apply FloatOrder.ltb_leb.
    - destruct (rhinoZ <? Vector3D.Z (o_pos o))%float eqn:Hgt; [|reflexivity].
      apply FloatOrder.ltb_leb in Hlt.
      apply FloatOrder.ltb_not_leb in Hgt. congruence. }
  destruct (typ o =? "tree")%string.
  - eexists. split; [reflexivity|]. cbn [image scaleAlpha].
    split; [simpl; auto|apply Hdim].
  - destruct (typ o =? "weed")%string.
    + eexists. split; [reflexivity|]. cbn [image scaleAlpha].
      split; [simpl; auto|apply Hdim].
    + destruct (typ o =? "cloud")%string; [|discriminate Hk].
      eexists. split; [reflexivity|]. cbn [image scaleAlpha].
      split; [simpl; auto|apply Hdim].
Qed.

End ObjectTypes.

Section NewRunner.
Context {E : Env}.

Lemma populate_total t n : forall r, total (populate t n r).
Proof.
  induction n as [|n IH]; intros r; simpl; [apply total_ret|].
  apply total_bind'; [apply total_randFloat64|]. intros u.
  apply total_bind'; [apply appendObject_total|]. intros r1. apply IH.
Qed.

Lemma newGameRunner_total mute0 : total (newGameRunner mute0).
Proof.
  unfold newGameRunner.
  apply total_bind'; [apply populate_total|]. intros r1.
  apply total_bind'; [apply populate_total|]. intros r2.
  apply populate_total.
Qed.

Lemma newGameRunner_fields mute0 :
  post (newGameRunner mute0)
    (fun r => ctl r = (0, mute0, false, 0, false, 0, 0, 0) /\
              enemies r = [] /\ effects r = []).
Proof.
  unfold newGameRunner.
  eapply post_bind; [apply populate_spec|]. intros r1 (Hc1 & He1 & Hf1).
  eapply post_bind; [apply populate_spec|]. intros r2 (Hc2 & He2 & Hf2).
  eapply post_weaken; [apply populate_spec|]. intros r3 (Hc3 & He3 & Hf3).
  cbn in He1, Hf1. change (ctl r1 = (0, mute0, false, 0, false, 0, 0, 0)) in Hc1.
  repeat split; congruence.
Qed.

(** X8: [newGameRunner] returns for every world and plays nothing.  The
    runner has 99 trees, 99 weeds and 20 clouds, in this order, no enemy and
    no effect; its counters, its gauge and its score are 0, it is not over
    and not rushing, and it is muted as asked. *)
Theorem new_runner_is_populated mute0 w :
  exists r w',
    newGameRunner mute0 w = Some (r, w') /\
    map typ (objects r) =
      (repeat "tree"%string 99 ++ repeat "weed"%string 99
         ++ repeat "cloud"%string 20)%list /\
    enemies r = [] /\ effects r = [] /\
    ctl r = (0, mute0, false, 0, false, 0, 0, 0) /\
    played w' = played w.
Proof.
  destruct (newGameRunner_total mute0 w) as (r & w' & H).
  exists r, w'. split; [exact H|].
  destruct (newGameRunner_fields _ _ _ _ H) as (Hc & He & Hf).
  split; [exact (newGameRunner_types _ _ _ _ H)|].
  repeat (split; [assumption|]).
  exact (newGameRunner_silent _ _ _ _ H).
Qed.

End NewRunner.

Section Background.

Variable imageSize : Image -> Z * Z.

Lemma drawBackgroundFrom_zero fuel x :
  tileWidth imageSize = 0 -> 0 <= x < 640 ->
  drawBackgroundFrom imageSize fuel x = None.
Proof.
  intros Hw Hx.
  assert (Hlt : (x <? 640) = true) by (apply Z.ltb_lt; lia).
  induction fuel as [|fuel IH]; cbn [drawBackgroundFrom]; rewrite Hlt.
  - reflexivity.
  - rewrite Hw. unfold GoInt.add. rewrite Z.add_0_r.
    rewrite small_wrap by lia. now rewrite IH.
Qed.

Lemma drawBackgroundFrom_tiles n : forall fuel x,
  0 < tileWidth imageSize <= 2 ^ 61 -> 0 <= x ->
  640 <= x + Z.of_nat n * tileWidth imageSize ->
  (n = O \/ x + (Z.of_nat n - 1) * tileWidth imageSize < 640) ->
  (n <= fuel)%nat ->
  exists tiles,
    drawBackgroundFrom imageSize fuel x = Some tiles /\
    map geoM tiles =
      map (fun k =>
             [Translate
                (GoConv.toFloat (x + Z.of_nat k * tileWidth imageSize))
                0%float])
          (seq 0 n) /\
    Forall (fun d => image d = backgroundImg /\ scaleAlpha d = None) tiles.
Proof.
  remember (tileWidth imageSize) as width eqn:Hwidth.
  induction n as [|n IH]; intros fuel x Hw Hx Hcover Hlast Hfuel.
  - exists []. split; [|split; [reflexivity|constructor]].
    assert (Hge : (x <? 640) = false) by (apply Z.ltb_ge; lia).
    destruct fuel; cbn [drawBackgroundFrom]; now rewrite Hge.
  - destruct fuel as [|fuel]; [lia|].
    destruct Hlast as [Hlast|Hlast]; [discriminate|].
    rewrite Nat2Z.inj_succ in *.
    assert (Hlt : (x <? 640) = true).
    { apply Z.ltb_lt.
      assert (0 <= Z.of_nat n * width) by (apply Z.mul_nonneg_nonneg; lia).
      lia. }
    cbn [drawBackgroundFrom]. rewrite Hlt, <- Hwidth.
    unfold GoInt.add. rewrite small_wrap by (apply Z.ltb_lt in Hlt; lia).
    assert (Hlast' : n = O \/ x + width + (Z.of_nat n - 1) * width < 640).
    { destruct n; [left; reflexivity|right]. lia. }
    assert (Hcover' : 640 <= x + width + Z.of_nat n * width) by lia.
    destruct (IH fuel (x + width) Hw ltac:(lia) Hcover' Hlast' ltac:(lia))
      as (tiles & Hd & Hg & Hi).
    rewrite Hd. eexists. split; [reflexivity|].
    split.
    + cbn [map geoM seq]. change (Z.of_nat 0) with 0.
      rewrite Hg, Z.mul_0_l, Z.add_0_r. f_equal.
      rewrite <- seq_shift, map_map. apply map_ext. intros k.
      rewrite Nat2Z.inj_succ. do 3 f_equal. lia.
    + constructor; [split; reflexivity|exact Hi].
Qed.

(** X9: [drawBackground] on a strip of width [w].  When [w] is 0 the loop
    never ends: no fuel is enough.  When [w] is positive the loop ends after
    [n = 639 / w + 1] turns: it draws the strip [n] times, at the abscissas
    [0], [w], ..., [(n - 1) * w], the last of which begins left of the right
    edge of the screen and ends at or beyond it. *)
Theorem background_strip_covers_the_screen :
  let w := tileWidth imageSize in
  (w = 0 -> forall fuel, drawBackground imageSize fuel = None) /\
  (0 < w <= 2 ^ 61 ->
   let n := Z.to_nat (639 / w + 1) in
   forall fuel, (n <= fuel)%nat ->
   exists tiles,
     drawBackground imageSize fuel = Some tiles /\
     map geoM tiles =
       map (fun k => [Translate (GoConv.toFloat (Z.of_nat k * w)) 0%float])
           (seq 0 n) /\
     Forall (fun d => image d = backgroundImg /\ scaleAlpha d = None) tiles /\
     (Z.of_nat n - 1) * w < 640 <= Z.of_nat n * w).
Proof.
  intros w. split.
  - intros Hw fuel. apply drawBackgroundFrom_zero; [exact Hw|lia].
  - intros Hw n fuel Hfuel.
    assert (Hq : 0 <= 639 / w) by (apply Z.div_pos; lia).
    assert (Hn : Z.of_nat n = 639 / w + 1) by (unfold n; lia).
    pose proof (Z.div_mod 639 w ltac:(lia)) as Hdm.
    pose proof (Z.mod_pos_bound 639 w ltac:(lia)) as Hmb.
    assert (Hcover : (Z.of_nat n - 1) * w < 640 <= Z.of_nat n * w).
    { rewrite Hn. split; lia. }
    destruct (drawBackgroundFrom_tiles n fuel 0 Hw ltac:(lia))
      as (tiles & Hd & Hg & Hi); try lia.
    exists tiles. split; [exact Hd|]. split; [exact Hg|]. split; [exact Hi|].
    exact Hcover.
Qed.

End Background.

(** * The game *)

Section Seeded.

Context {E : Env}.

Lemma seeded_ret {A} (a : A) : seeded (ret a).
Proof. intros w1 w2 H. cbn. auto. Qed.

Lemma seeded_bind {A B} (m : M A) (f : A -> M B) :
  seeded m -> (forall a, seeded (f a)) -> seeded (bind m f).
Proof.
  intros Hm Hf w1 w2 H. unfold bind. specialize (Hm w1 w2 H).
  destruct (m w1) as [[a1 w1']|], (m w2) as [[a2 w2']|]; try tauto.
  destruct Hm as [-> Hr]. exact (Hf a2 w1' w2' Hr).
Qed.

Lemma seeded_randInt : seeded randInt.
Proof.
  intros w1 w2 H. unfold randInt. rewrite H.
  destruct (rand_Int (random w2)). cbn. auto.
Qed.

Lemma seeded_randFloat64 : seeded randFloat64.
Proof.
  intros w1 w2 H. unfold randFloat64. rewrite H.
  destruct (rand_Float64 (random w2)). cbn. auto.
Qed.

Lemma createBackgroundObject_seeded t x : seeded (createBackgroundObject t x).
Proof.
  unfold createBackgroundObject.
  destruct (_ || _); [|destruct (_ =? _)%string];
    (apply seeded_bind; [apply seeded_randFloat64|intros u; apply seeded_ret]).
Qed.

Lemma populate_seeded t n : forall r, seeded (populate t n r).
Proof.
  induction n as [|n IH]; intros r; simpl; [apply seeded_ret|].
  apply seeded_bind; [apply seeded_randFloat64|]. intros u.
  apply seeded_bind; [|intros r1; apply IH].
  unfold appendObject.
  apply seeded_bind; [apply createBackgroundObject_seeded|].
  intros o. apply seeded_ret.
Qed.

Lemma newGameRunner_seeded mute0 : seeded (newGameRunner mute0).
Proof.
  unfold newGameRunner.
  apply seeded_bind; [apply populate_seeded|]. intros r1.
  apply seeded_bind; [apply populate_seeded|]. intros r2.
  apply populate_seeded.
Qed.

End Seeded.


Section GameLemmas.

Context {G : GameEnv}.

Lemma lift_inv {A} (m : M A) o a o' :
  lift m o = Some (a, o') ->
  exists w', m (world o) = Some (a, w') /\
             o' = {| world := w'; sent := sent o |}.
Proof.
  unfold lift. intros H.
  destruct (m (world o)) as [[a1 w1]|]; [|discriminate].
  inversion H; subst. now exists w1.
Qed.

Lemma simulationRounds_total n : forall s, total (simulationRounds n s).
Proof.
  induction n as [|n IH]; intros s; simpl; [apply total_ret|].
  apply total_bind'; [apply total_randInt|]. intros a.
  apply total_bind'; [apply total_randInt|]. intros b. apply IH.
Qed.

Lemma simulationRounds_silent n : forall s, silent (simulationRounds n s).
Proof.
  induction n as [|n IH]; intros s; simpl; [apply silent_ret|].
  apply silent_bind'; [apply silent_randInt|]. intros a.
  apply silent_bind'; [apply silent_randInt|]. intros b. apply IH.
Qed.

Lemma newGameRunner_start mute0 w r w' :
  newGameRunner mute0 w = Some (r, w') ->
  reachable r /\ mute r = mute0 /\ gameOver r = false /\ score r = 0.
Proof.
  intros H. split; [eapply reachable_new; eauto|].
  destruct (newGameRunner_fields _ _ _ _ H) as (Hc & _).
  unfold ctl in Hc. injection Hc as _ Hm Hgo _ _ _ _ Hs. auto.
Qed.

(** [initialize] returns, and leaves a game on the title screen. *)
Lemma initialize_spec i g o :
  0 <= highScore g ->
  exists g' o',
    initialize i g o = Some (g', o') /\ GameInv g' /\
    mode g' = GameModeTitle /\ modeTicks g' = 0 /\ touches g' = [] /\
    highScore g' = highScore g /\
    played (world o') = played (world o).
Proof.
  intros Hh. unfold initialize, gbind, send, setRandom, lift, gret.
  cbn [world sent].
  match goal with
  | |- context [generateTouchSimulation ?w] =>
      destruct (simulationRounds_total 3 NewSimulation w) as (s & w1 & Hs);
      pose proof (simulationRounds_silent _ _ _ _ _ Hs) as Hp1
  end.
  unfold generateTouchSimulation. rewrite Hs. cbn [world sent].
  destruct (newGameRunner_total true w1) as (r & w2 & Hr).
  pose proof (newGameRunner_silent _ _ _ _ Hr) as Hp2.
  rewrite Hr. cbn [world sent].
  destruct (newGameRunner_start _ _ _ _ Hr) as (Hreach & Hm & Hgo & _).
  eexists. eexists. split; [reflexivity|].
  split.
  { exists s, r. destruct (uuid i); cbn; repeat split; try assumption; lia. }
  cbn [world]. rewrite Hp2, Hp1. cbn [played].
  destruct (uuid i); cbn; repeat split; reflexivity.
Qed.

End GameLemmas.

Section GameRules.

Context {G : GameEnv}.

Lemma generateTouchSimulation_returns w :
  exists s w', generateTouchSimulation w = Some (s, w') /\
               played w' = played w.
Proof.
  destruct (simulationRounds_total 3 NewSimulation w) as (s & w' & H).
  exists s, w'. split; [exact H|].
  exact (simulationRounds_silent _ _ _ _ _ H).
Qed.

Lemma newGameRunner_returns mute0 w :
  exists r w', newGameRunner mute0 w = Some (r, w') /\
               played w' = played w /\
               reachable r /\ mute r = mute0 /\ gameOver r = false /\
               score r = 0.
Proof.
  destruct (newGameRunner_total mute0 w) as (r & w' & H).
  exists r, w'. split; [exact H|].
  split; [exact (newGameRunner_silent _ _ _ _ H)|].
  exact (newGameRunner_start _ _ _ _ H).
Qed.

Lemma modeTicks_range z : 0 <= GoInt.addU z 1 < 2 ^ 64.
Proof. unfold GoInt.addU, GoInt.wrapU. apply Z.mod_pos_bound. lia. Qed.

(** The title screen. *)
Lemma Update_Title i g o :
  GameInv g -> mode g = GameModeTitle ->
  exists g' o',
    Update i g o = Some (g', o') /\ GameInv g' /\ stepRule i g o g' o'.
Proof.
  intros (s & r & Hs & Hr & Hreach & Hh & Hticks & Hmode) Hm.
  rewrite Hm in Hmode. destruct Hmode as (Hmute & Hgo).
  pose proof (modeTicks_range (modeTicks g)) as Hrange.
  unfold stepRule. rewrite Hm.
  unfold Update. cbn [mode set_touches set_modeTicks touchSimulation runner
                      playerID sessionID playID modeTicks touches].
  rewrite Hm, Hs, Hr.
  unfold gbind at 1. unfold send at 1. cbn [world sent].
  destruct (Simulation_Next s) as [simulated s1].
  destruct (update_returns r simulated (world o) (reachable_Inv r Hreach))
    as (r1 & w1 & Hu & _).
  pose proof (update_silent r simulated Hmute _ _ _ Hu) as Hp1.
  pose proof (update_mute _ _ _ _ _ Hu) as Hm1.
  assert (Hreach1 : reachable r1) by (eapply reachable_update; eauto).
  unfold gbind at 1. unfold lift at 1. cbn [world sent]. rewrite Hu.
  (* the demo is replaced when it is over *)
  assert (Hdemo : exists s2 r2 w2,
    (if gameOver r1
     then gbind (lift (newGameRunner true))
            (fun r0 => gbind (lift generateTouchSimulation)
               (fun s0 => gret
                  (set_touchSimulation (Some s0)
                     (set_runner (Some r0)
                        (set_runner (Some r1)
                           (set_touchSimulation (Some s1)
                              (set_touches
                                 (UpdateTouches (pointers i) (touches g))
                                 (set_modeTicks (GoInt.addU (modeTicks g) 1) g))))))))
     else gret
            (set_runner (Some r1)
               (set_touchSimulation (Some s1)
                  (set_touches (UpdateTouches (pointers i) (touches g))
                     (set_modeTicks (GoInt.addU (modeTicks g) 1) g)))))
      {| world := w1; sent := sent o ++ [touchLog i g] |}
    = Some (set_runner (Some r2)
              (set_touchSimulation (Some s2)
                 (set_touches (UpdateTouches (pointers i) (touches g))
                    (set_modeTicks (GoInt.addU (modeTicks g) 1) g))),
            {| world := w2; sent := sent o ++ [touchLog i g] |}) /\
    played w2 = played (world o) /\ reachable r2 /\ mute r2 = true /\
    gameOver r2 = false).
  { destruct (gameOver r1) eqn:Hgo1.
    - destruct (newGameRunner_returns true w1)
        as (r2 & wa & Hn & Hpa & Hra & Hma & Hga & _).
      destruct (generateTouchSimulation_returns wa) as (s2 & w2 & Hg & Hp2).
      exists s2, r2, w2. unfold gbind, lift, gret. cbn [world sent].
      rewrite Hn. cbn [world sent]. rewrite Hg.
      split; [reflexivity|]. repeat split; congruence.
    - exists s1, r1, w1. unfold gret.
      split; [reflexivity|]. repeat split; congruence. }
  destruct Hdemo as (s2 & r2 & w2 & Hd & Hp2 & Hreach2 & Hm2 & Hgo2).
  unfold gbind at 1. unfold touchLog in Hd. rewrite Hd.
  cbn [touches set_runner set_touchSimulation set_touches set_modeTicks].
  destruct (AnyTouchesJustTouched _) eqn:Ht.
  - destruct (newGameRunner_returns false w2)
      as (r3 & w3 & Hn & Hp3 & Hr3 & Hm3 & Hg3 & Hs3).
    unfold gbind, send, lift, gret, play. cbn [world sent playerID sessionID playID].
    rewrite Hn. cbn [world sent].
    eexists. eexists. split; [reflexivity|]. split.
    + exists s2, r3. cbn. rewrite Hs3. repeat split; try assumption; lia.
    + cbn. rewrite Hp3, Hp2, <- app_assoc. repeat split; reflexivity.
  - unfold gret. eexists. eexists. split; [reflexivity|]. split.
    + exists s2, r2. cbn. rewrite Hm. repeat split; try assumption; lia.
    + cbn. repeat split; try reflexivity; assumption.
Qed.

(** A game that is played. *)
Lemma Update_Playing i g o :
  GameInv g -> mode g = GameModePlaying ->
  exists g' o',
    Update i g o = Some (g', o') /\ GameInv g' /\ stepRule i g o g' o'.
Proof.
  intros (s & r & Hs & Hr & Hreach & Hh & Hticks & Hmode) Hm.
  rewrite Hm in Hmode. destruct Hmode as (Hmute & Hgo & Hscore).
  pose proof (modeTicks_range (modeTicks g)) as Hrange.
  unfold stepRule. rewrite Hm.
  unfold Update. cbn [mode set_touches set_modeTicks touchSimulation runner
                      playerID sessionID playID modeTicks touches].
  rewrite Hm, Hr.
  unfold gbind at 1. unfold send at 1. cbn [world sent].
  set (ts := UpdateTouches (pointers i) (touches g)).
  destruct (update_returns r ts (world o) (reachable_Inv r Hreach))
    as (r1 & w1 & Hu & _).
  pose proof (update_mute _ _ _ _ _ Hu) as Hm1.
  assert (Hreach1 : reachable r1) by (eapply reachable_update; eauto).
  unfold gbind at 1. unfold lift at 1. cbn [world sent]. rewrite Hu.
  cbn [highScore set_runner set_touches set_modeTicks].
  assert (Hmax : highScore
                   (if highScore g <? score r1
                    then set_highScore (score r1)
                           (set_runner (Some r1)
                              (set_touches ts
                                 (set_modeTicks (GoInt.addU (modeTicks g) 1) g)))
                    else set_runner (Some r1)
                           (set_touches ts
                              (set_modeTicks (GoInt.addU (modeTicks g) 1) g)))
                 = Z.max (highScore g) (score r1)).
  { destruct (highScore g <? score r1) eqn:Hlt; cbn.
    - apply Z.ltb_lt in Hlt. lia.
    - apply Z.ltb_ge in Hlt. lia. }
  destruct (gameOver r1) eqn:Hgo1.
  - unfold gbind, send, lift, gret, play. cbn [world sent].
    eexists. eexists. split; [reflexivity|]. split.
    + exists s, r1.
      destruct (highScore g <? score r1) eqn:Hlt; cbn in *;
        repeat split; try assumption; try congruence; lia.
    + destruct (highScore g <? score r1) eqn:Hlt; cbn in *;
        (repeat split; try reflexivity; try assumption);
        exists r, r1, w1; rewrite Hgo1;
        repeat split; try reflexivity; try assumption;
        now rewrite <- app_assoc.
  - unfold gret. eexists. eexists. split; [reflexivity|]. split.
    + exists s, r1.
      destruct (highScore g <? score r1) eqn:Hlt; cbn in *; rewrite Hm;
        repeat split; try assumption; try congruence; lia.
    + destruct (highScore g <? score r1) eqn:Hlt; cbn in *;
        (repeat split; try reflexivity; try assumption);
        exists r, r1, w1; rewrite Hgo1;
        repeat split; try reflexivity; try assumption.
Qed.

(** The game over screen. *)
Lemma Update_GameOver i g o :
  GameInv g -> mode g = GameModeGameOver ->
  exists g' o',
    Update i g o = Some (g', o') /\ GameInv g' /\ stepRule i g o g' o'.
Proof.
  intros (s & r & Hs & Hr & Hreach & Hh & Hticks & Hmode) Hm.
  rewrite Hm in Hmode. destruct Hmode as (Hmute & Hgo & Hscore).
  pose proof (modeTicks_range (modeTicks g)) as Hrange.
  unfold stepRule. rewrite Hm.
  unfold Update. cbn [mode set_touches set_modeTicks touchSimulation runner
                      playerID sessionID playID modeTicks touches].
  rewrite Hm.
  unfold gbind at 1. unfold send at 1. cbn [world sent].
  set (ts := UpdateTouches (pointers i) (touches g)).
  destruct ((60 <? GoInt.addU (modeTicks g) 1) && AnyTouchesJustTouched ts).
  - match goal with
    | |- context [initialize i ?g0 ?o0] =>
        destruct (initialize_spec i g0 o0 Hh)
          as (g' & o' & Hi & HI & Hmo & Hmt & Hto & Hhs & Hpl);
        pose proof Hi as Hi'
    end.
    exists g', o'. split; [exact Hi|]. split; [exact HI|].
    unfold initialize, gbind, send, setRandom, lift, gret in Hi'.
    cbn [world sent] in Hi'.
    destruct (generateTouchSimulation _) as [[s1 w1]|]; [|discriminate].
    cbn [world sent] in Hi'.
    destruct (newGameRunner true w1) as [[r2 w2]|]; [|discriminate].
    inversion Hi'; subst g' o'; clear Hi'.
    destruct (uuid i); cbn; repeat split; try reflexivity;
      cbn in Hpl; try assumption; now rewrite <- app_assoc.
  - unfold gret. eexists. eexists. split; [reflexivity|]. split.
    + exists s, r. cbn. rewrite Hm. repeat split; try assumption; lia.
    + cbn. repeat split; try reflexivity; assumption.
Qed.

(** One [Update] of a game that keeps the invariant returns, keeps it, and
    follows [stepRule]. *)
Lemma Update_spec i g o :
  GameInv g ->
  exists g' o',
    Update i g o = Some (g', o') /\ GameInv g' /\ stepRule i g o g' o'.
Proof.
  intros HI. destruct (mode g) eqn:Hm.
  - now apply Update_Title.
  - now apply Update_Playing.
  - now apply Update_GameOver.
Qed.

Lemma started_GameInv g : started g -> GameInv g.
Proof.
  induction 1 as [p s d i o g o' H|i g o g' o' _ IH H].
  - destruct (initialize_spec i (newGame p s d) o ltac:(cbn; lia))
      as (g1 & o1 & H1 & HI & _).
    rewrite H in H1. now inversion H1; subst.
  - destruct (Update_spec i g o IH) as (g1 & o1 & H1 & HI & _).
    rewrite H in H1. now inversion H1; subst.
Qed.

(** What [Update] makes of a started game. *)
Lemma started_step i g o :
  started g ->
  exists g' o',
    Update i g o = Some (g', o') /\ started g' /\ GameInv g' /\
    stepRule i g o g' o'.
Proof.
  intros Hs. destruct (Update_spec i g o (started_GameInv g Hs))
    as (g' & o' & H & HI & Hrule).
  exists g', o'. split; [exact H|]. split; [|split; assumption].
  eapply started_Update; eauto.
Qed.

End GameRules.

Section GameTheorems.


Context {G : GameEnv}.

Lemma simulationRounds_seeded n : forall s, seeded (simulationRounds n s).
Proof.
  induction n as [|n IH]; intros s; simpl; [apply seeded_ret|].
  apply seeded_bind; [apply seeded_randInt|]. intros a.
  apply seeded_bind; [apply seeded_randInt|]. intros b. apply IH.
Qed.

(** X10: [Update] does not panic on a game that [main] has initialized,
    whatever the inputs: the runner and the simulation are never nil and
    the runner's tick returns.  After it the game is in mode
    [GameModeGameOver] exactly when its runner is over, and on the title
    screen exactly when its runner is the muted one of the demo. *)
Theorem Update_returns_on_started_games i g o :
  started g ->
  exists g' o' r',
    Update i g o = Some (g', o') /\ runner g' = Some r' /\
    (mode g' = GameModeGameOver <-> gameOver r' = true) /\
    (mode g' = GameModeTitle <-> mute r' = true).
Proof.
  intros Hs.
  destruct (started_step i g o Hs) as (g' & o' & H & _ & HI & _).
  destruct HI as (s & r' & _ & Hr & _ & _ & _ & Hmode).
  exists g', o', r'. split; [exact H|]. split; [exact Hr|].
  destruct (mode g'); intuition congruence.
Qed.


Lemma gameOver_wait inputs : forall g o,
  started g -> mode g = GameModeGameOver ->
  modeTicks g + Z.of_nat (List.length inputs) <= 60 ->
  exists g' o',
    Updates inputs g o = Some (g', o') /\ started g' /\
    mode g' = GameModeGameOver /\
    modeTicks g' = modeTicks g + Z.of_nat (List.length inputs) /\
    runner g' = runner g /\ highScore g' = highScore g /\
    world o' = world o.
Proof.
  induction inputs as [|i inputs IH]; intros g o Hs Hm Hn.
  - exists g, o. cbn. rewrite Z.add_0_r. repeat split; auto.
  - cbn [List.length] in Hn. rewrite Nat2Z.inj_succ in Hn.
    destruct (started_GameInv g Hs) as (_ & _ & _ & _ & _ & _ & Ht & _).
    destruct (started_step i g o Hs) as (g1 & o1 & H1 & Hs1 & _ & Hrule).
    destruct Hrule as (_ & _ & _ & Hrule). rewrite Hm in Hrule.
    unfold GoInt.addU in Hrule.
    rewrite GoIntFacts.wrapU_id in Hrule by lia.
    destruct Hrule as (Hh & Hrule).
    assert (Hlt : (60 <? modeTicks g + 1) = false) by (apply Z.ltb_ge; lia).
    rewrite Hlt in Hrule. cbn [andb] in Hrule.
    destruct Hrule as (Hm1 & Ht1 & _ & _ & Hr1 & _ & Hw1 & _).
    destruct (IH g1 o1 Hs1 Hm1 ltac:(lia))
      as (g' & o' & H & Hs' & Hm' & Ht' & Hr' & Hh' & Hw').
    exists g', o'. cbn [Updates]. unfold gbind. rewrite H1.
    split; [exact H|]. split; [exact Hs'|]. split; [exact Hm'|].
    cbn [List.length]. rewrite Nat2Z.inj_succ.
    repeat split; try congruence. lia.
Qed.

(** X12: once the game is over, [Update] ignores the touches until the mode
    counter has passed 60: whatever the inputs, as long as the counter stays
    within 60 the game stays in mode [GameModeGameOver], the counter counts
    the updates, and the runner, the high score, the random source and the
    sounds played are left as they are. *)
Theorem game_over_screen_waits_60_updates inputs g o :
  started g -> mode g = GameModeGameOver ->
  modeTicks g + Z.of_nat (List.length inputs) <= 60 ->
  exists g' o',
    Updates inputs g o = Some (g', o') /\
    mode g' = GameModeGameOver /\
    modeTicks g' = modeTicks g + Z.of_nat (List.length inputs) /\
    runner g' = runner g /\ highScore g' = highScore g /\
    world o' = world o.
Proof.
  intros Hs Hm Hn.
  destruct (gameOver_wait inputs g o Hs Hm Hn) as (g' & o' & H & _ & Hrest).
  exists g', o'. split; [exact H|exact Hrest].
Qed.

(** X13: the title screen is silent.  An [Update] on the title screen
    plays nothing, whatever the demonstration does, unless a touch begins:
    then it starts the game and plays the start sound, once, at full
    volume. *)
Theorem title_screen_is_silent i g o :
  started g -> mode g = GameModeTitle ->
  exists g' o',
    Update i g o = Some (g', o') /\
    if AnyTouchesJustTouched (UpdateTouches (pointers i) (touches g))
    then mode g' = GameModePlaying /\
         played (world o') =
           played (world o) ++ [(gameStartAudioData, 1%float)]
    else mode g' = GameModeTitle /\
         played (world o') = played (world o).
Proof.
  intros Hs Hm.
  destruct (started_step i g o Hs) as (g' & o' & H & _ & _ & Hrule).
  exists g', o'. split; [exact H|].
  destruct Hrule as (_ & _ & _ & Hrule). rewrite Hm in Hrule.
  destruct Hrule as (_ & _ & _ & Hrule).
  destruct (AnyTouchesJustTouched _); tauto.
Qed.

(** X14: the modes follow the cycle title, playing, game over, title.  An
    [Update] either stays in the mode and counts one more update of it, or
    goes to the next mode and resets the counter to 0.  It goes on
    exactly: from the title when a touch begins; from a played game when the
    runner is over; from the game over screen when the counter has passed
    60 and a touch begins. *)
Theorem modes_follow_the_cycle i g o :
  started g ->
  exists g' o',
    Update i g o = Some (g', o') /\
    ((mode g' = mode g /\ modeTicks g' = GoInt.addU (modeTicks g) 1) \/
     (mode g' = nextMode (mode g) /\ modeTicks g' = 0)) /\
    (mode g' = nextMode (mode g) <->
     match mode g with
     | GameModeTitle =>
         AnyTouchesJustTouched
           (UpdateTouches (pointers i) (touches g)) = true
     | GameModePlaying =>
         exists r', runner g' = Some r' /\ gameOver r' = true
     | GameModeGameOver =>
         60 < GoInt.addU (modeTicks g) 1 /\
         AnyTouchesJustTouched
           (UpdateTouches (pointers i) (touches g)) = true
     end).
Proof.
  intros Hs.
  destruct (started_step i g o Hs) as (g' & o' & H & _ & _ & Hrule).
  exists g', o'. split; [exact H|].
  destruct Hrule as (_ & _ & _ & Hrule).
  destruct (mode g) eqn:Hm; cbn [nextMode].
  - destruct Hrule as (_ & _ & _ & Hrule).
    destruct (AnyTouchesJustTouched _).
    + destruct Hrule as (-> & -> & _). split; [right|]; tauto.
    + destruct Hrule as (-> & -> & _). split; [left; tauto|].
      split; discriminate.
  - destruct Hrule as (_ & _ & _ & r & r' & w' & _ & _ & Hr' & _ & Hrule).
    destruct (gameOver r') eqn:Hgo.
    + destruct Hrule as (-> & -> & _). split; [right; tauto|].
      split; [|reflexivity]. intros _. now exists r'.
    + destruct Hrule as (-> & -> & _). split; [left; tauto|].
      split; [discriminate|]. intros (r2 & Hr2 & Hgo2). congruence.
  - destruct Hrule as (_ & Hrule).
    destruct (60 <? GoInt.addU (modeTicks g) 1) eqn:Hlt;
      destruct (AnyTouchesJustTouched _); cbn [andb] in Hrule;
      destruct Hrule as (-> & -> & _);
      try apply Z.ltb_lt in Hlt; try apply Z.ltb_ge in Hlt;
      (split; [tauto|]); split; try discriminate; try tauto;
      intros [? ?]; try discriminate; lia.
Qed.

(** X15: what [Update] sends to the logging server: first the touch log,
    with the counter it has just incremented and the touches it has just
    read, then one more call exactly when the mode changes: the start of the
    game, its end with the final score of the runner, or the
    re-initialization with the new play identifier and the seed. *)
Theorem every_mode_change_is_logged i g o :
  started g ->
  exists g' o' r',
    Update i g o = Some (g', o') /\ runner g' = Some r' /\
    sent o' =
      sent o
      ++ [SendTouchLog gameName (playerID g) (sessionID g) (playID g)
            (GoInt.addU (modeTicks g) 1)
            (UpdateTouches (pointers i) (touches g))]
      ++ match mode g, mode g' with
         | GameModeTitle, GameModePlaying =>
             [SendLog gameName (playerID g) (sessionID g) (playID g)
                StartGamePayload]
         | GameModePlaying, GameModeGameOver =>
             [SendLog gameName (playerID g) (sessionID g) (playID g)
                (GameOverPayload (score r'))]
         | GameModeGameOver, GameModeTitle =>
             [SendLog gameName (playerID g) (sessionID g)
                (match uuid i with Some u => u | None => ""%string end)
                (InitializePayload (now i))]
         | _, _ => []
         end.
Proof.
  intros Hs.
  destruct (started_step i g o Hs) as (g' & o' & H & _ & HI & Hrule).
  destruct HI as (s & r' & _ & Hr & _).
  exists g', o', r'. split; [exact H|]. split; [exact Hr|].
  destruct Hrule as (_ & _ & _ & Hrule). unfold touchLog in Hrule.
  destruct (mode g) eqn:Hm.
  - destruct Hrule as (_ & _ & _ & Hrule).
    destruct (AnyTouchesJustTouched _);
      destruct Hrule as (-> & _ & _ & ->); reflexivity.
  - destruct Hrule as (_ & _ & _ & r & r1 & w' & _ & _ & Hr1 & _ & Hrule).
    assert (r1 = r') by congruence. subst r1.
    destruct (gameOver r');
      destruct Hrule as (-> & _ & _ & ->); reflexivity.
  - destruct Hrule as (_ & Hrule).
    destruct (_ && _).
    + destruct Hrule as (-> & _ & _ & Hp & _ & ->). rewrite Hp. reflexivity.
    + destruct Hrule as (-> & _ & _ & _ & _ & _ & _ & ->). reflexivity.
Qed.

(** X16: the demonstration's input.  With a random source that hands out
    non-negative integers, [generateTouchSimulation] builds three rounds of
    wait, touch, wait and release on a new simulation; each touch follows a
    wait of 30 to 89 ticks and is held for 30 to 59. *)
Theorem demo_script_bounds w :
  naturalRandom ->
  exists a1 b1 a2 b2 a3 b3 w',
    generateTouchSimulation w =
      Some (simulationRound
              (simulationRound (simulationRound NewSimulation a1 b1) a2 b2)
              a3 b3, w') /\
    Forall (fun a => 30 <= a <= 89) [a1; a2; a3] /\
    Forall (fun b => 30 <= b <= 59) [b1; b2; b3].
Proof.
  intros Hnat.
  assert (Ha : forall s, 30 <= GoInt.add 30 (Z.rem (fst (rand_Int s)) 60) <= 89).
  { intros s. pose proof (Z.rem_bound_pos (fst (rand_Int s)) 60 (Hnat s) ltac:(lia)).
    unfold GoInt.add. rewrite small_wrap by lia. lia. }
  assert (Hb : forall s, 30 <= GoInt.add 30 (Z.rem (fst (rand_Int s)) 30) <= 59).
  { intros s. pose proof (Z.rem_bound_pos (fst (rand_Int s)) 30 (Hnat s) ltac:(lia)).
    unfold GoInt.add. rewrite small_wrap by lia. lia. }
  unfold generateTouchSimulation, simulationRounds, bind, randInt, ret.
  cbn [random].
  repeat match goal with
         | |- context [let (_, _) := rand_Int ?s in _] =>
             let n := fresh "n" in
             let s' := fresh "s" in
             let Hn := fresh "Hn" in
             pose proof (Ha s) as ?; pose proof (Hb s) as ?;
             destruct (rand_Int s) as [n s'] eqn:Hn; cbn [fst random] in *
         end.
  do 7 eexists. split; [reflexivity|].
  split; repeat (apply Forall_cons; [assumption|]); apply Forall_nil.
Qed.

(** X17: [initialize] returns on every game, and what it sets up depends
    on the clock only: two calls that read the same second leave the same
    demonstration runner, the same touch simulation and the same random
    source, whatever the games and the outside were before; each game keeps
    its high score. *)
Theorem initialize_depends_on_the_clock_only i1 g1 o1 i2 g2 o2 :
  now i1 = now i2 ->
  exists g1' o1' g2' o2',
    initialize i1 g1 o1 = Some (g1', o1') /\
    initialize i2 g2 o2 = Some (g2', o2') /\
    runner g1' = runner g2' /\
    touchSimulation g1' = touchSimulation g2' /\
    random (world o1') = random (world o2') /\
    highScore g1' = highScore g1 /\ highScore g2' = highScore g2.
Proof.
  intros Hnow.
  unfold initialize, gbind, send, setRandom, lift, gret. cbn [world sent].
  rewrite Hnow.
  set (w1 := {| random := _; played := played (world o1) |}).
  set (w2 := {| random := _; played := played (world o2) |}).
  assert (Hw : random w1 = random w2) by reflexivity.
  pose proof (simulationRounds_seeded 3 NewSimulation w1 w2 Hw) as Hsim.
  fold generateTouchSimulation in Hsim.
  destruct (generateTouchSimulation_returns w1) as (s1 & wa1 & Hs1 & _).
  destruct (generateTouchSimulation_returns w2) as (s2 & wa2 & Hs2 & _).
  rewrite Hs1, Hs2 in Hsim. destruct Hsim as [-> Hwa].
  rewrite Hs1, Hs2. cbn [world sent].
  pose proof (newGameRunner_seeded true wa1 wa2 Hwa) as Hrun.
  destruct (newGameRunner_returns true wa1) as (r1 & wb1 & Hr1 & _).
  destruct (newGameRunner_returns true wa2) as (r2 & wb2 & Hr2 & _).
  rewrite Hr1, Hr2 in Hrun. destruct Hrun as [-> Hwb].
  rewrite Hr1, Hr2. cbn [world sent].
  do 4 eexists. split; [reflexivity|]. split; [reflexivity|].
  destruct (uuid i1), (uuid i2); cbn; repeat split; try reflexivity; assumption.
Qed.

End GameTheorems.

(** * The sprites and the game on concrete runs *)

Lemma demo_reachable : reachable (E := Sample.env) SampleGame.demo.
Proof.
  eapply reachable_new with (mute := true) (w := Sample.world [] []).
  vm_compute. reflexivity.
Qed.

Lemma runner188_reachable : reachable (E := Sample.env) Sample.runner188.
Proof. exact (reachableIn_reachable 188 _ runner188_reachableIn). Qed.

(** The muted runner of a demo on the tick a touch begins, on which a
    runner that is not muted plays the charge sound. *)
Lemma muted_runner_plays_nothing_witness :
  reachable (E := Sample.env) SampleGame.demo /\
  mute SampleGame.demo = true /\
  exists r' w',
    update (E := Sample.env) SampleGame.demo [Sample.JustTouched]
      (Sample.world [] []) = Some (r', w') /\
    played w' = [] /\ gage r' = 1.
Proof.
  split; [exact demo_reachable|]. split; [reflexivity|].
  destruct (muted_runner_plays_nothing (E := Sample.env) SampleGame.demo
              [Sample.JustTouched] (Sample.world [] []) demo_reachable eq_refl)
    as (r' & w' & H & Hp & _).
  exists r', w'. split; [exact H|]. split; [exact Hp|].
  rewrite <- (result_eq _ _ _ SampleGame.demo H). vm_compute. reflexivity.
Defined.

(** The same tick of the runner of a new game, which is not muted. *)
Example first_touch_plays_the_charge_sound :
  exists r' w',
    update (E := Sample.env) Sample.fresh [Sample.JustTouched]
      (Sample.world [] []) = Some (r', w') /\
    played w' = [(chargeAudioData, 1%float)].
Proof. eexists. eexists. split; [vm_compute; reflexivity|reflexivity]. Qed.

(** The first tick of a new game. *)
Lemma tick_leaves_nothing_stale_witness :
  reachable (E := Sample.env) Sample.fresh /\
  gameOver Sample.fresh = false /\
  exists r' w',
    update (E := Sample.env) Sample.fresh [] (Sample.world [] []) =
      Some (r', w') /\
    Forall (fun o => objectStays (E := Sample.env) o = true) (objects r') /\
    List.length (objects r') = 219%nat.
Proof.
  split; [exact fresh_reachable|]. split; [reflexivity|].
  destruct (tick_leaves_nothing_stale (E := Sample.env) Sample.fresh []
              (Sample.world [] []) fresh_reachable eq_refl)
    as (r' & w' & H & Ho & _).
  exists r', w'. split; [exact H|]. split; [exact Ho|].
  rewrite <- (result_eq _ _ _ Sample.fresh H). vm_compute. reflexivity.
Defined.

(** The enemy of the sample game on tick 188, before it is struck. *)
Lemma unhit_enemies_stay_on_the_ground_witness :
  let e := hd newEnemy (enemies Sample.runner188) in
  reachable (E := Sample.env) Sample.runner188 /\
  In e (enemies Sample.runner188) /\ hit e = false /\
  Vector2D.Y (pos e) = rhinoY /\ enemyStays e = true.
Proof.
  intros e.
  assert (Hin : In e (enemies Sample.runner188)) by (left; reflexivity).
  destruct (unhit_enemies_stay_on_the_ground (E := Sample.env)
              Sample.runner188 e runner188_reachable Hin eq_refl)
    as (Hy & _ & Hs & _).
  split; [exact runner188_reachable|]. split; [exact Hin|].
  split; [reflexivity|]. split; [exact Hy|exact Hs].
Defined.

(** Tick 189 of the sample game, on which the enemy is struck. *)
Lemma hit_pose_lasts_ten_ticks_witness :
  reachableIn (E := Sample.env) 188 Sample.runner188 /\
  gameOver Sample.runner188 = false /\
  exists r' w',
    update (E := Sample.env) Sample.runner188 [] Sample.world188 =
      Some (r', w') /\
    ticksAtHit r' = 189 /\ showsHitPose r' = true.
Proof.
  split; [exact runner188_reachableIn|]. split; [reflexivity|].
  destruct (hit_pose_lasts_ten_ticks (E := Sample.env) 188 Sample.runner188
              [] Sample.world188 runner188_reachableIn eq_refl eq_refl)
    as (r1 & w1 & r' & w' & _ & H & _ & _).
  exists r', w'. split; [exact H|].
  rewrite <- (result_eq _ _ _ Sample.runner188 H).
  split; vm_compute; reflexivity.
Defined.

(** The first object of a new game, a tree. *)
Lemma objects_are_drawable_witness :
  reachable (E := Sample.env) Sample.fresh /\
  In SampleGame.firstObject (objects Sample.fresh) /\
  exists d,
    BackgroundObject_draw (E := Sample.env) SampleGame.imageSize
      SampleGame.firstObject = Some d /\
    image d = treeImg.
Proof.
  assert (Hin : In SampleGame.firstObject (objects Sample.fresh))
    by (vm_compute; left; reflexivity).
  destruct (objects_are_drawable (E := Sample.env) SampleGame.imageSize
              Sample.fresh SampleGame.firstObject fresh_reachable Hin)
    as (d & H & _ & _).
  split; [exact fresh_reachable|]. split; [exact Hin|].
  exists d. split; [exact H|].
  revert H. vm_compute. intros H. inversion H. reflexivity.
Defined.

(** The strip of the game is 60 wide: 11 tiles cover the 640 of the
    screen. *)
Lemma background_strip_covers_the_screen_witness :
  exists tiles,
    drawBackground SampleGame.imageSize 11 = Some tiles /\
    List.length tiles = 11%nat.
Proof.
  pose proof (proj2 (background_strip_covers_the_screen SampleGame.imageSize))
    as Hpos.
  cbv zeta in Hpos.
  assert (Hw : 0 < tileWidth SampleGame.imageSize <= 2 ^ 61)
    by (vm_compute; split; [reflexivity|discriminate]).
  destruct (Hpos Hw 11%nat (Nat.le_refl 11)) as (tiles & H & Hg & _).
  exists tiles. split; [exact H|].
  rewrite <- (length_map geoM), Hg, length_map, length_seq. reflexivity.
Defined.

Lemma gameOf_eq (o : option (@Game SampleGame.env * @Outside SampleGame.env))
  g o' d :
  o = Some (g, o') -> SampleGame.gameOf o d = g.
Proof. intros ->. reflexivity. Qed.

Lemma outsideOf_eq (o : option (@Game SampleGame.env * @Outside SampleGame.env))
  g o' :
  o = Some (g, o') -> SampleGame.outsideOf o = o'.
Proof. intros ->. reflexivity. Qed.

Lemma started_Updates {G : GameEnv} inputs : forall g o g' o',
  started g -> Updates inputs g o = Some (g', o') -> started g'.
Proof.
  induction inputs as [|i inputs IH]; intros g o g' o' Hs H; cbn in H.
  - inversion H; subst. exact Hs.
  - unfold gbind in H.
    destruct (Update i g o) as [[g1 o1]|] eqn:H1; [|discriminate].
    eapply IH; [|exact H]. eapply started_Update; eauto.
Qed.

Lemma game0_started : started (G := SampleGame.env) SampleGame.game0.
Proof.
  apply (started_main (G := SampleGame.env) "player" "session" false
           (SampleGame.input false) SampleGame.outside
           SampleGame.game0 SampleGame.outside0).
  vm_compute. reflexivity.
Qed.

Lemma over_started : started (G := SampleGame.env) SampleGame.over.
Proof.
  apply (started_Updates (G := SampleGame.env) SampleGame.presses
           SampleGame.game0 SampleGame.outside0
           SampleGame.over SampleGame.outsideOver game0_started).
  vm_compute. reflexivity.
Qed.

Lemma sample_naturalRandom : naturalRandom (G := SampleGame.env).
Proof.
  intros [ints floats]. cbn. unfold Sample.rand_Int. cbn.
  destruct ints as [|n ints]; cbn; lia.
Qed.

(** The first [Update] of the sample game, with the pointer pressed: the
    game starts. *)
Lemma Update_returns_on_started_games_witness :
  started (G := SampleGame.env) SampleGame.game0 /\
  exists g' o' r',
    Update (G := SampleGame.env) (SampleGame.input true)
      SampleGame.game0 SampleGame.outside0 = Some (g', o') /\
    runner g' = Some r' /\ mode g' = GameModePlaying /\ mute r' = false.
Proof.
  split; [exact game0_started|].
  destruct (Update_returns_on_started_games (G := SampleGame.env)
              (SampleGame.input true) SampleGame.game0 SampleGame.outside0
              game0_started)
    as (g' & o' & r' & H & Hr & _ & Hti).
  exists g', o', r'. split; [exact H|]. split; [exact Hr|].
  assert (Hm : mode g' = GameModePlaying).
  { rewrite <- (gameOf_eq _ _ _ SampleGame.game0 H). vm_compute. reflexivity. }
  split; [exact Hm|].
  destruct (mute r') eqn:Hmu; [|reflexivity].
  rewrite (proj2 Hti eq_refl) in Hm. discriminate Hm.
Defined.


(** The sample game when it is over: 60 updates with the pointer pressed
    and released in turn leave it on the game over screen. *)
Lemma game_over_screen_waits_60_updates_witness :
  let inputs :=
    List.concat (repeat [SampleGame.input true; SampleGame.input false] 30) in
  started (G := SampleGame.env) SampleGame.over /\
  mode SampleGame.over = GameModeGameOver /\
  modeTicks SampleGame.over = 0 /\
  exists g' o',
    Updates (G := SampleGame.env) inputs
      SampleGame.over SampleGame.outsideOver = Some (g', o') /\
    mode g' = GameModeGameOver /\ modeTicks g' = 60 /\
    runner g' = runner SampleGame.over.
Proof.
  intros inputs.
  split; [exact over_started|]. split; [reflexivity|]. split; [reflexivity|].
  assert (Hn : modeTicks SampleGame.over + Z.of_nat (List.length inputs) <= 60)
    by (vm_compute; discriminate).
  destruct (game_over_screen_waits_60_updates (G := SampleGame.env) inputs
              SampleGame.over SampleGame.outsideOver over_started eq_refl Hn)
    as (g' & o' & H & Hm & Ht & Hr & _).
  exists g', o'. split; [exact H|]. split; [exact Hm|].
  split; [rewrite Ht; reflexivity|exact Hr].
Defined.

(** The 61st update after the end, with a touch that begins: the game is
    initialized again and back on the title screen, with its high score. *)
Example game_restarts_after_the_wait :
  let g' :=
    SampleGame.gameOf
      (Updates (G := SampleGame.env)
         (repeat (SampleGame.input false) 60 ++ [SampleGame.input true])
         SampleGame.over SampleGame.outsideOver)
      SampleGame.over in
  mode g' = GameModeTitle /\ modeTicks g' = 0 /\
  highScore g' = highScore SampleGame.over.
Proof. vm_compute. repeat split; reflexivity. Qed.

(** The first [Update] of the sample game, with the pointer pressed. *)
Lemma title_screen_is_silent_witness :
  started (G := SampleGame.env) SampleGame.game0 /\
  mode SampleGame.game0 = GameModeTitle /\
  exists g' o',
    Update (G := SampleGame.env) (SampleGame.input true)
      SampleGame.game0 SampleGame.outside0 = Some (g', o') /\
    mode g' = GameModePlaying /\
    played (world o') = [(gameStartAudioData, 1%float)].
Proof.
  split; [exact game0_started|]. split; [reflexivity|].
  destruct (title_screen_is_silent (G := SampleGame.env)
              (SampleGame.input true) SampleGame.game0 SampleGame.outside0
              game0_started eq_refl)
    as (g' & o' & H & Hif).
  exists g', o'. split; [exact H|].
  match type of Hif with
  | if ?c then _ else _ => change c with true in Hif
  end.
  exact Hif.
Defined.

(** The same [Update] without a touch: the demonstration goes on, in
    silence. *)
Example title_screen_without_a_touch :
  exists g' o',
    Update (G := SampleGame.env) (SampleGame.input false)
      SampleGame.game0 SampleGame.outside0 = Some (g', o') /\
    mode g' = GameModeTitle /\ modeTicks g' = 1 /\ played (world o') = [].
Proof.
  eexists. eexists. split; [vm_compute; reflexivity|].
  repeat split; reflexivity.
Qed.

Lemma modes_follow_the_cycle_witness :
  started (G := SampleGame.env) SampleGame.game0 /\
  exists g' o',
    Update (G := SampleGame.env) (SampleGame.input true)
      SampleGame.game0 SampleGame.outside0 = Some (g', o') /\
    mode g' = nextMode (mode SampleGame.game0) /\ modeTicks g' = 0.
Proof.
  split; [exact game0_started|].
  destruct (modes_follow_the_cycle (G := SampleGame.env)
              (SampleGame.input true) SampleGame.game0 SampleGame.outside0
              game0_started)
    as (g' & o' & H & Hor & Hiff).
  exists g', o'. split; [exact H|].
  assert (Hnext : mode g' = nextMode (mode SampleGame.game0))
    by (apply Hiff; reflexivity).
  split; [exact Hnext|].
  destruct Hor as [[Hsame _]|[_ Hz]]; [|exact Hz].
  rewrite Hnext in Hsame. discriminate Hsame.
Defined.

Lemma every_mode_change_is_logged_witness :
  started (G := SampleGame.env) SampleGame.game0 /\
  exists g' o',
    Update (G := SampleGame.env) (SampleGame.input true)
      SampleGame.game0 SampleGame.outside0 = Some (g', o') /\
    sent o' =
      [SendLog (G := SampleGame.env) gameName "player" "session" "play"
         (InitializePayload 248);
       SendTouchLog (G := SampleGame.env) gameName "player" "session" "play"
         1 [Sample.JustTouched];
       SendLog gameName "player" "session" "play" StartGamePayload].
Proof.
  split; [exact game0_started|].
  destruct (every_mode_change_is_logged (G := SampleGame.env)
              (SampleGame.input true) SampleGame.game0 SampleGame.outside0
              game0_started)
    as (g' & o' & r' & H & _ & Hs).
  exists g', o'. split; [exact H|].
  assert (Hm : mode g' = GameModePlaying).
  { rewrite <- (gameOf_eq _ _ _ SampleGame.game0 H). vm_compute. reflexivity. }
  rewrite Hs, Hm. reflexivity.
Defined.

Lemma demo_script_bounds_witness :
  naturalRandom (G := SampleGame.env) /\
  exists a1 b1 a2 b2 a3 b3 w',
    generateTouchSimulation (G := SampleGame.env)
      (Sample.world [5; 65; 130; 29; 59; 0] []) =
      Some (simulationRound
              (simulationRound (simulationRound NewSimulation a1 b1) a2 b2)
              a3 b3, w') /\
    Forall (fun a => 30 <= a <= 89) [a1; a2; a3] /\
    Forall (fun b => 30 <= b <= 59) [b1; b2; b3].
Proof.
  split; [exact sample_naturalRandom|].
  exact (demo_script_bounds (G := SampleGame.env)
           (Sample.world [5; 65; 130; 29; 59; 0] []) sample_naturalRandom).
Defined.

(** The script those six integers give: a wait of 35, a touch held for 35
    ticks and released, and so on. *)
Example demo_script_of_the_sample :
  exists w',
    generateTouchSimulation (G := SampleGame.env)
      (Sample.world [5; 65; 130; 29; 59; 0] []) =
      Some (simulationRound (G := SampleGame.env)
              (simulationRound (G := SampleGame.env)
                 (simulationRound (G := SampleGame.env)
                    (NewSimulation (GameEnv := SampleGame.env)) 35 35)
                 40 59)
              89 30, w').
Proof. eexists. vm_compute. reflexivity. Qed.

(** [main]'s call of [initialize], and a call on the game that is over,
    with another device and no play identifier, at the same second. *)
Lemma initialize_depends_on_the_clock_only_witness :
  let i2 := @Build_Inputs SampleGame.env true None 248 in
  now (SampleGame.input false) = now i2 /\
  exists g1' o1' g2' o2',
    initialize (G := SampleGame.env) (SampleGame.input false)
      SampleGame.literal SampleGame.outside = Some (g1', o1') /\
    initialize (G := SampleGame.env) i2
      SampleGame.over SampleGame.outsideOver = Some (g2', o2') /\
    runner g1' = runner g2' /\
    touchSimulation g1' = touchSimulation g2' /\
    random (world o1') = random (world o2') /\
    highScore g1' = highScore SampleGame.literal /\
    highScore g2' = highScore SampleGame.over.
Proof.
  intros i2. split; [reflexivity|].
  exact (initialize_depends_on_the_clock_only (G := SampleGame.env)
           (SampleGame.input false) SampleGame.literal SampleGame.outside
           i2 SampleGame.over SampleGame.outsideOver eq_refl).
Defined.
